(** * Scribe-Data: [load/data_to_sqlite.py]

    A shallow embedding of the script that turns the per-language JSON
    files into one SQLite database per language, and the properties of its
    specification that were checked against it.

    Layout:
    - [Text]: strings as Python and SQLite see them (code points);
    - [Py]: exceptions, JSON values, [dict] as [json.load] builds it;
    - [Sql]: the part of SQLite the script drives: table definitions,
      [INSERT OR IGNORE], the scalar functions and the joins of the
      lexicon query;
    - [Load]: the script itself, over a process that has database files,
      a standard output and one open connection;
    - [Examples]: concrete inputs;
    - [Properties]: what holds of the script, claim by claim, and then
      further properties of its functions: the statements on tables, the
      loading of a word type, the build of a language, the choice of the
      languages and the whole run. *)

From stdpp Require Import gmap list strings.
From Stdlib Require Import NArith.
From Stdlib Require Ascii String.

Set Warnings "-register-all,-clear-no-such-hyp".

Open Scope N_scope.
Open Scope list_scope.

(** ** Text *)

Module Text.

(** A Python [str] is a sequence of Unicode code points, and SQLite's
    [LENGTH], [SUBSTR] and [LIKE] count characters, not bytes.  Texts are
    taken without U+0000: Python hands it on, but these three functions of
    SQLite stop at it. *)
Abbreviation text := (list N).

(** ASCII literals. *)
Definition T (s : string) : text :=
  (λ a, Ascii.N_of_ascii a) <$> String.list_ascii_of_string s.
Arguments T : simpl never.

Definition text_eqb (a b : text) : bool := bool_decide (a = b).

Definition c_space : N := 32.
Definition c_comma : N := 44.
Definition c_percent : N := 37.
Definition c_underscore : N := 95.
Definition c_hyphen : N := 45.
Definition c_slash : N := 47.
Definition c_lparen : N := 40.
Definition c_rparen : N := 41.
Definition c_dquote : N := 34.
Definition c_squote : N := 39.
(** U+201C, U+201E and U+201D: the three curly double quotes of the query. *)
Definition c_ldquo : N := 8220.
Definition c_bdquo : N := 8222.
Definition c_rdquo : N := 8221.

Definition is_lower (c : N) : bool := (97 <=? c) && (c <=? 122).
Definition is_upper (c : N) : bool := (65 <=? c) && (c <=? 90).

(** SQLite's [upper()] and [lower()] only convert ASCII letters. *)
Definition upper_char (c : N) : N := if is_lower c then c - 32 else c.
Definition lower_char (c : N) : N := if is_upper c then c + 32 else c.
Definition upper (s : text) : text := upper_char <$> s.
Definition lower (s : text) : text := lower_char <$> s.

(** A character that is not an ASCII letter. *)
Definition plain (c : N) : Prop := is_lower c = false ∧ is_upper c = false.

(** Names of tables and columns are compared without regard to ASCII case. *)
Definition ieqb (a b : text) : bool := text_eqb (lower a) (lower b).

(** [sep.join(l)] *)
Fixpoint join (sep : text) (l : list text) : text :=
  match l with
  | [] => []
  | [x] => x
  | x :: r => x ++ sep ++ join sep r
  end.

Fixpoint starts_with (p s : text) : bool :=
  match p, s with
  | [], _ => true
  | _ :: _, [] => false
  | a :: p', b :: s' => (a =? b) && starts_with p' s'
  end.

(** [s.split(sep)[0]] for a non-empty [sep]: what comes before the first
    occurrence of [sep], all of [s] when there is none. *)
Fixpoint split_head (sep s : text) : text :=
  match s with
  | [] => []
  | c :: s' => if starts_with sep s then [] else c :: split_head sep s'
  end.

(** Cutting a text at every character that satisfies [p]. *)
Fixpoint split_by (p : N → bool) (s : text) : list text :=
  match s with
  | [] => [[]]
  | c :: s' =>
      if p c then [] :: split_by p s'
      else match split_by p s' with
           | [] => [[c]]
           | w :: ws => (c :: w) :: ws
           end
  end.

Definition is_space (c : N) : bool :=
  (c =? 32) || (c =? 9) || (c =? 10) || (c =? 12) || (c =? 13).

Definition nonempty (s : text) : bool :=
  match s with [] => false | _ => true end.

(** The blank-separated words of a text. *)
Definition words (s : text) : list text :=
  List.filter nonempty (split_by is_space s).

End Text.

Export Text.

(** ** Python values *)

Module Py.

Inductive exn :=
| KeyError | IndexError | TypeError | AttributeError | ValueError
| SyntaxError | OSError
| OperationalError | IntegrityError | InterfaceError.

#[export] Instance exn_eq_dec : EqDecision exn.
Proof. solve_decision. Defined.

(** A computation that returns or raises. *)
Inductive result (A : Type) :=
| Ok (a : A)
| Raise (e : exn).
Arguments Ok {A} a.
Arguments Raise {A} e.

#[export] Instance result_ret : MRet result := λ A a, Ok a.
#[export] Instance result_bind : MBind result := λ A B f m,
  match m with
  | Ok a => f a
  | Raise e => Raise e
  end.
#[export] Instance result_fmap : FMap result := λ A B f m,
  match m with
  | Ok a => Ok (f a)
  | Raise e => Raise e
  end.

Definition raises {A} (m : result A) : bool :=
  match m with Ok _ => false | Raise _ => true end.

(** [[f(x) for x in l]], stopping at the first exception. *)
Fixpoint traverse {A B} (f : A → result B) (l : list A) : result (list B) :=
  match l with
  | [] => Ok []
  | x :: r => y ← f x; ys ← traverse f r; Ok (y :: ys)
  end.

(** A [for] loop that threads a state, stopping at the first exception. *)
Fixpoint foldM {A S} (f : S → A → result S) (s : S) (l : list A) : result S :=
  match l with
  | [] => Ok s
  | x :: r => s' ← f s x; foldM f s' r
  end.

(** What [json.load] hands to the script.  Leaves are strings or [None];
    an object keeps the members in the order of the file, duplicates
    included: [json_load] below turns them into a [dict]. *)
Inductive json :=
| JNull
| JStr (s : text)
| JList (l : list json)
| JObj (members : list (text * json)).

(** A [dict] with string keys, in insertion order. *)
Abbreviation dict := (list (text * json)).

(** [d[k] = v] *)
Fixpoint dict_set {V} (d : list (text * V)) (k : text) (v : V) : list (text * V) :=
  match d with
  | [] => [(k, v)]
  | (k', v') :: r =>
      if text_eqb k k' then (k', v) :: r else (k', v') :: dict_set r k v
  end.

(** The [dict] built from the members of a JSON object: a repeated key
    keeps its first position and its last value. *)
Definition json_load (members : list (text * json)) : dict :=
  foldl (λ d kv, dict_set d kv.1 kv.2) [] members.

(** [list(d.keys())], also the order of [for row in d]. *)
Definition keys (d : dict) : list text := fst <$> d.

(** [k in d] *)
Definition contains (d : dict) (k : text) : bool :=
  existsb (text_eqb k) (keys d).

(** [d[k]] *)
Fixpoint getitem (d : dict) (k : text) : result json :=
  match d with
  | [] => Raise KeyError
  | (k', v) :: r => if text_eqb k k' then Ok v else getitem r k
  end.

(** What [ast.literal_eval] can return, as far as the script looks:
    a string, a list, or something else that [set()] accepts or not. *)
Inductive pyval :=
| PStr (s : text)
| PList (l : list pyval)
| POther (hashable : bool).

Definition hashable (v : pyval) : bool :=
  match v with
  | PStr _ => true
  | PList _ => false
  | POther h => h
  end.

(** [v[k]] for a string [k]. *)
Definition subscript (v : json) (k : text) : result json :=
  match v with
  | JObj m => getitem (json_load m) k
  | JList _ | JStr _ | JNull => Raise TypeError
  end.

(** [v.keys()] *)
Definition keys_of (v : json) : result (list text) :=
  match v with
  | JObj m => Ok (keys (json_load m))
  | JList _ | JStr _ | JNull => Raise AttributeError
  end.

(** [[v[i] for i in range(len(v))]]: the elements of a list, the
    characters of a string; a non-empty [dict] has no integer key. *)
Definition elements (v : json) : result (list json) :=
  match v with
  | JList l => Ok l
  | JStr s => Ok ((λ c, JStr [c]) <$> s)
  | JObj m => match json_load m with [] => Ok [] | _ :: _ => Raise KeyError end
  | JNull => Raise TypeError
  end.

(** [l[0]] *)
Definition first {A} (l : list A) : result A :=
  match l with
  | [] => Raise IndexError
  | x :: _ => Ok x
  end.

End Py.

Export Py.

(** ** The SQLite engine, as far as the script drives it *)

Module Sql.

Inductive sqlval :=
| VNull
| VText (s : text).

#[export] Instance sqlval_eq_dec : EqDecision sqlval.
Proof. solve_decision. Defined.

(** A table: the declared column names, the columns of its [UNIQUE]
    constraint, and the rows in insertion order. *)
Record table := Table {
  columns : list text;
  unique_on : list text;
  rows : list (list sqlval)
}.

Abbreviation database := (gmap text table).

(** *** [CREATE TABLE IF NOT EXISTS name (column-defs, UNIQUE(columns))]

    The statement keeps the two fragments the script interpolates as the
    texts they are; the engine reads each as a comma-separated list. *)
Record create_stmt := CreateTable {
  ct_name : text;
  ct_column_defs : text;
  ct_unique : text
}.

Definition comma_items (s : text) : list text := split_by (N.eqb c_comma) s.

(** A column definition is a name, optionally followed by a type name.
    Whether the engine takes the name for an identifier is not modelled:
    the names of the script are plain, and what is proved about the slots
    of verbs, whose names come from the data, holds whether the statement
    is accepted or refused. *)
Definition column_def (item : text) : result text :=
  match words item with
  | [] => Raise OperationalError
  | name :: _ => Ok name
  end.

(** A column of a [UNIQUE] constraint is a bare name. *)
Definition indexed_column (item : text) : result text :=
  match words item with
  | [name] => Ok name
  | _ => Raise OperationalError
  end.

Fixpoint distinct_names (l : list text) : bool :=
  match l with
  | [] => true
  | x :: r => negb (existsb (ieqb x) r) && distinct_names r
  end.

Fixpoint col_index (name : text) (cols : list text) : option nat :=
  match cols with
  | [] => None
  | c :: r => if ieqb name c then Some 0%nat else S <$> col_index name r
  end.

Definition has_column (cols : list text) (name : text) : bool :=
  match col_index name cols with Some _ => true | None => false end.

(** The table a statement describes, when the statement parses. *)
Definition parse_create (st : create_stmt) : result table :=
  cols ← traverse column_def (comma_items (ct_column_defs st));
  uniq ← traverse indexed_column (comma_items (ct_unique st));
  Ok (Table cols uniq []).

(** What the engine checks before it makes the table: column names must
    differ, and the [UNIQUE] constraint must name declared columns. *)
Definition check_table (t : table) : result table :=
  if negb (distinct_names (columns t)) then Raise OperationalError
  else if negb (forallb (has_column (columns t)) (unique_on t)) then
    Raise OperationalError
  else Ok t.

(** The statement is parsed first; [IF NOT EXISTS] then makes it a no-op
    on a table that is already there, and the table is checked and made
    otherwise. *)
Definition exec_create (st : create_stmt) (db : database) : result database :=
  t ← parse_create st;
  match db !! ct_name st with
  | Some _ => Ok db
  | None => t' ← check_table t; Ok (<[ct_name st := t']> db)
  end.

(** *** [INSERT] *)

Definition cell (r : list sqlval) (i : nat) : sqlval := default VNull (r !! i).

(** The values of a row in the columns of the [UNIQUE] constraint. *)
Definition key_of (t : table) (r : list sqlval) : list sqlval :=
  (λ u, match col_index u (columns t) with
        | Some i => cell r i
        | None => VNull
        end) <$> unique_on t.

(** Two keys collide when every component is equal and none is [NULL]. *)
Fixpoint same_key (k1 k2 : list sqlval) : bool :=
  match k1, k2 with
  | [], [] => true
  | VText a :: k1', VText b :: k2' => text_eqb a b && same_key k1' k2'
  | _, _ => false
  end.

Definition violates (t : table) (r : list sqlval) : bool :=
  match unique_on t with
  | [] => false
  | _ :: _ => existsb (λ r', same_key (key_of t r') (key_of t r)) (rows t)
  end.

(** Tables whose [UNIQUE] constraint starts with their first column. *)
Definition head_keyed (t : table) : Prop :=
  ∃ u us, unique_on t = u :: us ∧ col_index u (columns t) = Some 0%nat.

Inductive on_conflict := Abort | Ignore.

Definition add_row (t : table) (r : list sqlval) : table :=
  Table (columns t) (unique_on t) (rows t ++ [r]).

(** What [INSERT OR IGNORE] makes of a table, for one row and for a
    sequence of rows. *)
Definition insert_or_ignore (t : table) (r : list sqlval) : table :=
  if violates t r then t else add_row t r.

Definition insert_all (t : table) (rs : list (list sqlval)) : table :=
  foldl insert_or_ignore t rs.

(** [INSERT [OR IGNORE] INTO tname VALUES (...)]: the table must exist and
    have as many columns as values are given; a row that collides on
    the [UNIQUE] constraint is skipped under [OR IGNORE] and refused
    otherwise. *)
Definition exec_insert (oc : on_conflict) (tname : text) (vals : list sqlval)
    (db : database) : result database :=
  match db !! tname with
  | None => Raise OperationalError
  | Some t =>
      if bool_decide (length vals = length (columns t)) then
        if violates t vals then
          match oc with
          | Ignore => Ok db
          | Abort => Raise IntegrityError
          end
        else Ok (<[tname := add_row t vals]> db)
      else Raise OperationalError
  end.

(** [INSERT INTO tname (col) SELECT ...]: one row for each selected value,
    [NULL] in the other columns. *)
Definition exec_insert_select (tname col : text) (vals : list sqlval)
    (db : database) : result database :=
  match db !! tname with
  | None => Raise OperationalError
  | Some t =>
      if has_column (columns t) col then
        foldM (λ db v,
                 exec_insert Abort tname
                   ((λ c, if ieqb col c then v else VNull) <$> columns t) db)
              db vals
      else Raise OperationalError
  end.

(** *** Expressions

    A condition is true, false or [NULL] ([None]); [WHERE] and [ON] keep a
    row only when it is true. *)

Definition holds (c : option bool) : bool := default false c.

Definition sql_and (a b : option bool) : option bool :=
  match a, b with
  | Some false, _ | _, Some false => Some false
  | Some true, Some true => Some true
  | _, _ => None
  end.

Definition sql_not (a : option bool) : option bool := negb <$> a.

Definition sql_eq (a b : sqlval) : option bool :=
  match a, b with
  | VText x, VText y => Some (text_eqb x y)
  | _, _ => None
  end.

(** [LENGTH(x) > n] *)
Definition length_gt (v : sqlval) (n : nat) : option bool :=
  match v with
  | VNull => None
  | VText s => Some (bool_decide (n < length s)%nat)
  end.

Definition sql_upper (v : sqlval) : sqlval :=
  match v with VNull => VNull | VText s => VText (upper s) end.

Definition sql_lower (v : sqlval) : sqlval :=
  match v with VNull => VNull | VText s => VText (lower s) end.

(** [SUBSTR(x, y)] and [SUBSTR(x, y, z)] for a start [y >= 1], which is
    all the query uses: characters are numbered from 1. *)
Definition sql_substr (v : sqlval) (y : nat) (z : option nat) : sqlval :=
  match v with
  | VNull => VNull
  | VText s =>
      let rest := drop (y - 1) s in
      VText (match z with Some n => take n rest | None => rest end)
  end.

(** [a || b] *)
Definition sql_concat (a b : sqlval) : sqlval :=
  match a, b with
  | VText x, VText y => VText (x ++ y)
  | _, _ => VNull
  end.

(** [LIKE]: [%] stands for any run of characters, [_] for any single one,
    and ASCII letters match in either case.  [like_rest k s] tries the
    rest of the pattern, [k], at every suffix of [s]. *)
Fixpoint like_rest (k : text → bool) (s : text) : bool :=
  k s || match s with
         | [] => false
         | _ :: s' => like_rest k s'
         end.

Fixpoint like (p s : text) : bool :=
  match p with
  | [] => negb (nonempty s)
  | c :: p' =>
      if c =? c_percent then like_rest (like p') s
      else
        match s with
        | [] => false
        | d :: s' =>
            ((c =? c_underscore) || (lower_char c =? lower_char d)) && like p' s'
        end
  end.

Definition sql_like (v : sqlval) (p : text) : option bool :=
  match v with VNull => None | VText s => Some (like p s) end.

Definition sql_not_like (v : sqlval) (p : text) : option bool :=
  sql_not (sql_like v p).

(** *** Queries *)

(** [SELECT col FROM tname] *)
Definition select_column (db : database) (tname col : text) : result (list sqlval) :=
  match db !! tname with
  | None => Raise OperationalError
  | Some t =>
      match col_index col (columns t) with
      | None => Raise OperationalError
      | Some i => Ok ((λ r, cell r i) <$> rows t)
      end
  end.

(** The rows of a table of a database, when it has the table. *)
Definition table_rows (db : database) (tname : text) : option (list (list sqlval)) :=
  rows <$> db !! tname.

Definition sql_where {A} (c : A → option bool) (l : list A) : list A :=
  List.filter (λ a, holds (c a)) l.

(** [SELECT DISTINCT] and [UNION] keep one copy of each value; the order
    of what they return is not promised by the engine, so only membership
    in these lists is meaningful. *)
Definition distinct (l : list sqlval) : list sqlval := remove_dups l.

Definition union (parts : list (list sqlval)) : list sqlval :=
  remove_dups (concat parts).

(** [l LEFT JOIN r ON c]: every row of [l] with each row of [r] that
    matches it, or once with [NULL] when none does.  The right-hand side
    is a single column here. *)
Definition left_join {A} (on : A → sqlval → option bool) (l : list A)
    (r : list sqlval) : list (A * sqlval) :=
  l ≫= (λ a, match List.filter (λ b, holds (on a b)) r with
             | [] => [(a, VNull)]
             | m => (λ b, (a, b)) <$> m
             end).

End Sql.

Export Sql.

(** ** The script *)

Module Load.

(** *** The process: database files, standard output, the open connection *)

Inductive message :=
| MsgCreatingDatabases (languages : list text)
| MsgDatabaseWritten (lang : text) (over : bool)
| MsgCreatingTable (lang wt : text)
| MsgDatabaseCreated (lang : text)
| MsgSkipping (lang : text).

(** A connection sees its own uncommitted changes in [view]; [in_txn]
    tells whether a transaction is open.  What is committed is the content
    of the file at [path]. *)
Record connection := Conn {
  path : text;
  view : database;
  in_txn : bool
}.

Record world := World {
  files : gmap text database;
  stdout : list message;
  conn : connection
}.

(** A step of the script returns or raises, and leaves a world either way. *)
Inductive outcome (A : Type) :=
| Returns (a : A) (w : world)
| Raises (e : exn) (w : world).
Arguments Returns {A} a w.
Arguments Raises {A} e w.

Definition M (A : Type) : Type := world → outcome A.

#[export] Instance M_ret : MRet M := λ A a w, Returns a w.
#[export] Instance M_bind : MBind M := λ A B f m w,
  match m w with
  | Returns a w' => f a w'
  | Raises e w' => Raises e w'
  end.

Definition lift {A} (r : result A) : M A := λ w,
  match r with
  | Ok a => Returns a w
  | Raise e => Raises e w
  end.

Definition final {A} (o : outcome A) : world :=
  match o with Returns _ w | Raises _ w => w end.

Definition returned {A} (o : outcome A) : bool :=
  match o with Returns _ _ => true | Raises _ _ => false end.

(** [for x in l: body] *)
Fixpoint for_each {A} (l : list A) (body : A → M unit) : M unit :=
  match l with
  | [] => mret ()
  | x :: r => _ ← body x; for_each r body
  end.

Definition printed (m : message) (w : world) : world :=
  World (files w) (stdout w ++ [m]) (conn w).

Definition print (m : message) : M unit := λ w, Returns () (printed m w).

(** The committed content of the connection's file. *)
Definition disk (w : world) : database := default ∅ (files w !! path (conn w)).

(** *** The connection *)

(** [os.path.exists] and [os.remove] on a database file. *)
Definition path_exists (p : text) : M bool := λ w,
  Returns (bool_decide (is_Some (files w !! p))) w.

Definition remove (p : text) : M unit := λ w,
  match files w !! p with
  | Some _ => Returns () (World (delete p (files w)) (stdout w) (conn w))
  | None => Raises OSError w
  end.

(** [sqlite3.connect(p)]: opens the file, creating an empty database when
    there is none. *)
Definition connect (p : text) : M unit := λ w,
  let db := default ∅ (files w !! p) in
  Returns () (World (<[p := db]> (files w)) (stdout w) (Conn p db false)).

(** A schema statement outside a transaction is committed at once; the
    file then holds what the connection sees. *)
Definition execute_create (st : create_stmt) : M unit := λ w,
  let c := conn w in
  match exec_create st (view c) with
  | Raise e => Raises e w
  | Ok v =>
      if in_txn c then Returns () (World (files w) (stdout w) (Conn (path c) v true))
      else Returns () (World (<[path c := v]> (files w)) (stdout w)
                              (Conn (path c) v false))
  end.

(** Python's [sqlite3] prepares the statement, opens a transaction before
    an [INSERT] when none is open, and only then binds the parameters;
    a list or a dict cannot be bound ([InterfaceError], [ProgrammingError]
    since Python 3.11). *)
Definition bind_param (v : json) : result sqlval :=
  match v with
  | JNull => Ok VNull
  | JStr s => Ok (VText s)
  | JList _ | JObj _ => Raise InterfaceError
  end.

Definition prepared_insert (tname : text) (n : nat) (db : database) : result unit :=
  match db !! tname with
  | None => Raise OperationalError
  | Some t =>
      if bool_decide (n = length (columns t)) then Ok () else Raise OperationalError
  end.

Definition begin : M unit := λ w,
  let c := conn w in
  Returns () (World (files w) (stdout w) (Conn (path c) (view c) true)).

(** A statement that reads the connection's view, and one that changes it. *)
Definition query {A} (f : database → result A) : M A := λ w,
  lift (f (view (conn w))) w.

Definition update (f : database → result database) : M unit := λ w,
  let c := conn w in
  match f (view c) with
  | Raise e => Raises e w
  | Ok v => Returns () (World (files w) (stdout w) (Conn (path c) v (in_txn c)))
  end.

Definition execute_insert (tname : text) (params : list json) : M unit :=
  _ ← query (prepared_insert tname (length params));
  _ ← begin;
  vals ← lift (traverse bind_param params);
  update (exec_insert Ignore tname vals).

(** [connection.commit()] *)
Definition commit : M unit := λ w,
  let c := conn w in
  Returns () (World (<[path c := view c]> (files w)) (stdout w)
                    (Conn (path c) (view c) false)).

(** Between two word types nothing is pending: no transaction is open
    and the file holds what the connection sees. *)
Definition consistent (w : world) : Prop :=
  in_txn (conn w) = false ∧ files w !! path (conn w) = Some (view (conn w)).

(** What the row loops leave alone: the files and the path of the connection. *)
Definition same_files (w w' : world) : Prop :=
  files w' = files w ∧ path (conn w') = path (conn w).

(** The world after [CREATE TABLE IF NOT EXISTS wt ...] for a definition
    [t] that the engine accepts. *)
Definition created (wt : text) (t : table) (w : world) : world :=
  let c := conn w in
  let v := match view c !! wt with
           | Some _ => view c
           | None => <[wt := t]> (view c)
           end in
  World (if in_txn c then files w else <[path c := v]> (files w)) (stdout w)
        (Conn (path c) v (in_txn c)).

(** What statements on the tables [S] leave alone: the path of the
    connection, the other files and the other tables.  The file of the
    connection is as it was, or holds a view that differs from the first
    one on the tables [S] only. *)
Definition changes_only (S : text → Prop) (w w' : world) : Prop :=
  path (conn w') = path (conn w) ∧
  (∀ q, q ≠ path (conn w) → files w' !! q = files w !! q) ∧
  (∀ x, ¬ S x → view (conn w') !! x = view (conn w) !! x) ∧
  (files w' !! path (conn w) = files w !! path (conn w) ∨
   ∃ v, files w' !! path (conn w) = Some v ∧
        ∀ x, ¬ S x → v !! x = view (conn w) !! x).

(** Two processes with the same connection and the same content in the
    file of the connection; two outcomes that return the same value or
    raise the same exception in such processes. *)
Definition same_database (w w' : world) : Prop :=
  conn w = conn w' ∧ files w !! path (conn w) = files w' !! path (conn w').

Definition same_outcome {A} (o o' : outcome A) : Prop :=
  match o, o' with
  | Returns a w, Returns a' w' => a = a' ∧ same_database w w'
  | Raises e w, Raises e' w' => e = e' ∧ same_database w w'
  | _, _ => False
  end.

(** A name made of ASCII letters, digits and underscores. *)
Definition word_char (c : N) : bool :=
  is_lower c || is_upper c || ((48 <=? c) && (c <=? 57)) || (c =? c_underscore).

Definition plain_name (s : text) : bool := nonempty s && forallb word_char s.

(** *** The script proper *)

Section Script.

(** What the script calls but does not define: the keys of
    [update_files/total_data.json], [ast.literal_eval], [os.listdir],
    [json.load(open(path))] (the members of the top-level object, in the
    order of the file), [scribe_data.utils.get_language_iso] and Python's
    [str.upper]. *)
Variable current_languages : list text.
Variable literal_eval : text → result pyval.
Variable listdir : text → result (list text).
Variable load_json : text → result (list (text * json)).
Variable get_language_iso : text → result text.
Variable str_upper : text → text.

Definition PATH_TO_ET_FILES : text := T "../extract_transform/".

Definition word_types : list text :=
  [T "nouns"; T "verbs"; T "prepositions"; T "translations";
   T "autosuggestions"; T "emoji_keywords"].

(** [x in current_languages], for an element of [set(arg)]. *)
Definition known_language (x : pyval) : bool :=
  match x with
  | PStr s => existsb (text_eqb s) current_languages
  | PList _ | POther _ => false
  end.

(** The optional argument: [None] when the script is not given exactly
    one, the list of languages it names otherwise. *)
Definition parse_argument (argv : list text) : result (option (list text)) :=
  match argv with
  | [_; arg] =>
      v ← match literal_eval arg with
          | Raise ValueError => Raise ValueError
          | r => r
          end;
      match v with
      | PList l =>
          if forallb hashable l then
            if forallb known_language l
            then Ok (Some (omap (λ x, match x with
                                      | PStr s => Some s
                                      | _ => None
                                      end) l))
            else Raise ValueError
          else Raise TypeError
      | _ => Raise ValueError
      end
  | _ => Ok None
  end.

(** The argument does not evaluate, evaluates to something that is not a
    list, or to a list with an element that is not a known language. *)
Definition invalid_argument (arg : text) : Prop :=
  match literal_eval arg with
  | Raise _ => True
  | Ok (PList l) => ∃ x, x ∈ l ∧ known_language x = false
  | Ok _ => True
  end.

(** The word types whose file is in the language's directory. *)
Definition available_word_types (lang : text) : result (list text) :=
  fs ← listdir (PATH_TO_ET_FILES ++ lang ++ T "/formatted_data");
  Ok (List.filter (λ n, existsb (text_eqb n) word_types)
        (split_head (T ".json") <$> fs)).

Definition language_word_type_dict (languages_update : list text)
    : result (list (text * list text)) :=
  foldM (λ d lang, wts ← available_word_types lang; Ok (dict_set d lang wts))
        [] languages_update.

(** The statement of [create_table], an f-string:
    [CREATE TABLE IF NOT EXISTS {word_type}
     ({' Text, '.join(cols)} Text, UNIQUE({cols[0]}))] *)
Definition create_table_statement (word_type : text) (cols : list text)
    : result create_stmt :=
  c0 ← first cols;
  Ok (CreateTable word_type (join (T " Text, ") cols ++ T " Text") c0).

Definition create_table (word_type : text) (cols : list text) : M unit :=
  st ← lift (create_table_statement word_type cols);
  execute_create st.

(** The table that [create_table] defines. *)
Definition table_definition (word_type : text) (cols : list text) : result table :=
  st ← create_table_statement word_type cols;
  t ← parse_create st;
  check_table t.

Definition table_insert (word_type : text) (keys : list json) : M unit :=
  execute_insert word_type keys.

(** The values a row of the blob is stored as. *)
Definition row_values (row_keys : text → result (list json)) (row : text)
    : result (list sqlval) :=
  keys ← row_keys row;
  traverse bind_param keys.

(** **** nouns *)

Definition nouns_cols : list text := [T "noun, plural, form"].

Definition nouns_keys (json_data : dict) (row : text) : result (list json) :=
  e ← getitem json_data row;
  plural ← subscript e (T "plural");
  e' ← getitem json_data row;
  form ← subscript e' (T "form");
  Ok [JStr row; plural; form].

(** The table that [create_table] makes of [nouns_cols]. *)
Definition nouns_table : table :=
  Table [T "noun"; T "plural"; T "form"] [T "noun"; T "plural"; T "form"] [].

Definition scribe_keys : list json :=
  [JStr (T "Scribe"); JStr (T "Scribes"); JStr []].

Definition scribe_row : list sqlval :=
  [VText (T "Scribe"); VText (T "Scribes"); VText []].

(** Whether the script adds its own entry to the nouns. *)
Definition seeds_scribe (lang : text) (json_data : dict) : bool :=
  negb (contains json_data (T "Scribe")) && negb (text_eqb lang (T "Russian")).

Definition load_nouns (lang : text) (json_data : dict) : M unit :=
  let wt := T "nouns" in
  let cols := nouns_cols in
  _ ← create_table wt cols;
  _ ← for_each (keys json_data) (λ row,
        keys ← lift (nouns_keys json_data row);
        table_insert wt keys);
  _ ← (if seeds_scribe lang json_data
       then table_insert wt scribe_keys
       else mret ());
  commit.

(** **** verbs *)

Definition verbs_cols (json_data : dict) : result (list text) :=
  k0 ← first (keys json_data);
  e ← getitem json_data k0;
  slots ← keys_of e;
  Ok ([T "verb"] ++ slots).

Definition verbs_keys (cols : list text) (json_data : dict) (row : text)
    : result (list json) :=
  forms ← traverse (λ col_name, e ← getitem json_data row; subscript e col_name)
                   (drop 1 cols);
  Ok ([JStr row] ++ forms).

Definition load_verbs (json_data : dict) : M unit :=
  let wt := T "verbs" in
  cols ← lift (verbs_cols json_data);
  _ ← create_table wt cols;
  _ ← for_each (keys json_data) (λ row,
        keys ← lift (verbs_keys cols json_data row);
        table_insert wt keys);
  commit.

(** **** prepositions and translations *)

Definition prepositions_cols : list text := [T "preposition, form"].
Definition translations_cols : list text := [T "word, translation"].

Definition pair_keys (json_data : dict) (row : text) : result (list json) :=
  v ← getitem json_data row;
  Ok [JStr row; v].

Definition load_pairs (wt : text) (cols : list text) (json_data : dict) : M unit :=
  _ ← create_table wt cols;
  _ ← for_each (keys json_data) (λ row,
        keys ← lift (pair_keys json_data row);
        table_insert wt keys);
  commit.

(** **** autosuggestions and emoji_keywords *)

Definition autosuggestions_cols : list text :=
  [T "word"; T "suggestion_0"; T "suggestion_1"; T "suggestion_2"].

Definition emoji_keywords_cols : list text :=
  [T "word"; T "emoji_0"; T "emoji_1"; T "emoji_2"].

(** [keys += [""] * (len(cols) - len(keys))]: nothing is added when the
    difference is negative. *)
Definition pad (cols : list text) (keys : list json) : list json :=
  keys ++ replicate (length cols - length keys) (JStr []).

Definition autosuggestions_keys (cols : list text) (json_data : dict) (row : text)
    : result (list json) :=
  e ← getitem json_data row;
  suggestions ← elements e;
  Ok (pad cols ([JStr row] ++ suggestions)).

Definition emoji_keywords_keys (cols : list text) (json_data : dict) (row : text)
    : result (list json) :=
  e ← getitem json_data row;
  items ← elements e;
  emojis ← traverse (λ x, subscript x (T "emoji")) items;
  Ok (pad cols ([JStr row] ++ emojis)).

Definition load_padded (wt : text) (cols : list text)
    (row_keys : list text → dict → text → result (list json))
    (json_data : dict) : M unit :=
  _ ← create_table wt cols;
  _ ← for_each (keys json_data) (λ row,
        keys ← lift (row_keys cols json_data row);
        table_insert wt keys);
  commit.

(** **** One word type of one language *)

Definition json_path (lang wt : text) : text :=
  PATH_TO_ET_FILES ++ lang ++ T "/formatted_data/" ++ wt ++ T ".json".

Definition load_word_type (lang wt : text) : M unit :=
  _ ← print (MsgCreatingTable lang wt);
  members ← lift (load_json (json_path lang wt));
  let json_data := json_load members in
  if text_eqb wt (T "nouns") then load_nouns lang json_data
  else if text_eqb wt (T "verbs") then load_verbs json_data
  else if text_eqb wt (T "prepositions") then
    load_pairs wt prepositions_cols json_data
  else if text_eqb wt (T "translations") then
    load_pairs wt translations_cols json_data
  else if text_eqb wt (T "autosuggestions") then
    load_padded wt autosuggestions_cols autosuggestions_keys json_data
  else if text_eqb wt (T "emoji_keywords") then
    load_padded wt emoji_keywords_cols emoji_keywords_keys json_data
  else mret ().

(** **** The autocomplete lexicon *)

Definition source_tables : list text :=
  [T "nouns"; T "prepositions"; T "autosuggestions"; T "emoji_keywords"].

(** The [WITH full_lexicon AS (...)] part: four [SELECT]s under [UNION]. *)
Definition candidates (nouns prepositions autosuggestions emoji_keywords : list sqlval)
    : list sqlval :=
  union
    [ sql_where (λ noun, length_gt noun 2) nouns;
      sql_where (λ preposition, length_gt preposition 2) prepositions;
      distinct (sql_lower <$> sql_where (λ word, length_gt word 2) autosuggestions);
      emoji_keywords ].

Definition full_lexicon (db : database) : result (list sqlval) :=
  nouns ← select_column db (T "nouns") (T "noun");
  prepositions ← select_column db (T "prepositions") (T "preposition");
  autosuggestions ← select_column db (T "autosuggestions") (T "word");
  emoji_keywords ← select_column db (T "emoji_keywords") (T "word");
  Ok (candidates nouns prepositions autosuggestions emoji_keywords).

(** [UPPER(SUBSTR(lex.word, 1, 1)) || SUBSTR(lex.word, 2)] *)
Definition capitalized (word : sqlval) : sqlval :=
  sql_concat (sql_upper (sql_substr word 1 (Some 1%nat))) (sql_substr word 2 None).

(** The [CASE] of the outer [SELECT], on a row of the two joins. *)
Definition lexicon_case (row : sqlval * sqlval * sqlval) : sqlval :=
  let '(word, nouns_cap, nouns_upper) := row in
  if holds (sql_eq (capitalized word) nouns_cap) then nouns_cap
  else if holds (sql_eq (sql_upper word) nouns_upper) then nouns_upper
  else word.

(** The [WHERE] of the outer [SELECT].  Its last pattern is written
    between double quotes, which the engine reads as a string when no
    column has that name. *)
Definition lexicon_filter (word : sqlval) : option bool :=
  sql_and (length_gt word 1)
  (sql_and (sql_not_like word [c_percent; c_hyphen; c_percent])
  (sql_and (sql_not_like word [c_percent; c_slash; c_percent])
  (sql_and (sql_not_like word [c_percent; c_lparen; c_percent])
  (sql_and (sql_not_like word [c_percent; c_rparen; c_percent])
  (sql_and (sql_not_like word [c_percent; c_dquote; c_percent])
  (sql_and (sql_not_like word [c_percent; c_ldquo; c_percent])
  (sql_and (sql_not_like word [c_percent; c_bdquo; c_percent])
  (sql_and (sql_not_like word [c_percent; c_rdquo; c_percent])
           (sql_not_like word [c_percent; c_squote; c_percent]))))))))).

(** The outer [SELECT DISTINCT CASE ... END FROM full_lexicon AS lex
    LEFT JOIN nouns AS nouns_cap ON ... LEFT JOIN nouns AS nouns_upper ON ...
    WHERE ...]. *)
Definition outer_select (lex nouns_cap nouns_upper : list sqlval) : list sqlval :=
  distinct (lexicon_case <$>
    sql_where (λ r, lexicon_filter r.1.1)
      (left_join (λ r noun, sql_eq (sql_upper r.1) noun)
         (left_join (λ word noun, sql_eq (capitalized word) noun) lex nouns_cap)
         nouns_upper)).

Definition lexicon_select (db : database) : result (list sqlval) :=
  lex ← full_lexicon db;
  nouns_cap ← select_column db (T "nouns") (T "noun");
  nouns_upper ← select_column db (T "nouns") (T "noun");
  Ok (outer_select lex nouns_cap nouns_upper).

(** The table that [create_table] makes of [["word"]]. *)
Definition lexicon_table : table := Table [T "word"] [T "word"] [].

(** The four sources of the lexicon, as the query reads them. *)
Definition sources (db : database) (n p a e : list sqlval) : Prop :=
  select_column db (T "nouns") (T "noun") = Ok n ∧
  select_column db (T "prepositions") (T "preposition") = Ok p ∧
  select_column db (T "autosuggestions") (T "word") = Ok a ∧
  select_column db (T "emoji_keywords") (T "word") = Ok e.

(** The merge in the words of the specification: the casing of a
    candidate is that of the noun its capitalized form matches, else that
    of the noun its upper-cased form matches, else its own; a token is
    kept when it has more than one character and none of the excluded
    ones. *)
Definition capitalize_first (w : text) : text := upper (take 1 w) ++ drop 1 w.

Definition resolve_casing (nouns : list sqlval) (w : text) : text :=
  if bool_decide (VText (capitalize_first w) ∈ nouns) then capitalize_first w
  else if bool_decide (VText (upper w) ∈ nouns) then upper w
  else w.

Definition banned : list N :=
  [c_hyphen; c_slash; c_lparen; c_rparen; c_dquote; c_ldquo; c_bdquo; c_rdquo;
   c_squote].

Definition acceptable (t : text) : Prop :=
  (1 < length t)%nat ∧ ∀ c, c ∈ banned → c ∉ t.

(** [INSERT INTO autocomplete_lexicon (word) WITH ... SELECT DISTINCT ...] *)
Definition execute_lexicon : M unit :=
  words ← query lexicon_select;
  _ ← begin;
  update (exec_insert_select (T "autocomplete_lexicon") (T "word") words).

Definition load_lexicon (lang : text) : M unit :=
  let wt := T "autocomplete_lexicon" in
  _ ← print (MsgCreatingTable lang wt);
  _ ← create_table wt [T "word"];
  _ ← execute_lexicon;
  commit.

(** **** One language, and the whole run *)

Definition database_path (iso : text) : text :=
  T "databases/" ++ str_upper iso ++ T "LanguageData.sqlite".

Definition build_language (lang : text) (wts : list text) : M unit :=
  match wts with
  | _ :: _ =>
      iso ← lift (get_language_iso lang);
      let p := database_path iso in
      over ← path_exists p;
      _ ← (if over then remove p else mret ());
      _ ← connect p;
      _ ← print (MsgDatabaseWritten lang over);
      _ ← for_each wts (load_word_type lang);
      _ ← load_lexicon lang;
      print (MsgDatabaseCreated lang)
  | [] => print (MsgSkipping lang)
  end.

Definition main (argv : list text) : M unit :=
  languages ← lift (parse_argument argv);
  let languages_update := default current_languages languages in
  d ← lift (language_word_type_dict languages_update);
  _ ← print (MsgCreatingDatabases languages_update);
  for_each d (λ entry, build_language entry.1 entry.2).

End Script.

End Load.

(** ** Concrete inputs *)

Module Examples.

Import Load.

(** A process that has not touched anything yet. *)
Definition fresh : world := World ∅ [] (Conn [] ∅ false).

Definition ex_argv : list text := [T "data_to_sqlite.py"].

Definition ex_languages : list text := [T "French"].

(** An argument that names a language the data does not have. *)
Definition ex_literal_eval (arg : text) : result pyval :=
  Ok (PList [PStr (T "Klingon")]).

Definition ex_iso (lang : text) : result text :=
  if text_eqb lang (T "French") then Ok (T "fr") else Raise ValueError.

Definition ex_path : text := T "databases/FRLanguageData.sqlite".

(** The process once the French database is opened. *)
Definition opened : world := final (connect ex_path fresh).

(** [{"chat": {"plural": "chats", "form": ""}}] *)
Definition ex_nouns : list (text * json) :=
  [(T "chat", JObj [(T "plural", JStr (T "chats")); (T "form", JStr [])])].

Definition ex_nouns_rows : list (list sqlval) :=
  [[VText (T "chat"); VText (T "chats"); VText []]].

(** The nouns table after two rows for the headword "chat". *)
Definition ex_two_chats : world :=
  final ((_ ← create_table (T "nouns") nouns_cols;
          _ ← table_insert (T "nouns") [JStr (T "chat"); JStr (T "chats"); JStr []];
          table_insert (T "nouns") [JStr (T "chat"); JStr (T "chat"); JStr []])
           opened).

(** [{"Scribe": {"plural": "Scribe", "form": "M"}}] *)
Definition ex_scribe_noun : list (text * json) :=
  [(T "Scribe", JObj [(T "plural", JStr (T "Scribe")); (T "form", JStr (T "M"))])].

(** [{"in": "", "for": ""}] *)
Definition ex_prepositions : list (text * json) :=
  [(T "in", JStr []); (T "for", JStr [])].

(** [{"scribe": ["scribes"]}] *)
Definition ex_autosuggestions : list (text * json) :=
  [(T "scribe", JList [JStr (T "scribes")])].

(** [{"aller": {"pres": "vais", "past": "allai"}, "etre": {"pres": "suis"}}] *)
Definition ex_verb_aller : list (text * json) :=
  [(T "pres", JStr (T "vais")); (T "past", JStr (T "allai"))].

Definition ex_verb_etre : list (text * json) := [(T "pres", JStr (T "suis"))].

Definition ex_verbs : list (text * json) :=
  [(T "aller", JObj ex_verb_aller); (T "etre", JObj ex_verb_etre)].

(** The files of a French directory: each word type the list names has
    its file, with the nouns given and the examples above for the rest. *)
Definition ex_listdir (wts : list text) (dir : text) : result (list text) :=
  Ok ((λ wt, wt ++ T ".json") <$> wts).

Definition ex_load_json (nouns : list (text * json)) (file : text)
    : result (list (text * json)) :=
  if text_eqb file (T "../extract_transform/French/formatted_data/nouns.json")
  then Ok nouns
  else if text_eqb file
            (T "../extract_transform/French/formatted_data/prepositions.json")
  then Ok ex_prepositions
  else if text_eqb file
            (T "../extract_transform/French/formatted_data/autosuggestions.json")
  then Ok ex_autosuggestions
  else if text_eqb file (T "../extract_transform/French/formatted_data/verbs.json")
  then Ok ex_verbs
  else Ok [].

(** A run for French with the word types [wts] and the nouns [nouns]. *)
Definition ex_run (wts : list text) (nouns : list (text * json)) : outcome unit :=
  main ex_languages ex_literal_eval (ex_listdir wts) (ex_load_json nouns) ex_iso
    upper ex_argv fresh.

Definition ex_load_empty (file : text) : result (list (text * json)) := Ok [].

(** The French database once the four sources of the lexicon are loaded. *)
Definition ex_loaded : world :=
  final (for_each source_tables
           (load_word_type (ex_load_json ex_nouns) (T "French")) opened).

Definition ex_db : database := view (conn ex_loaded).

(** [{"x": {"plural": null, "form": ""}}] *)
Definition ex_null_plural : list (text * json) :=
  [(T "x", JObj [(T "plural", JNull); (T "form", JStr [])])].

(** A directory where two names stand for the nouns. *)
Definition ex_listdir_backup (dir : text) : result (list text) :=
  Ok [T "nouns.json"; T "nouns.json.bak"; T "prepositions.json";
      T "autosuggestions.json"; T "emoji_keywords.json"].

Definition ex_run_backup : outcome unit :=
  main ex_languages ex_literal_eval ex_listdir_backup (ex_load_json ex_null_plural)
    ex_iso upper ex_argv fresh.

(** The French database once the nouns are loaded. *)
Definition ex_after_nouns : world :=
  final (load_word_type (ex_load_json ex_nouns) (T "French") (T "nouns") opened).

Definition ex_db_nouns : list sqlval := [VText (T "chat"); VText (T "Scribe")].
Definition ex_db_prepositions : list sqlval := [VText (T "in"); VText (T "for")].
Definition ex_db_autosuggestions : list sqlval := [VText (T "scribe")].

(** A directory that cannot be listed. *)
Definition ex_listdir_missing (dir : text) : result (list text) := Raise OSError.

(** The arguments [[]] and [['French']]. *)
Definition ex_literal_eval_empty (arg : text) : result pyval := Ok (PList []).

Definition ex_literal_eval_french (arg : text) : result pyval :=
  Ok (PList [PStr (T "French")]).

(** [{"a": ["b", "c", "d", "e"]}] *)
Definition ex_four_suggestions : list (text * json) :=
  [(T "a", JList [JStr (T "b"); JStr (T "c"); JStr (T "d"); JStr (T "e")])].

(** [{"chat": {"form": ""}}] *)
Definition ex_noun_without_plural : list (text * json) :=
  [(T "chat", JObj [(T "form", JStr [])])].

(** [{"smile": [{"emoji": "\U0001F600", "rank": "1"}]}] *)
Definition ex_emoji_keywords : list (text * json) :=
  [(T "smile", JList [JObj [(T "emoji", JStr [128512]); (T "rank", JStr (T "1"))]])].

(** [{"aller": {"pres": "vais", "past": "allai"},
      "venir": {"pres": "viens", "past": "vins"}}] *)
Definition ex_verbs_regular : list (text * json) :=
  [(T "aller", JObj ex_verb_aller);
   (T "venir", JObj [(T "pres", JStr (T "viens")); (T "past", JStr (T "vins"))])].

(** The French database with an empty table of autosuggestions, and with
    an empty table of nouns. *)
Definition ex_with_autosuggestions : world :=
  final (create_table (T "autosuggestions") autosuggestions_cols opened).

Definition ex_with_nouns : world :=
  final (create_table (T "nouns") nouns_cols opened).

(** "Österreich" (U+00D6) and "österreich" (U+00F6), and a database where
    the first is a noun and the second an autosuggestion. *)
Definition ex_osterreich_upper : text := 214 :: T "sterreich".
Definition ex_osterreich_lower : text := 246 :: T "sterreich".

Definition ex_db_umlaut : database :=
  <[T "nouns" :=
      Table [T "noun"; T "plural"; T "form"] [T "noun"; T "plural"; T "form"]
        [[VText ex_osterreich_upper; VNull; VText []]]]>
  (<[T "prepositions" :=
       Table [T "preposition"; T "form"] [T "preposition"; T "form"] []]>
  (<[T "autosuggestions" :=
       Table autosuggestions_cols [T "word"]
         [[VText ex_osterreich_lower; VText []; VText []; VText []]]]>
  (<[T "emoji_keywords" := Table emoji_keywords_cols [T "word"] []]> ∅))).

End Examples.

(** ** Properties *)

Module Properties.

Import Load Examples.

(** Unfolding the monad of the script. *)
Ltac run_step :=
  unfold mbind, M_bind, mret, M_ret, lift, print, begin, commit, query, update.

Lemma bind_returns {A B} (m : M A) (f : A → M B) w a w' :
  m w = Returns a w' → (m ≫= f) w = f a w'.
Proof. intros H. unfold mbind, M_bind. by rewrite H. Qed.

Lemma bind_raises {A B} (m : M A) (f : A → M B) w e w' :
  m w = Raises e w' → (m ≫= f) w = Raises e w'.
Proof. intros H. unfold mbind, M_bind. by rewrite H. Qed.

Lemma lift_ok {A} (r : result A) a w : r = Ok a → lift r w = Returns a w.
Proof. by intros ->. Qed.

Lemma lift_raise {A} (r : result A) e w : r = Raise e → lift r w = Raises e w.
Proof. by intros ->. Qed.

Lemma for_each_app {A} (l1 l2 : list A) (body : A → M unit) w :
  for_each (l1 ++ l2) body w =
  match for_each l1 body w with
  | Returns _ w' => for_each l2 body w'
  | Raises e w' => Raises e w'
  end.
Proof.
  revert w. induction l1 as [|x l1 IH]; intros w; simpl; [done|].
  unfold mbind, M_bind. destruct (body x w) as [[] w'|e w']; [apply IH|done].
Qed.

(** *** Inserting rows *)

Open Scope nat_scope.

Lemma traverse_length {A B} (f : A → result B) l ys :
  traverse f l = Ok ys → length ys = length l.
Proof.
  revert ys. induction l as [|x l IH]; intros ys; simpl.
  - by intros [= <-].
  - unfold mbind, result_bind. destruct (f x) as [y|]; [|done].
    destruct (traverse f l) as [ys'|]; [|done].
    intros [= <-]. simpl. f_equal. by apply IH.
Qed.

Lemma traverse_cons_ok {A B} (f : A → result B) x l ys :
  traverse f (x :: l) = Ok ys →
  ∃ y ys', f x = Ok y ∧ traverse f l = Ok ys' ∧ ys = y :: ys'.
Proof.
  simpl. unfold mbind, result_bind. destruct (f x) as [y|]; [|done].
  destruct (traverse f l) as [ys'|]; [|done]. intros [= <-]. eauto.
Qed.

Lemma exec_insert_ignore db tname t vals :
  db !! tname = Some t → length vals = length (columns t) →
  exec_insert Ignore tname vals db = Ok (<[tname := insert_or_ignore t vals]> db).
Proof.
  intros Ht Hlen. unfold exec_insert, insert_or_ignore. rewrite Ht.
  rewrite bool_decide_eq_true_2 by done.
  destruct (violates t vals); [|done].
  by rewrite insert_id.
Qed.

Lemma execute_insert_returns w tname t params vals :
  view (conn w) !! tname = Some t →
  traverse bind_param params = Ok vals →
  length params = length (columns t) →
  execute_insert tname params w =
  Returns () (World (files w) (stdout w)
                (Conn (path (conn w))
                      (<[tname := insert_or_ignore t vals]> (view (conn w))) true)).
Proof.
  intros Ht Hv Hlen. unfold execute_insert.
  run_step. unfold prepared_insert. simpl. rewrite Ht.
  rewrite bool_decide_eq_true_2 by done. simpl. rewrite Hv. simpl.
  rewrite (exec_insert_ignore _ _ t) by (rewrite ?(traverse_length _ _ _ Hv); done).
  done.
Qed.

Lemma columns_insert_or_ignore t r : columns (insert_or_ignore t r) = columns t.
Proof. unfold insert_or_ignore. by destruct (violates t r). Qed.

Lemma unique_on_insert_or_ignore t r : unique_on (insert_or_ignore t r) = unique_on t.
Proof. unfold insert_or_ignore. by destruct (violates t r). Qed.

Lemma columns_insert_all t rs : columns (insert_all t rs) = columns t.
Proof.
  revert t. induction rs as [|r rs IH]; intros t; [done|].
  simpl. unfold insert_all in IH. by rewrite IH, columns_insert_or_ignore.
Qed.

Lemma unique_on_insert_all t rs : unique_on (insert_all t rs) = unique_on t.
Proof.
  revert t. induction rs as [|r rs IH]; intros t; [done|].
  simpl. unfold insert_all in IH. by rewrite IH, unique_on_insert_or_ignore.
Qed.

(** The loop [for row in json_data: keys = ...; table_insert(wt, keys)]
    when every row maps to as many values as the table has columns. *)
Lemma insert_loop_returns wt row_keys ks : ∀ w t vss,
  view (conn w) !! wt = Some t →
  traverse (row_values row_keys) ks = Ok vss →
  Forall (λ vs, length vs = length (columns t)) vss →
  ∃ w', for_each ks (λ row, keys ← lift (row_keys row); table_insert wt keys) w
          = Returns () w' ∧
        files w' = files w ∧ stdout w' = stdout w ∧
        path (conn w') = path (conn w) ∧
        view (conn w') = <[wt := insert_all t vss]> (view (conn w)).
Proof.
  induction ks as [|k ks IH]; intros w t vss Ht Hvss Hlen.
  - injection Hvss as <-. exists w. simpl. by rewrite insert_id.
  - apply traverse_cons_ok in Hvss as (vs & vss' & Hk & Hrest & ->).
    apply Forall_cons in Hlen as [Hvs Hlen].
    unfold row_values in Hk. unfold mbind at 1, result_bind in Hk.
    destruct (row_keys k) as [js|] eqn:Hjs; [|done].
    set (w1 := World (files w) (stdout w)
                 (Conn (path (conn w))
                       (<[wt := insert_or_ignore t vs]> (view (conn w))) true)).
    destruct (IH w1 (insert_or_ignore t vs) vss') as (w' & Hrun & Hf & Ho & Hp & Hv).
    { simpl. by rewrite lookup_insert_eq. }
    { done. }
    { by rewrite columns_insert_or_ignore. }
    exists w'. split; [|split_and!; try done].
    + simpl. erewrite bind_returns; [exact Hrun|].
      erewrite bind_returns; [|by apply lift_ok].
      unfold table_insert. apply (execute_insert_returns _ _ t); [done..|].
      by rewrite <- (traverse_length _ _ _ Hk).
    + rewrite Hv. simpl. by rewrite insert_insert_eq.
Qed.

Lemma same_key_head a k1 b k2 :
  same_key (a :: k1) (b :: k2) = true → ∃ s, a = VText s ∧ b = VText s.
Proof.
  simpl. destruct a as [|x]; [done|]. destruct b as [|y]; [done|].
  intros [H _]%andb_prop. unfold text_eqb in H. apply bool_decide_eq_true in H.
  subst. eauto.
Qed.

Lemma violates_head t r :
  head_keyed t → violates t r = true →
  ∃ r' s, r' ∈ rows t ∧ cell r' 0 = VText s ∧ cell r 0 = VText s.
Proof.
  intros (u & us & Hu & Hi). unfold violates, key_of. rewrite Hu. simpl. rewrite Hi.
  intros (r' & Hin & Hk)%existsb_exists.
  apply same_key_head in Hk as (s & ? & ?).
  exists r', s. split_and!; [by apply list_elem_of_In|done..].
Qed.

Lemma rows_insert_all_fresh t rs :
  head_keyed t →
  NoDup ((λ r, cell r 0) <$> (rows t ++ rs)) →
  rows (insert_all t rs) = rows t ++ rs.
Proof.
  revert t. induction rs as [|r rs IH]; intros t Hk Hnd.
  - simpl. by rewrite app_nil_r.
  - assert (violates t r = false) as Hv.
    { destruct (violates t r) eqn:Hv; [|done].
      apply violates_head in Hv as (r' & s & Hin & H1 & H2); [|done].
      rewrite fmap_app, fmap_cons in Hnd.
      apply NoDup_app in Hnd as (_ & Hd & _).
      exfalso. apply (Hd (VText s)).
      - apply list_elem_of_fmap. by exists r'.
      - rewrite <- H2. left. }
    simpl. unfold insert_or_ignore. rewrite Hv.
    unfold insert_all in IH. rewrite IH.
    + simpl. by rewrite <- app_assoc.
    + destruct Hk as (u & us & ? & ?). by exists u, us.
    + simpl. by rewrite <- app_assoc.
Qed.

(** *** Dictionaries *)

Lemma contains_spec (d : dict) k : contains d k = true ↔ k ∈ keys d.
Proof.
  unfold contains. rewrite existsb_exists. split.
  - intros (x & Hin & Heq). apply bool_decide_eq_true in Heq. subst.
    by apply list_elem_of_In.
  - intros Hin. exists k. split; [by apply list_elem_of_In|].
    by apply bool_decide_eq_true.
Qed.

Lemma keys_dict_set (d : dict) k v :
  keys (dict_set d k v) = if contains d k then keys d else keys d ++ [k].
Proof.
  induction d as [|[k' v'] d IH]; [done|].
  simpl. unfold contains. simpl.
  destruct (text_eqb k k') eqn:E; simpl; [done|].
  change (fst <$> dict_set d k v) with (keys (dict_set d k v)).
  rewrite IH. unfold contains. by destruct (existsb _ _).
Qed.

Lemma NoDup_keys_dict_set (d : dict) k v :
  NoDup (keys d) → NoDup (keys (dict_set d k v)).
Proof.
  intros Hnd. rewrite keys_dict_set.
  destruct (contains d k) eqn:E; [done|].
  apply NoDup_app. split_and!; [done| |apply NoDup_singleton].
  intros x Hx ->%list_elem_of_singleton.
  apply contains_spec in Hx. congruence.
Qed.

Lemma NoDup_keys_json_load members : NoDup (keys (json_load members)).
Proof.
  unfold json_load.
  assert (∀ d : dict, NoDup (keys d) →
            NoDup (keys (foldl (λ d kv, dict_set d kv.1 kv.2) d members))) as H.
  { induction members as [|[k v] ms IH]; intros d Hd; [done|].
    simpl. apply IH. by apply NoDup_keys_dict_set. }
  apply H. constructor.
Qed.

Lemma getitem_contains (d : dict) k :
  contains d k = false → getitem d k = Raise KeyError.
Proof.
  induction d as [|[k' v] d IH]; [done|].
  unfold contains. simpl. destruct (text_eqb k k'); [done|]. apply IH.
Qed.

Lemma getitem_in (d : dict) k : k ∈ keys d → ∃ v, getitem d k = Ok v.
Proof.
  induction d as [|[k' v] d IH]; [by inversion 1|].
  simpl. intros Hin. destruct (text_eqb k k') eqn:E; [by eauto|].
  apply elem_of_cons in Hin as [->|Hin]; [|by apply IH].
  unfold text_eqb in E. by rewrite bool_decide_eq_true_2 in E.
Qed.

Lemma getitem_error (d : dict) k e : getitem d k = Raise e → e = KeyError.
Proof.
  induction d as [|[k' v] d IH]; simpl; [by intros [= <-]|].
  destruct (text_eqb k k'); [done|apply IH].
Qed.

Lemma traverse_getitem_missing (d : dict) (slots : list text) c :
  c ∈ slots → contains d c = false →
  traverse (getitem d) slots = Raise KeyError.
Proof.
  intros Hin Hc. induction slots as [|s slots IH]; [by inversion Hin|].
  simpl. unfold mbind, result_bind.
  destruct (getitem d s) as [v|e] eqn:E.
  - apply elem_of_cons in Hin as [->|Hin].
    + rewrite getitem_contains in E; done.
    + by rewrite IH.
  - f_equal. by apply getitem_error in E.
Qed.

Lemma slots_raise_key_error m (slots : list text) c :
  c ∈ slots → contains (json_load m) c = false →
  traverse (λ col_name, subscript (JObj m) col_name) slots = Raise KeyError.
Proof. apply traverse_getitem_missing. Qed.

Lemma verbs_keys_missing_slot cols d row m c :
  getitem d row = Ok (JObj m) → c ∈ drop 1 cols →
  contains (json_load m) c = false →
  verbs_keys cols d row = Raise KeyError.
Proof.
  intros Hrow Hin Hc. unfold verbs_keys.
  assert (traverse (λ col_name, e ← getitem d row; subscript e col_name) (drop 1 cols)
          = traverse (λ col_name, subscript (JObj m) col_name) (drop 1 cols)) as ->.
  { f_equal. by rewrite Hrow. }
  by rewrite (slots_raise_key_error m _ c).
Qed.

Lemma verbs_cols_first d k0 ks m :
  keys d = k0 :: ks → getitem d k0 = Ok (JObj m) →
  verbs_cols d = Ok (T "verb" :: keys (json_load m)).
Proof. intros Hk Hg. unfold verbs_cols. rewrite Hk. simpl. by rewrite Hg. Qed.

Lemma verbs_keys_complete cols d row e :
  getitem d row = Ok e →
  (∀ c, c ∈ drop 1 cols → ∃ v, subscript e c = Ok v) →
  ∃ forms, verbs_keys cols d row = Ok (JStr row :: forms) ∧
           traverse (subscript e) (drop 1 cols) = Ok forms ∧
           length (JStr row :: forms) = length (T "verb" :: drop 1 cols).
Proof.
  intros Hrow Hall. unfold verbs_keys.
  assert (traverse (λ col_name, e ← getitem d row; subscript e col_name) (drop 1 cols)
          = traverse (subscript e) (drop 1 cols)) as ->.
  { f_equal. by rewrite Hrow. }
  assert (∃ forms, traverse (subscript e) (drop 1 cols) = Ok forms) as [forms Hf].
  { induction (drop 1 cols) as [|c cs IH]; [by eexists|].
    destruct (Hall c) as [v Hv]; [left|].
    destruct IH as [fs Hfs]; [intros; apply Hall; by right|].
    exists (v :: fs). simpl. by rewrite Hv, Hfs. }
  exists forms. rewrite Hf. split_and!; [done..|].
  simpl. f_equal. by apply traverse_length in Hf.
Qed.

(** *** Loops *)

Lemma for_each_final {A} (P : world → Prop) (body : A → M unit) l w :
  (∀ x w, P w → P (final (body x w))) → P w → P (final (for_each l body w)).
Proof.
  intros Hbody. revert w. induction l as [|x l IH]; intros w Hw; [done|].
  simpl. unfold mbind, M_bind. specialize (Hbody x w Hw).
  destruct (body x w) as [[] w'|e w']; [by apply IH|done].
Qed.

Lemma for_each_raises_at {A} (body : A → M unit) l x w :
  x ∈ l → (∀ w, returned (body x w) = false) → returned (for_each l body w) = false.
Proof.
  intros Hin Hx. revert w. induction l as [|y l IH]; intros w; [by inversion Hin|].
  simpl. unfold mbind, M_bind.
  destruct (body y w) as [[] w'|e w'] eqn:E; [|done].
  apply elem_of_cons in Hin as [->|Hin]; [|by apply IH].
  specialize (Hx w). by rewrite E in Hx.
Qed.

Lemma execute_insert_same_files tname params w :
  same_files w (final (execute_insert tname params w)).
Proof.
  unfold execute_insert, same_files. run_step.
  destruct (prepared_insert _ _ _); [|done]. simpl.
  destruct (traverse bind_param params); [|done]. simpl.
  by destruct (exec_insert _ _ _ _).
Qed.

Lemma insert_row_same_files wt (r : result (list json)) w :
  same_files w (final ((keys ← lift r; table_insert wt keys) w)).
Proof.
  destruct r as [ks|e]; [|done].
  erewrite bind_returns; [|done]. apply execute_insert_same_files.
Qed.

Lemma insert_loop_same_files wt (row_keys : text → result (list json)) ks w :
  same_files w
    (final (for_each ks (λ row, keys ← lift (row_keys row); table_insert wt keys) w)).
Proof.
  apply (for_each_final (same_files w)); [|done].
  intros x w' [Hf Hp].
  destruct (insert_row_same_files wt (row_keys x) w') as [Hf' Hp'].
  split; congruence.
Qed.

(** *** Creating tables *)

Lemma create_table_statement_name wt cols st :
  create_table_statement wt cols = Ok st → ct_name st = wt.
Proof.
  unfold create_table_statement. destruct cols as [|c0 cols]; [done|].
  by intros [= <-].
Qed.

Lemma create_table_returns wt cols t w :
  table_definition wt cols = Ok t →
  create_table wt cols w = Returns () (created wt t w).
Proof.
  unfold table_definition, create_table.
  destruct (create_table_statement wt cols) as [st|e] eqn:Hst; [|done].
  cbn [mbind result_bind].
  destruct (parse_create st) as [t0|] eqn:Hparse; [|done].
  cbn [mbind result_bind]. intros Ht.
  assert (t0 = t) as ->.
  { unfold check_table in Ht.
    destruct (negb (distinct_names _)); [done|].
    destruct (negb (forallb _ _)); [done|]. by injection Ht. }
  erewrite bind_returns; [|by apply lift_ok].
  unfold execute_create, exec_create. rewrite Hparse.
  rewrite (create_table_statement_name _ _ _ Hst).
  unfold created. cbn [mbind result_bind].
  destruct (view (conn w) !! wt); [by destruct (in_txn (conn w))|].
  rewrite Ht. by destruct (in_txn (conn w)).
Qed.

(** [create_table] raises in the world it started in, or returns with
    the table added unless it was there. *)
Lemma create_table_outcome wt cols w :
  (∃ e, create_table wt cols w = Raises e w) ∨
  (∃ t, create_table wt cols w = Returns () (created wt t w)).
Proof.
  unfold create_table.
  destruct (create_table_statement wt cols) as [st|e] eqn:Hst;
    [|left; exists e; by apply bind_raises, lift_raise].
  erewrite bind_returns; [|by apply lift_ok].
  unfold execute_create, exec_create.
  rewrite (create_table_statement_name _ _ _ Hst).
  destruct (parse_create st) as [t|e]; [|left; by exists e].
  cbn [mbind result_bind]. unfold created.
  destruct (view (conn w) !! wt).
  - right. exists t. by destruct (in_txn (conn w)).
  - destruct (check_table t) as [t'|e]; [|left; by exists e].
    right. exists t'. cbn [mbind result_bind]. by destruct (in_txn (conn w)).
Qed.

Lemma disk_created_other wt t w tname :
  consistent w → tname ≠ wt →
  disk (created wt t w) !! tname = disk w !! tname.
Proof.
  intros [Htxn Hdisk] Hne. unfold disk, created. simpl. rewrite Htxn.
  rewrite lookup_insert_eq, Hdisk. simpl.
  destruct (view (conn w) !! wt); [done|]. by rewrite lookup_insert_ne.
Qed.

Lemma disk_same_files w w' : same_files w w' → disk w' = disk w.
Proof. intros [Hf Hp]. unfold disk. by rewrite Hf, Hp. Qed.

Lemma load_verbs_missing_slot d cols row m c w :
  verbs_cols d = Ok cols →
  row ∈ keys d →
  getitem d row = Ok (JObj m) →
  c ∈ drop 1 cols →
  contains (json_load m) c = false →
  consistent w →
  returned (load_verbs d w) = false ∧
  ∀ tname, tname ≠ T "verbs" →
    disk (final (load_verbs d w)) !! tname = disk w !! tname.
Proof.
  intros Hcols Hrow Hget Hc Hmiss Hw. unfold load_verbs.
  erewrite bind_returns; [|by apply lift_ok].
  destruct (create_table_outcome (T "verbs") cols w) as [[e He]|[t Ht]].
  - erewrite bind_raises; [|exact He]. by split.
  - erewrite bind_returns; [|exact Ht].
    set (w1 := created (T "verbs") t w).
    set (loop := for_each (keys d) _).
    assert (returned (loop w1) = false) as Hret.
    { apply (for_each_raises_at _ _ row); [done|]. intros w'.
      erewrite bind_raises; [done|].
      apply lift_raise. by apply (verbs_keys_missing_slot _ _ _ m c). }
    pose proof (insert_loop_same_files (T "verbs") (verbs_keys cols d) (keys d) w1)
      as Hsame.
    fold loop in Hsame. unfold mbind, M_bind.
    destruct (loop w1) as [[] w2|e w2]; [done|]. simpl in *.
    split; [done|]. intros tname Hne.
    rewrite (disk_same_files _ _ Hsame). by apply disk_created_other.
Qed.

(** *** nouns *)

Lemma nouns_table_definition :
  table_definition (T "nouns") nouns_cols = Ok nouns_table.
Proof. vm_compute. reflexivity. Qed.

Lemma nouns_table_head_keyed rs :
  head_keyed (Table (columns nouns_table) (unique_on nouns_table) rs).
Proof. exists (T "noun"), [T "plural"; T "form"]. split; reflexivity. Qed.

Lemma nouns_row_shape d k vs :
  row_values (nouns_keys d) k = Ok vs → ∃ p f, vs = [VText k; p; f].
Proof.
  unfold row_values, nouns_keys. unfold mbind, result_bind.
  destruct (getitem d k) as [e|]; [|done].
  destruct (subscript e (T "plural")) as [p|]; [|done].
  destruct (subscript e (T "form")) as [f|]; [|done].
  simpl. unfold mbind, result_bind.
  destruct (bind_param p) as [p'|]; [|done].
  destruct (bind_param f) as [f'|]; [|done].
  intros [= <-]. eauto.
Qed.

Lemma nouns_rows_heads d ks vss :
  traverse (row_values (nouns_keys d)) ks = Ok vss →
  (λ r, cell r 0) <$> vss = VText <$> ks ∧
  Forall (λ vs, length vs = 3) vss.
Proof.
  revert vss. induction ks as [|k ks IH]; intros vss H.
  - injection H as <-. by split.
  - apply traverse_cons_ok in H as (vs & vss' & Hk & Hrest & ->).
    apply nouns_row_shape in Hk as (p & f & ->).
    destruct (IH _ Hrest) as [IH1 IH2].
    split; [simpl; by f_equal|by constructor].
Qed.

Lemma load_nouns_returns lang d w vss :
  view (conn w) !! T "nouns" = None →
  NoDup (keys d) →
  traverse (row_values (nouns_keys d)) (keys d) = Ok vss →
  ∃ w', load_nouns lang d w = Returns () w' ∧
        stdout w' = stdout w ∧
        path (conn w') = path (conn w) ∧
        in_txn (conn w') = false ∧
        files w' = <[path (conn w) := view (conn w')]> (files w) ∧
        view (conn w') =
          <[T "nouns" :=
              Table (columns nouns_table) (unique_on nouns_table)
                (vss ++ if seeds_scribe lang d then [scribe_row] else [])]>
            (view (conn w)).
Proof.
  intros Hnone Hnd Hvss. unfold load_nouns.
  erewrite bind_returns; [|apply create_table_returns, nouns_table_definition].
  set (w1 := created (T "nouns") nouns_table w).
  assert (view (conn w1) !! T "nouns" = Some nouns_table) as Hw1.
  { unfold w1, created. simpl. rewrite Hnone. by rewrite lookup_insert_eq. }
  destruct (nouns_rows_heads _ _ _ Hvss) as [Hheads Hlens].
  destruct (insert_loop_returns (T "nouns") (nouns_keys d) (keys d) w1 nouns_table vss)
    as (w2 & Hrun & Hf2 & Ho2 & Hp2 & Hv2); [done..|].
  erewrite bind_returns; [|exact Hrun].
  assert (NoDup ((λ r, cell r 0) <$>
            (vss ++ if seeds_scribe lang d then [scribe_row] else []))) as Hnd'.
  { rewrite fmap_app, Hheads. apply NoDup_app. split_and!.
    - apply NoDup_fmap; [|done]. by intros ?? [= ->].
    - intros x Hx Hx'. destruct (seeds_scribe lang d) eqn:Hs; [|by inversion Hx'].
      apply list_elem_of_singleton in Hx'. subst x.
      apply list_elem_of_fmap in Hx as (k & [= <-] & Hk).
      apply contains_spec in Hk. unfold seeds_scribe in Hs.
      rewrite Hk in Hs. done.
    - destruct (seeds_scribe lang d); simpl; [apply NoDup_singleton|constructor]. }
  assert (rows (insert_all nouns_table
            (vss ++ if seeds_scribe lang d then [scribe_row] else []))
          = vss ++ if seeds_scribe lang d then [scribe_row] else []) as Hrows.
  { rewrite (rows_insert_all_fresh nouns_table); [done| |done].
    apply (nouns_table_head_keyed []). }
  assert (view (conn w2) !! T "nouns" = Some (insert_all nouns_table vss)) as Hw2.
  { rewrite Hv2. by rewrite lookup_insert_eq. }
  destruct (seeds_scribe lang d) eqn:Hs.
  - erewrite bind_returns;
      [|unfold table_insert;
        apply (execute_insert_returns w2 _ (insert_all nouns_table vss) _ scribe_row);
        [done|reflexivity|by rewrite columns_insert_all]].
    eexists. split; [reflexivity|]. simpl.
    split_and!; try done.
    + rewrite Hf2, Hp2. unfold w1, created. simpl.
      destruct (in_txn (conn w)); [done|by rewrite insert_insert_eq].
    + rewrite Hv2. rewrite insert_insert_eq. unfold w1, created. simpl.
      rewrite Hnone. rewrite insert_insert_eq. f_equal.
      unfold insert_all in *. rewrite foldl_app in Hrows. simpl in Hrows.
      destruct (insert_or_ignore _ scribe_row) as [c u r] eqn:E. simpl in Hrows.
      assert (c = columns nouns_table).
      { change c with (columns (Table c u r)). rewrite <- E.
        rewrite columns_insert_or_ignore. apply (columns_insert_all nouns_table). }
      assert (u = unique_on nouns_table).
      { change u with (unique_on (Table c u r)). rewrite <- E.
        rewrite unique_on_insert_or_ignore. apply (unique_on_insert_all nouns_table). }
      by subst.
  - erewrite bind_returns; [|reflexivity].
    eexists. split; [reflexivity|]. simpl.
    split_and!; try done.
    + rewrite Hf2, Hp2. unfold w1, created. simpl.
      destruct (in_txn (conn w)); [done|by rewrite insert_insert_eq].
    + rewrite Hv2. unfold w1, created. simpl.
      rewrite Hnone. rewrite insert_insert_eq. f_equal.
      rewrite app_nil_r in Hrows |- *.
      destruct (insert_all nouns_table vss) as [c u r] eqn:E. simpl in Hrows.
      assert (c = columns nouns_table).
      { change c with (columns (Table c u r)). rewrite <- E.
        apply (columns_insert_all nouns_table). }
      assert (u = unique_on nouns_table).
      { change u with (unique_on (Table c u r)). rewrite <- E.
        apply (unique_on_insert_all nouns_table). }
      by subst.
Qed.

(** *** The lexicon query *)

Lemma like_rest_true k s : (∀ s, k s = true) → like_rest k s = true.
Proof. intros Hk. destruct s; simpl; by rewrite Hk. Qed.

Lemma like_percent s : like [c_percent] s = true.
Proof.
  change (like_rest (like []) s = true).
  induction s as [|d s IH]; [done|]. simpl in *. by rewrite IH.
Qed.

Lemma like_contains c s :
  c ≠ c_percent → c ≠ c_underscore →
  like [c_percent; c; c_percent] s
  = existsb (λ d, (lower_char c =? lower_char d)%N) s.
Proof.
  intros Hp Hu.
  apply N.eqb_neq in Hp. apply N.eqb_neq in Hu.
  change (like_rest (like [c; c_percent]) s
          = existsb (λ d, (lower_char c =? lower_char d)%N) s).
  induction s as [|d s IH].
  - simpl. by rewrite Hp.
  - cbn [existsb like_rest]. rewrite IH. f_equal.
    cbn [like]. rewrite Hp, Hu. cbn [orb].
    pose proof (like_percent s) as Hs. cbn [like] in Hs.
    change (c_percent =? c_percent)%N with true in *. cbv iota in *.
    by rewrite Hs, andb_true_r.
Qed.

Lemma is_lower_spec c : is_lower c = true ↔ (97 ≤ c ∧ c ≤ 122)%N.
Proof. unfold is_lower. rewrite andb_true_iff, !N.leb_le. done. Qed.

Lemma is_upper_spec c : is_upper c = true ↔ (65 ≤ c ∧ c ≤ 90)%N.
Proof. unfold is_upper. rewrite andb_true_iff, !N.leb_le. done. Qed.

Lemma plain_spec c : plain c ↔ ¬ (97 ≤ c ∧ c ≤ 122)%N ∧ ¬ (65 ≤ c ∧ c ≤ 90)%N.
Proof.
  unfold plain. rewrite <- is_lower_spec, <- is_upper_spec.
  destruct (is_lower c), (is_upper c); naive_solver.
Qed.

Lemma lower_char_plain c d : plain c → (lower_char c =? lower_char d)%N = (c =? d)%N.
Proof.
  intros Hc. pose proof Hc as [Hl Hu]. apply plain_spec in Hc.
  unfold lower_char. rewrite Hu.
  destruct (is_upper d) eqn:Hd; [|done].
  apply is_upper_spec in Hd.
  destruct (N.eqb_spec c (d + 32)%N) as [H1|H1];
    destruct (N.eqb_spec c d) as [H2|H2]; try done; lia.
Qed.

Lemma upper_char_plain c d : plain c → upper_char d = c ↔ d = c.
Proof.
  intros Hc. pose proof Hc as [Hl Hu]. apply plain_spec in Hc.
  unfold upper_char.
  destruct (is_lower d) eqn:Hd; [|done].
  apply is_lower_spec in Hd. split; intros; subst; lia.
Qed.

Lemma like_contains_plain c s :
  plain c → c ≠ c_percent → c ≠ c_underscore →
  like [c_percent; c; c_percent] s = bool_decide (c ∈ s).
Proof.
  intros Hc Hp Hu. rewrite like_contains by done.
  induction s as [|d s IH]; [done|].
  simpl. rewrite IH, lower_char_plain by done.
  destruct (N.eqb_spec c d) as [->|Hne].
  - simpl. symmetry. apply bool_decide_eq_true. left.
  - simpl. apply bool_decide_ext. rewrite elem_of_cons. naive_solver.
Qed.

Lemma banned_plain c : c ∈ banned → plain c ∧ c ≠ c_percent ∧ c ≠ c_underscore.
Proof.
  unfold banned. rewrite !elem_of_cons, elem_of_nil.
  intros [->|[->|[->|[->|[->|[->|[->|[->|[->|[]]]]]]]]]]; by vm_compute.
Qed.

Lemma sql_and_some a b : sql_and (Some a) (Some b) = Some (a && b).
Proof. by destruct a, b. Qed.

Lemma sql_not_like_contains c t :
  c ∈ banned →
  sql_not_like (VText t) [c_percent; c; c_percent] = Some (negb (bool_decide (c ∈ t))).
Proof.
  intros (Hp & H1 & H2)%banned_plain. unfold sql_not_like, sql_like, sql_not.
  cbn [fmap option_fmap option_map]. by rewrite like_contains_plain.
Qed.

Lemma lexicon_filter_text t :
  lexicon_filter (VText t)
  = Some (bool_decide (1 < length t)
          && forallb (λ c, negb (bool_decide (c ∈ t))) banned).
Proof.
  unfold lexicon_filter, length_gt.
  rewrite !sql_not_like_contains by (apply (bool_decide_unpack _); by vm_compute).
  rewrite !sql_and_some. unfold banned. cbn [forallb]. by rewrite andb_true_r.
Qed.

Lemma lexicon_filter_acceptable t :
  holds (lexicon_filter (VText t)) = true ↔ acceptable t.
Proof.
  rewrite lexicon_filter_text. change (holds (Some ?b)) with b. unfold acceptable.
  rewrite andb_true_iff, bool_decide_eq_true, forallb_forall.
  apply and_iff_compat_l. split.
  - intros H c Hc%list_elem_of_In. specialize (H c Hc).
    apply negb_true_iff in H. by apply bool_decide_eq_false in H.
  - intros H c Hc%list_elem_of_In. apply negb_true_iff, bool_decide_eq_false.
    by apply H.
Qed.

Lemma elem_of_sql_where {A} (c : A → option bool) l x :
  x ∈ sql_where c l ↔ x ∈ l ∧ holds (c x) = true.
Proof. unfold sql_where. by rewrite !list_elem_of_In, filter_In. Qed.

Lemma elem_of_left_join {A} (on : A → sqlval → option bool) l r a b :
  (a, b) ∈ left_join on l r ↔
  a ∈ l ∧ ((b ∈ r ∧ holds (on a b) = true) ∨
           (b = VNull ∧ ∀ b', b' ∈ r → holds (on a b') = false)).
Proof.
  unfold left_join. rewrite list_elem_of_bind. split.
  - intros (a' & Hin & Ha').
    destruct (List.filter _ r) as [|m ms] eqn:E.
    + apply list_elem_of_singleton in Hin as [= -> ->]. split; [done|]. right.
      split; [done|]. intros b' Hb'.
      destruct (holds (on a' b')) eqn:Hh; [|done].
      assert (b' ∈ List.filter (λ b, holds (on a' b)) r) as Hf.
      { apply list_elem_of_In, filter_In. by rewrite <- list_elem_of_In. }
      rewrite E in Hf. by inversion Hf.
    + apply list_elem_of_fmap in Hin as (b' & [= -> ->] & Hb').
      rewrite <- E in Hb'. apply list_elem_of_In, filter_In in Hb' as [H1 H2].
      split; [done|]. left. by rewrite list_elem_of_In.
  - intros [Ha [[Hb Hh]|[-> Hnone]]]; exists a; (split; [|done]).
    + assert (b ∈ List.filter (λ b, holds (on a b)) r) as Hf.
      { apply list_elem_of_In, filter_In. by rewrite <- list_elem_of_In. }
      destruct (List.filter _ r) as [|m ms]; [by inversion Hf|].
      apply list_elem_of_fmap. by exists b.
    + destruct (List.filter _ r) as [|m ms] eqn:E; [apply list_elem_of_singleton; done|].
      assert (m ∈ List.filter (λ b, holds (on a b)) r) as Hf by (rewrite E; left).
      apply list_elem_of_In, filter_In in Hf as [H1 H2].
      apply list_elem_of_In in H1. rewrite (Hnone m H1) in H2. done.
Qed.

Lemma left_join_total {A} (on : A → sqlval → option bool) l r a :
  a ∈ l → ∃ b, (a, b) ∈ left_join on l r.
Proof.
  intros Ha.
  destruct (List.filter (λ b, holds (on a b)) r) as [|m ms] eqn:E.
  - exists VNull. apply elem_of_left_join. split; [done|]. right. split; [done|].
    intros b' Hb'. destruct (holds (on a b')) eqn:Hh; [|done].
    assert (b' ∈ List.filter (λ b, holds (on a b)) r) as Hf.
    { apply list_elem_of_In, filter_In. by rewrite <- list_elem_of_In. }
    rewrite E in Hf. by inversion Hf.
  - exists m. apply elem_of_left_join. split; [done|]. left.
    assert (m ∈ List.filter (λ b, holds (on a b)) r) as Hf by (rewrite E; left).
    apply list_elem_of_In, filter_In in Hf as [H1 H2].
    by rewrite list_elem_of_In.
Qed.

Lemma holds_sql_eq_text x v : holds (sql_eq (VText x) v) = true ↔ v = VText x.
Proof.
  destruct v as [|y]; simpl; [done|]. unfold text_eqb.
  rewrite bool_decide_eq_true. naive_solver.
Qed.

Lemma capitalized_text t : capitalized (VText t) = VText (capitalize_first t).
Proof. reflexivity. Qed.

(** The [CASE] on a row of the two joins is the resolution of the spec. *)
Lemma lexicon_case_resolves n cs t nc nu :
  (VText t, nc, nu) ∈
    left_join (λ r b, sql_eq (sql_upper r.1) b)
      (left_join (λ word b, sql_eq (capitalized word) b) cs n) n →
  lexicon_case (VText t, nc, nu) = VText (resolve_casing n t).
Proof.
  intros [[Hw Hnc]%elem_of_left_join Hnu]%elem_of_left_join.
  unfold lexicon_case, resolve_casing. cbn [fst sql_upper] in Hnu.
  rewrite capitalized_text in *.
  destruct Hnc as [[Hin Hh]|[-> Hnone]].
  - rewrite Hh. apply holds_sql_eq_text in Hh as ->.
    by rewrite bool_decide_eq_true_2.
  - cbn [sql_eq holds default].
    rewrite bool_decide_eq_false_2; last first.
    { intros Hin. specialize (Hnone _ Hin).
      by rewrite (proj2 (holds_sql_eq_text _ _) eq_refl) in Hnone. }
    destruct Hnu as [[Hin Hh]|[-> Hnone']].
    + cbn [sql_upper]. rewrite Hh. apply holds_sql_eq_text in Hh as ->.
      by rewrite bool_decide_eq_true_2.
    + cbn [sql_upper sql_eq holds default].
      rewrite bool_decide_eq_false_2; [done|].
      intros Hin. specialize (Hnone' _ Hin). cbn [fst sql_upper] in Hnone'.
      by rewrite (proj2 (holds_sql_eq_text _ _) eq_refl) in Hnone'.
Qed.

Lemma full_lexicon_sources db n p a e :
  sources db n p a e → full_lexicon db = Ok (candidates n p a e).
Proof.
  intros (Hn & Hp & Ha & He). unfold full_lexicon.
  rewrite Hn, Hp, Ha, He. reflexivity.
Qed.

Lemma lexicon_select_sources db n p a e :
  sources db n p a e →
  lexicon_select db = Ok (outer_select (candidates n p a e) n n).
Proof.
  intros Hs. unfold lexicon_select.
  rewrite (full_lexicon_sources _ _ _ _ _ Hs).
  destruct Hs as (Hn & _). cbn [mbind result_bind]. rewrite Hn. reflexivity.
Qed.

Lemma holds_lexicon_filter_text v :
  holds (lexicon_filter v) = true → ∃ t, v = VText t.
Proof. destruct v; [done|eauto]. Qed.

Lemma elem_of_outer_select n cs v :
  v ∈ outer_select cs n n ↔
  ∃ t, VText t ∈ cs ∧ acceptable t ∧ v = VText (resolve_casing n t).
Proof.
  unfold outer_select, distinct. rewrite elem_of_remove_dups, list_elem_of_fmap. split.
  - intros ([[w nc] nu] & -> & [Hin Hf]%elem_of_sql_where). simpl in Hf.
    destruct (holds_lexicon_filter_text _ Hf) as [t ->].
    exists t. split_and!.
    + by apply elem_of_left_join in Hin as [[? _]%elem_of_left_join _].
    + by apply lexicon_filter_acceptable.
    + by apply lexicon_case_resolves with (cs := cs).
  - intros (t & Hin & Hacc & ->).
    destruct (left_join_total (λ word b, sql_eq (capitalized word) b) cs n (VText t) Hin)
      as [nc Hnc].
    destruct (left_join_total (λ (r : sqlval * sqlval) b, sql_eq (sql_upper r.1) b)
                _ n _ Hnc) as [nu Hnu].
    exists (VText t, nc, nu). split.
    + symmetry. by apply lexicon_case_resolves with (cs := cs).
    + apply elem_of_sql_where. split; [done|]. simpl. by apply lexicon_filter_acceptable.
Qed.

Lemma elem_of_candidates n p a e w :
  VText w ∈ candidates n p a e ↔
  (VText w ∈ n ∧ 2 < length w) ∨
  (VText w ∈ p ∧ 2 < length w) ∨
  (∃ x, VText x ∈ a ∧ 2 < length x ∧ w = lower x) ∨
  VText w ∈ e.
Proof.
  unfold candidates, union, distinct. rewrite elem_of_remove_dups. simpl.
  rewrite !elem_of_app, elem_of_remove_dups, list_elem_of_fmap, elem_of_nil.
  rewrite !elem_of_sql_where. simpl. rewrite bool_decide_eq_true.
  split.
  - intros [?|[?|[(x & Hx & Hin)|[?|[]]]]];
      [by left|by right; left| |by right; right; right].
    right; right; left.
    apply elem_of_sql_where in Hin as [Hin Hlen].
    destruct x as [|x]; [done|]. injection Hx as ->.
    exists x. split_and!; [done| |done]. simpl in Hlen.
    by apply bool_decide_eq_true in Hlen.
  - intros [?|[?|[(x & Hin & Hlen & ->)|?]]];
      [by left|by right; left| |by right; right; right; left].
    right; right; left. exists (VText x). split; [done|].
    apply elem_of_sql_where. split; [done|]. simpl. by apply bool_decide_eq_true.
Qed.

(** *** Casing does not change what the filter looks at *)

Lemma length_upper s : length (upper s) = length s.
Proof. unfold upper. by rewrite length_fmap. Qed.

Lemma length_capitalize_first t : length (capitalize_first t) = length t.
Proof.
  unfold capitalize_first. rewrite length_app, length_upper.
  rewrite <- length_app. by rewrite take_drop.
Qed.

Lemma elem_of_upper_plain c s : plain c → c ∈ upper s ↔ c ∈ s.
Proof.
  intros Hc. unfold upper. rewrite list_elem_of_fmap. split.
  - intros (d & Hd & Hin). symmetry in Hd.
    apply (upper_char_plain c d Hc) in Hd. by subst.
  - intros Hin. exists c. split; [|done]. symmetry.
    by apply (upper_char_plain c c Hc).
Qed.

Lemma elem_of_capitalize_first_plain c t : plain c → c ∈ capitalize_first t ↔ c ∈ t.
Proof.
  intros Hc. unfold capitalize_first.
  rewrite elem_of_app, elem_of_upper_plain by done.
  rewrite <- elem_of_app. by rewrite take_drop.
Qed.

Lemma acceptable_resolve_casing n t :
  acceptable (resolve_casing n t) ↔ acceptable t.
Proof.
  unfold resolve_casing, acceptable.
  destruct (bool_decide _); [|destruct (bool_decide _)]; [| |done].
  - rewrite length_capitalize_first. apply and_iff_compat_l.
    split; intros H c Hc; specialize (H c Hc);
      destruct (banned_plain c Hc) as [Hp _];
      by rewrite elem_of_capitalize_first_plain in *.
  - rewrite length_upper. apply and_iff_compat_l.
    split; intros H c Hc; specialize (H c Hc);
      destruct (banned_plain c Hc) as [Hp _];
      by rewrite elem_of_upper_plain in *.
Qed.

(** *** A missing source *)

Lemma select_column_error db tname col e :
  select_column db tname col = Raise e → e = OperationalError.
Proof.
  unfold select_column. destruct (db !! tname) as [t|]; [|by intros [= <-]].
  destruct (col_index col (columns t)); [done|by intros [= <-]].
Qed.

Lemma select_column_missing db tname col :
  db !! tname = None → select_column db tname col = Raise OperationalError.
Proof. unfold select_column. by intros ->. Qed.

Lemma lexicon_select_missing db tname :
  tname ∈ source_tables → db !! tname = None →
  lexicon_select db = Raise OperationalError.
Proof.
  intros Hin Hnone. unfold lexicon_select, full_lexicon.
  destruct (select_column db (T "nouns") (T "noun")) as [n|en] eqn:En;
    [|by rewrite (select_column_error _ _ _ _ En)].
  destruct (select_column db (T "prepositions") (T "preposition")) as [p|ep] eqn:Ep;
    [|by rewrite (select_column_error _ _ _ _ Ep)].
  destruct (select_column db (T "autosuggestions") (T "word")) as [a|ea] eqn:Ea;
    [|by rewrite (select_column_error _ _ _ _ Ea)].
  destruct (select_column db (T "emoji_keywords") (T "word")) as [e|ee] eqn:Ee;
    [|by rewrite (select_column_error _ _ _ _ Ee)].
  exfalso. unfold source_tables in Hin.
  rewrite !elem_of_cons, elem_of_nil in Hin.
  destruct Hin as [->|[->|[->|[->|[]]]]];
    [rewrite select_column_missing in En
    |rewrite select_column_missing in Ep
    |rewrite select_column_missing in Ea
    |rewrite select_column_missing in Ee]; done.
Qed.

Lemma lexicon_table_definition :
  table_definition (T "autocomplete_lexicon") [T "word"] = Ok lexicon_table.
Proof. vm_compute. reflexivity. Qed.

Lemma source_not_lexicon tname :
  tname ∈ source_tables → T "autocomplete_lexicon" ≠ tname.
Proof.
  unfold source_tables. rewrite !elem_of_cons, elem_of_nil.
  intros [->|[->|[->|[->|[]]]]]; by vm_compute.
Qed.

Lemma select_column_created db t tname col :
  tname ∈ source_tables →
  select_column (<[T "autocomplete_lexicon" := t]> db) tname col
  = select_column db tname col.
Proof.
  intros Hin. unfold select_column.
  by rewrite lookup_insert_ne by by apply source_not_lexicon.
Qed.

Lemma sources_created db t n p a e :
  sources db n p a e → sources (<[T "autocomplete_lexicon" := t]> db) n p a e.
Proof.
  intros (Hn & Hp & Ha & He). unfold sources.
  rewrite !select_column_created by (unfold source_tables; set_solver). done.
Qed.

(** *** Storing the words *)

Lemma exec_insert_fresh oc db tname t vals :
  db !! tname = Some t → length vals = length (columns t) →
  violates t vals = false →
  exec_insert oc tname vals db = Ok (<[tname := add_row t vals]> db).
Proof.
  intros Ht Hlen Hv. unfold exec_insert. rewrite Ht, Hv.
  by rewrite bool_decide_eq_true_2.
Qed.

Lemma insert_lexicon_rows vals : ∀ db rows0,
  db !! T "autocomplete_lexicon" = Some (Table [T "word"] [T "word"] rows0) →
  NoDup (((λ r, cell r 0) <$> rows0) ++ vals) →
  foldM (λ db v,
           exec_insert Abort (T "autocomplete_lexicon")
             ((λ c, if ieqb (T "word") c then v else VNull) <$> [T "word"]) db)
        db vals
  = Ok (<[T "autocomplete_lexicon" :=
            Table [T "word"] [T "word"] (rows0 ++ ((λ v, [v]) <$> vals))]> db).
Proof.
  induction vals as [|v vals IH]; intros db rows0 Hdb Hnd.
  - simpl. by rewrite app_nil_r, insert_id.
  - cbn [foldM].
    change ((λ c, if ieqb (T "word") c then v else VNull) <$> [T "word"]) with [v].
    assert (violates (Table [T "word"] [T "word"] rows0) [v] = false) as Hv.
    { destruct (violates _ [v]) eqn:Hv; [|done].
      exfalso. apply violates_head in Hv as (r' & s & Hin & H1 & H2).
      - apply NoDup_app in Hnd as (_ & Hd & _).
        apply (Hd (VText s)).
        + apply list_elem_of_fmap. by exists r'.
        + change (cell [v] 0) with v in H2. subst v. left.
      - by exists (T "word"), []. }
    rewrite (exec_insert_fresh Abort db _ (Table [T "word"] [T "word"] rows0) [v]
               Hdb eq_refl Hv).
    cbn [mbind result_bind]. unfold add_row. cbn [columns unique_on rows].
    rewrite IH with (rows0 := rows0 ++ [[v]]).
    + rewrite insert_insert_eq. cbn [fmap list_fmap]. by rewrite <- app_assoc.
    + by rewrite lookup_insert_eq.
    + rewrite fmap_app. cbn [fmap list_fmap]. change (cell [v] 0) with v.
      by rewrite <- app_assoc.
Qed.

Lemma exec_insert_select_lexicon db vals :
  db !! T "autocomplete_lexicon" = Some lexicon_table →
  NoDup vals →
  exec_insert_select (T "autocomplete_lexicon") (T "word") vals db
  = Ok (<[T "autocomplete_lexicon" :=
            Table [T "word"] [T "word"] ((λ v, [v]) <$> vals)]> db).
Proof.
  intros Hdb Hnd. unfold exec_insert_select. rewrite Hdb.
  change (has_column (columns lexicon_table) (T "word")) with true. cbv iota.
  by apply (insert_lexicon_rows vals db []).
Qed.

Lemma load_lexicon_missing lang w tname :
  tname ∈ source_tables → view (conn w) !! tname = None →
  load_lexicon lang w =
  Raises OperationalError
    (created (T "autocomplete_lexicon") lexicon_table
       (printed (MsgCreatingTable lang (T "autocomplete_lexicon")) w)).
Proof.
  intros Hin Hnone. unfold load_lexicon.
  erewrite bind_returns; [|reflexivity].
  erewrite bind_returns; [|apply create_table_returns, lexicon_table_definition].
  apply bind_raises. unfold execute_lexicon. apply bind_raises.
  unfold query. apply lift_raise.
  apply (lexicon_select_missing _ tname); [done|].
  unfold created, printed. cbn [conn view].
  destruct (view (conn w) !! T "autocomplete_lexicon"); [done|].
  by rewrite lookup_insert_ne by by apply source_not_lexicon.
Qed.

Lemma NoDup_outer_select cs n : NoDup (outer_select cs n n).
Proof. apply NoDup_remove_dups. Qed.

Lemma load_lexicon_returns lang w n p a e :
  view (conn w) !! T "autocomplete_lexicon" = None →
  sources (view (conn w)) n p a e →
  ∃ w', load_lexicon lang w = Returns () w' ∧
        stdout w' = stdout w ++ [MsgCreatingTable lang (T "autocomplete_lexicon")] ∧
        path (conn w') = path (conn w) ∧
        in_txn (conn w') = false ∧
        files w' = <[path (conn w) := view (conn w')]> (files w) ∧
        view (conn w') =
          <[T "autocomplete_lexicon" :=
              Table [T "word"] [T "word"]
                ((λ v, [v]) <$> outer_select (candidates n p a e) n n)]> (view (conn w)).
Proof.
  intros Hnone Hs. unfold load_lexicon.
  erewrite bind_returns; [|reflexivity].
  erewrite bind_returns; [|apply create_table_returns, lexicon_table_definition].
  set (w1 := created _ _ _).
  assert (view (conn w1) = <[T "autocomplete_lexicon" := lexicon_table]> (view (conn w)))
    as Hv1.
  { unfold w1, created, printed. cbn [conn view]. by rewrite Hnone. }
  unfold execute_lexicon.
  erewrite bind_returns; last first.
  { erewrite bind_returns; last first.
    { unfold query. apply lift_ok. apply lexicon_select_sources.
      rewrite Hv1. by apply sources_created. }
    erewrite bind_returns; [|reflexivity].
    unfold update. cbn [conn view path in_txn files stdout].
    rewrite exec_insert_select_lexicon;
      [reflexivity|by rewrite Hv1, lookup_insert_eq|apply NoDup_outer_select]. }
  eexists. split; [reflexivity|]. cbn [commit conn view path in_txn files stdout].
  unfold w1, created, printed.
  cbn [conn view path in_txn files stdout]. rewrite Hnone.
  rewrite insert_insert_eq. split_and!; try done.
  destruct (in_txn (conn w)); [done|by rewrite insert_insert_eq].
Qed.

(** *** The table definitions *)

(** C1 (the code departs from the claim): the claim is that every table
    is unique on its first column only, so that a row whose headword is
    already there is silently dropped.  The nouns, prepositions and
    translations branches hand [create_table] one string that holds all
    the column names, and the constraint it builds from [cols[0]] then
    spans every column: inserted after ("chat", "chats", ""), the row
    ("chat", "chat", "") is stored too. *)
Theorem nouns_table_unique_over_all_columns :
  table_definition (T "nouns") nouns_cols
    = Ok (Table [T "noun"; T "plural"; T "form"] [T "noun"; T "plural"; T "form"] []) ∧
  table_definition (T "prepositions") prepositions_cols
    = Ok (Table [T "preposition"; T "form"] [T "preposition"; T "form"] []) ∧
  table_definition (T "translations") translations_cols
    = Ok (Table [T "word"; T "translation"] [T "word"; T "translation"] []) ∧
  table_rows (view (conn ex_two_chats)) (T "nouns")
    = Some [[VText (T "chat"); VText (T "chats"); VText []];
            [VText (T "chat"); VText (T "chat"); VText []]].
Proof. split_and!; vm_compute; reflexivity. Qed.

(** A whole run that ends with a headword twice in the nouns: the
    directory has "nouns.json" and "nouns.json.bak", which both stand for
    the nouns, and the noun "x" has a null plural, which no constraint
    over the plural can match. *)
Lemma nouns_headword_stored_twice :
  returned ex_run_backup = true ∧
  table_rows (disk (final ex_run_backup)) (T "nouns")
  = Some [[VText (T "x"); VNull; VText []]; scribe_row;
          [VText (T "x"); VNull; VText []]].
Proof. split; vm_compute; reflexivity. Qed.

(** On a table that is unique on its first column alone, a row whose
    headword is already there is dropped. *)
Lemma insert_existing_headword_ignored t u r r' s :
  unique_on t = [u] → col_index u (columns t) = Some 0 →
  r' ∈ rows t → cell r' 0 = VText s → cell r 0 = VText s →
  insert_or_ignore t r = t.
Proof.
  intros Hu Hi Hin Hr' Hr. unfold insert_or_ignore.
  assert (violates t r = true) as ->; [|done].
  unfold violates, key_of. rewrite Hu. cbn [fmap list_fmap]. rewrite Hi.
  apply existsb_exists. exists r'. split; [by apply list_elem_of_In|].
  rewrite Hr', Hr. cbn [same_key]. unfold text_eqb.
  by rewrite bool_decide_eq_true_2.
Qed.

(** The branches that pass one name per element get the constraint the
    claim describes. *)
Lemma sibling_tables_unique_on_headword :
  table_definition (T "autosuggestions") autosuggestions_cols
    = Ok (Table autosuggestions_cols [T "word"] []) ∧
  table_definition (T "emoji_keywords") emoji_keywords_cols
    = Ok (Table emoji_keywords_cols [T "word"] []) ∧
  table_definition (T "autocomplete_lexicon") [T "word"]
    = Ok (Table [T "word"] [T "word"] []).
Proof. split_and!; by vm_compute. Qed.

(** *** The mapped rows *)

Lemma length_pad cols ks :
  length ks ≤ length cols → length (pad cols ks) = length cols.
Proof. intros H. unfold pad. rewrite length_app, length_replicate. lia. Qed.

Lemma head_pad cols k ks : head (pad cols (k :: ks)) = Some k.
Proof. done. Qed.

(** In every branch the first value of a row is the headword. *)
Lemma row_starts_with_headword cols d row ks :
  nouns_keys d row = Ok ks ∨ verbs_keys cols d row = Ok ks ∨
  pair_keys d row = Ok ks ∨ autosuggestions_keys cols d row = Ok ks ∨
  emoji_keywords_keys cols d row = Ok ks →
  head ks = Some (JStr row).
Proof.
  unfold nouns_keys, verbs_keys, pair_keys, autosuggestions_keys,
    emoji_keywords_keys.
  intros [H|[H|[H|[H|H]]]]; revert H; unfold mbind, result_bind;
    repeat match goal with
    | |- context [match ?x with Ok _ => _ | Raise _ => _ end] => destruct x
    end; by intros [= <-].
Qed.

(** The rows of autosuggestions and emoji_keywords have four values when
    the list of the entry has at most three elements. *)
Lemma padded_row_length d row e els ks :
  getitem d row = Ok e → elements e = Ok els → length els ≤ 3 →
  autosuggestions_keys autosuggestions_cols d row = Ok ks ∨
  emoji_keywords_keys emoji_keywords_cols d row = Ok ks →
  length ks = 4.
Proof.
  intros He Hels Hlen. unfold autosuggestions_keys, emoji_keywords_keys.
  rewrite He. cbn [mbind result_bind]. rewrite Hels. cbn [mbind result_bind].
  intros [[= <-]|H].
  - rewrite length_pad; [done|]. simpl.
    change (length autosuggestions_cols) with 4. lia.
  - destruct (traverse _ els) as [emojis|] eqn:E; [|done].
    injection H as <-. apply traverse_length in E.
    rewrite length_pad; [done|]. simpl. rewrite E.
    change (length emoji_keywords_cols) with 4. lia.
Qed.

(** C5 (the code departs from the claim): the claim is that a mapped row
    has as many values as [cols] has elements.  For nouns [cols] is the
    one-element list [["noun, plural, form"]] while the row of "chat" has
    three values; for prepositions and translations [cols] has one
    element too, and a row two values. *)
Theorem nouns_row_longer_than_columns :
  (∃ row, nouns_keys (json_load ex_nouns) (T "chat") = Ok row ∧
          length row = 3 ∧ length nouns_cols = 1) ∧
  (∃ row, pair_keys (json_load ex_prepositions) (T "in") = Ok row ∧
          length row = 2 ∧ length prepositions_cols = 1 ∧
          length translations_cols = 1).
Proof. split; eexists; split_and!; by vm_compute. Qed.

(** *** The Scribe entry *)

(** C6 (amended): loading the nouns of a language into a database that
    has no nouns table stores the rows of the blob and then, unless the
    language is Russian or the blob has a headword "Scribe", the row
    ("Scribe", "Scribes", "").  So for every language but Russian the
    table has a row with headword "Scribe": the seeded one when the blob
    has none, the blob's own otherwise, with nothing seeded; for Russian
    nothing is seeded. *)
Theorem scribe_seeded_unless_present lang members w vss :
  let json_data := json_load members in
  view (conn w) !! T "nouns" = None →
  traverse (row_values (nouns_keys json_data)) (keys json_data) = Ok vss →
  ∃ w' t,
    load_nouns lang json_data w = Returns () w' ∧
    disk w' !! T "nouns" = Some t ∧
    rows t = vss ++ (if seeds_scribe lang json_data then [scribe_row] else []) ∧
    (lang ≠ T "Russian" → ∃ r, r ∈ rows t ∧ cell r 0 = VText (T "Scribe")) ∧
    (lang ≠ T "Russian" → contains json_data (T "Scribe") = false →
       scribe_row ∈ rows t) ∧
    (contains json_data (T "Scribe") = true → rows t = vss) ∧
    (lang = T "Russian" → rows t = vss).
Proof.
  intros json_data Hnone Hvss.
  destruct (load_nouns_returns lang json_data w vss Hnone
              (NoDup_keys_json_load members) Hvss)
    as (w' & Hrun & _ & Hp & _ & Hf & Hv).
  eexists w', _. split; [done|]. split.
  { unfold disk. rewrite Hf, Hp, lookup_insert_eq. cbn [default].
    rewrite Hv. apply lookup_insert_eq. }
  cbn [rows]. split; [done|].
  assert (text_eqb lang (T "Russian") = false ↔ lang ≠ T "Russian") as Hru.
  { unfold text_eqb. by rewrite bool_decide_eq_false. }
  unfold seeds_scribe. split_and!.
  - intros Hl%Hru. rewrite Hl.
    destruct (contains json_data (T "Scribe")) eqn:Hc; cbn [negb andb].
    + apply contains_spec in Hc.
      destruct (nouns_rows_heads _ _ _ Hvss) as [Hheads _].
      assert (VText (T "Scribe") ∈ (λ r, cell r 0) <$> vss) as Hin.
      { rewrite Hheads. apply list_elem_of_fmap. by exists (T "Scribe"). }
      apply list_elem_of_fmap in Hin as (r & Hr & Hin).
      exists r. split; [|done]. rewrite elem_of_app. by left.
    + exists scribe_row. split; [|done]. rewrite elem_of_app. right. left.
  - intros Hl%Hru Hc. rewrite Hl, Hc. cbn [negb andb].
    rewrite elem_of_app. right. left.
  - intros Hc. rewrite Hc. cbn [negb andb]. by rewrite app_nil_r.
  - intros ->. change (text_eqb (T "Russian") (T "Russian")) with true.
    rewrite andb_false_r. by rewrite app_nil_r.
Qed.

(** The theorem at French with the noun "chat". *)
Lemma scribe_seeded_unless_present_witness :
  view (conn opened) !! T "nouns" = None ∧
  traverse (row_values (nouns_keys (json_load ex_nouns))) (keys (json_load ex_nouns))
    = Ok ex_nouns_rows ∧
  ∃ w' t,
    load_nouns (T "French") (json_load ex_nouns) opened = Returns () w' ∧
    disk w' !! T "nouns" = Some t ∧
    rows t = ex_nouns_rows ++ [scribe_row].
Proof.
  split; [by vm_compute|]. split; [by vm_compute|].
  destruct (scribe_seeded_unless_present (T "French") ex_nouns opened ex_nouns_rows)
    as (w' & t & Hrun & Hdisk & Hrows & _); [by vm_compute..|].
  by exists w', t.
Defined.

(** C6 as stated fails: a French run whose nouns are
    [{"Scribe": {"plural": "Scribe", "form": "M"}}] completes, and its
    nouns table has no row ("Scribe", "Scribes", ""). *)
Lemma scribe_entry_absent_when_json_has_scribe :
  let run := ex_run source_tables ex_scribe_noun in
  returned run = true ∧
  table_rows (disk (final run)) (T "nouns")
    = Some [[VText (T "Scribe"); VText (T "Scribe"); VText (T "M")]] ∧
  ∀ t, disk (final run) !! T "nouns" = Some t → scribe_row ∉ rows t.
Proof.
  split_and!; [vm_compute; reflexivity..|].
  intros t Ht.
  assert (table_rows (disk (final (ex_run source_tables ex_scribe_noun))) (T "nouns")
          = Some [[VText (T "Scribe"); VText (T "Scribe"); VText (T "M")]]) as Hrows
    by (vm_compute; reflexivity).
  unfold table_rows in Hrows. rewrite Ht in Hrows. injection Hrows as ->.
  intros H%list_elem_of_singleton. by vm_compute in H.
Qed.

(** *** The lexicon *)

Lemma elem_of_candidates_source n p a e v :
  v ∈ candidates n p a e →
  v ∈ n ∨ v ∈ p ∨ (∃ x, x ∈ a ∧ v = sql_lower x) ∨ v ∈ e.
Proof.
  unfold candidates, union, distinct. rewrite elem_of_remove_dups. simpl.
  rewrite !elem_of_app, elem_of_remove_dups, list_elem_of_fmap, elem_of_nil.
  rewrite !elem_of_sql_where.
  intros [[? _]|[[? _]|[(x & -> & [? _]%elem_of_sql_where)|[?|[]]]]]; eauto 6.
Qed.

(** C2 (amended): when one of the four source tables is missing, the
    merge raises [OperationalError] right after creating the lexicon
    table, which stays empty; when all four are there it returns, and
    every candidate comes from a row of one of them, so an empty table
    contributes nothing. *)
Theorem lexicon_merge_needs_every_source lang w :
  (∀ tname, tname ∈ source_tables → view (conn w) !! tname = None →
     load_lexicon lang w =
     Raises OperationalError
       (created (T "autocomplete_lexicon") lexicon_table
          (printed (MsgCreatingTable lang (T "autocomplete_lexicon")) w))) ∧
  (∀ n p a e,
     view (conn w) !! T "autocomplete_lexicon" = None →
     sources (view (conn w)) n p a e →
     ∃ w' cs, load_lexicon lang w = Returns () w' ∧
              full_lexicon (view (conn w)) = Ok cs ∧
              ∀ v, v ∈ cs →
                v ∈ n ∨ v ∈ p ∨ (∃ x, x ∈ a ∧ v = sql_lower x) ∨ v ∈ e).
Proof.
  split.
  - intros tname Hin Hnone. by apply (load_lexicon_missing _ _ tname).
  - intros n p a e Hnone Hs.
    destruct (load_lexicon_returns lang w n p a e Hnone Hs) as (w' & Hrun & _).
    exists w', (candidates n p a e). split; [done|].
    split; [by apply full_lexicon_sources|]. apply elem_of_candidates_source.
Qed.

Lemma ex_loaded_sources :
  sources (view (conn ex_loaded)) ex_db_nouns ex_db_prepositions
    ex_db_autosuggestions [].
Proof. split_and!; by vm_compute. Qed.

(** The theorem at a database without tables and at the example database. *)
Lemma lexicon_merge_needs_every_source_witness :
  (T "prepositions" ∈ source_tables ∧
   view (conn opened) !! T "prepositions" = None ∧
   returned (load_lexicon (T "French") opened) = false) ∧
  (view (conn ex_loaded) !! T "autocomplete_lexicon" = None ∧
   sources (view (conn ex_loaded)) ex_db_nouns ex_db_prepositions
     ex_db_autosuggestions [] ∧
   returned (load_lexicon (T "French") ex_loaded) = true).
Proof.
  destruct (lexicon_merge_needs_every_source (T "French") opened) as [Hmiss _].
  destruct (lexicon_merge_needs_every_source (T "French") ex_loaded) as [_ Hall].
  assert (T "prepositions" ∈ source_tables) as Hin
    by (apply (bool_decide_unpack _); by vm_compute).
  assert (view (conn opened) !! T "prepositions" = None) as Hnone by by vm_compute.
  assert (view (conn ex_loaded) !! T "autocomplete_lexicon" = None) as Hlex
    by by vm_compute.
  split.
  - split_and!; [done..|]. by rewrite (Hmiss _ Hin Hnone).
  - split_and!; [done|apply ex_loaded_sources|].
    destruct (Hall _ _ _ _ Hlex ex_loaded_sources) as (w' & cs & -> & _). done.
Defined.

(** *** The example of the specification *)

Lemma upper_char_not_lower c d : is_lower d = true → upper_char c ≠ d.
Proof.
  intros Hd%is_lower_spec. unfold upper_char.
  destruct (is_lower c) eqn:Hc.
  - apply is_lower_spec in Hc. lia.
  - intros ->. apply is_lower_spec in Hd. congruence.
Qed.

Lemma resolve_casing_not_scribe n t :
  VText (T "Scribe") ∈ n → resolve_casing n t ≠ T "scribe".
Proof.
  intros Hin. unfold resolve_casing.
  destruct (bool_decide_reflect (VText (capitalize_first t) ∈ n)) as [_|Hcap].
  - destruct t as [|c t]; [done|].
    intros [= H _]. by apply (upper_char_not_lower c 115%N) in H.
  - destruct (bool_decide_reflect (VText (upper t) ∈ n)) as [_|_].
    + destruct t as [|c t]; [done|].
      intros [= H _]. by apply (upper_char_not_lower c 115%N) in H.
    + intros ->. by apply Hcap.
Qed.

(** C3: the query stores, for each candidate that passes the filter, the
    casing that [resolve_casing] gives: the noun that the candidate with
    its first character capitalized equals, else the noun that the
    upper-cased candidate equals, else the candidate itself; and with a
    noun "Scribe" and an autosuggestion "scribe", the lexicon has "Scribe"
    and not "scribe". *)
Theorem lexicon_casing_resolution db n p a e :
  sources db n p a e →
  ∃ cs ws,
    full_lexicon db = Ok cs ∧ lexicon_select db = Ok ws ∧
    (∀ t, VText t ∈ cs → acceptable t → VText (resolve_casing n t) ∈ ws) ∧
    (∀ v, v ∈ ws →
       ∃ t, VText t ∈ cs ∧ acceptable t ∧ v = VText (resolve_casing n t)) ∧
    (VText (T "Scribe") ∈ n → VText (T "scribe") ∈ a →
       VText (T "Scribe") ∈ ws ∧ VText (T "scribe") ∉ ws).
Proof.
  intros Hs. exists (candidates n p a e), (outer_select (candidates n p a e) n n).
  split; [by apply full_lexicon_sources|].
  split; [by apply lexicon_select_sources|].
  split_and!.
  - intros t Hin Hacc. apply elem_of_outer_select. by exists t.
  - intros v Hin. by apply elem_of_outer_select in Hin.
  - intros Hn Ha. split.
    + apply elem_of_outer_select. exists (T "scribe"). split_and!.
      * apply elem_of_candidates. right; right; left.
        exists (T "scribe"). split_and!; [done|vm_compute; lia|by vm_compute].
      * apply lexicon_filter_acceptable. by vm_compute.
      * unfold resolve_casing.
        change (capitalize_first (T "scribe")) with (T "Scribe").
        by rewrite bool_decide_eq_true_2.
    + intros (t & _ & _ & [= Ht])%elem_of_outer_select.
      symmetry in Ht. by apply resolve_casing_not_scribe in Ht.
Qed.

(** The theorem at the example database. *)
Lemma lexicon_casing_resolution_witness :
  sources (view (conn ex_loaded)) ex_db_nouns ex_db_prepositions
    ex_db_autosuggestions [] ∧
  ∃ ws, lexicon_select (view (conn ex_loaded)) = Ok ws ∧
        VText (T "Scribe") ∈ ws ∧ VText (T "scribe") ∉ ws.
Proof.
  split; [apply ex_loaded_sources|].
  destruct (lexicon_casing_resolution ex_db _ _ _ _ ex_loaded_sources)
    as (cs & ws & _ & Hsel & _ & _ & Hex).
  exists ws. split; [done|].
  apply Hex; apply (bool_decide_unpack _); by vm_compute.
Defined.

(** C4: the candidates are the nouns and prepositions longer than two
    characters, the lower-cased autosuggestions longer than two, and all
    emoji keywords; what is stored is, without repetition, the resolved
    casing of the candidates whose resolved token has more than one
    character and none of the excluded ones.  A preposition of two
    characters is a candidate only as an emoji keyword; one of three is
    a candidate, and is stored (resolved) when the filter keeps it. *)
Theorem lexicon_candidates_and_filter lang w n p a e :
  view (conn w) !! T "autocomplete_lexicon" = None →
  sources (view (conn w)) n p a e →
  ∃ cs ws w',
    full_lexicon (view (conn w)) = Ok cs ∧
    load_lexicon lang w = Returns () w' ∧
    disk w' !! T "autocomplete_lexicon"
      = Some (Table [T "word"] [T "word"] ((λ v, [v]) <$> ws)) ∧
    NoDup ws ∧
    (∀ t, VText t ∈ cs ↔
       (VText t ∈ n ∧ 2 < length t) ∨
       (VText t ∈ p ∧ 2 < length t) ∨
       (∃ x, VText x ∈ a ∧ 2 < length x ∧ t = lower x) ∨
       VText t ∈ e) ∧
    (∀ v, v ∈ ws ↔
       ∃ t, VText t ∈ cs ∧ v = VText (resolve_casing n t) ∧
            acceptable (resolve_casing n t)) ∧
    (∀ t, VText t ∈ p → length t = 2 → VText t ∉ e → VText t ∉ cs) ∧
    (∀ t, VText t ∈ p → length t = 3 →
       VText t ∈ cs ∧ (acceptable t → VText (resolve_casing n t) ∈ ws)).
Proof.
  intros Hnone Hs.
  destruct (load_lexicon_returns lang w n p a e Hnone Hs)
    as (w' & Hrun & _ & Hp & _ & Hf & Hv).
  exists (candidates n p a e), (outer_select (candidates n p a e) n n), w'.
  split; [by apply full_lexicon_sources|]. split; [done|]. split.
  { unfold disk. rewrite Hf, Hp, lookup_insert_eq. cbn [default].
    rewrite Hv. apply lookup_insert_eq. }
  split; [apply NoDup_outer_select|]. split; [apply elem_of_candidates|].
  split_and!.
  - intros v. rewrite elem_of_outer_select.
    split; intros (t & Hin & H1 & H2); exists t.
    + split_and!; [done..|]. by apply acceptable_resolve_casing.
    + split_and!; [done| |done]. by apply acceptable_resolve_casing in H2.
  - intros t Hin Hlen Hne. rewrite elem_of_candidates.
    intros [[_ ?]|[[_ ?]|[(x & _ & Hx & ->)|?]]]; [lia|lia| |done].
    unfold lower in Hlen. rewrite length_fmap in Hlen. lia.
  - intros t Hin Hlen. split.
    + apply elem_of_candidates. right; left. split; [done|lia].
    + intros Hacc. apply elem_of_outer_select. exists t. split_and!; [|done..].
      apply elem_of_candidates. right; left. split; [done|lia].
Qed.

(** The theorem at the example database. *)
Lemma lexicon_candidates_and_filter_witness :
  view (conn ex_loaded) !! T "autocomplete_lexicon" = None ∧
  sources (view (conn ex_loaded)) ex_db_nouns ex_db_prepositions
    ex_db_autosuggestions [] ∧
  ∃ ws w',
    load_lexicon (T "French") ex_loaded = Returns () w' ∧
    disk w' !! T "autocomplete_lexicon"
      = Some (Table [T "word"] [T "word"] ((λ v, [v]) <$> ws)) ∧
    VText (T "for") ∈ ws.
Proof.
  assert (view (conn ex_loaded) !! T "autocomplete_lexicon" = None) as Hlex
    by by vm_compute.
  split; [done|]. split; [apply ex_loaded_sources|].
  destruct (lexicon_candidates_and_filter (T "French") ex_loaded _ _ _ _
              Hlex ex_loaded_sources)
    as (cs & ws & w' & _ & Hrun & Hdisk & _ & _ & _ & _ & H3).
  exists ws, w'. split; [done|]. split; [done|].
  assert (resolve_casing ex_db_nouns (T "for") = T "for") as Hr by by vm_compute.
  rewrite <- Hr. apply (H3 (T "for")).
  - apply (bool_decide_unpack _). by vm_compute.
  - done.
  - apply lexicon_filter_acceptable. by vm_compute.
Defined.

(** The lexicon of the example database: the three-character preposition
    and the noun's casing are in, the two-character preposition and the
    lower-cased autosuggestion are not. *)
Lemma lexicon_of_example :
  ∃ ws, lexicon_select (view (conn ex_loaded)) = Ok ws ∧
        VText (T "for") ∈ ws ∧ (VText (T "in") ∉ ws) ∧
        VText (T "Scribe") ∈ ws ∧ (VText (T "scribe") ∉ ws) ∧
        VText (T "chat") ∈ ws.
Proof.
  eexists. split; [by vm_compute|].
  split_and!; apply (bool_decide_unpack _); by vm_compute.
Qed.

(** C2 as stated fails: a French run with nouns and emoji_keywords only
    (the end-to-end scenario of the specification) raises
    [OperationalError] at the lexicon step, for want of a prepositions
    table. *)
Lemma lexicon_merge_fails_without_prepositions :
  let run := ex_run [T "nouns"; T "emoji_keywords"] ex_nouns in
  run = Raises OperationalError (final run) ∧
  last (stdout (final run))
    = Some (MsgCreatingTable (T "French") (T "autocomplete_lexicon")) ∧
  table_rows (disk (final run)) (T "prepositions") = None ∧
  table_rows (disk (final run)) (T "emoji_keywords") = Some [] ∧
  table_rows (disk (final run)) (T "autocomplete_lexicon") = Some [].
Proof. split_and!; vm_compute; reflexivity. Qed.

(** *** Commits *)

Lemma connect_consistent p w : consistent (final (connect p w)).
Proof. split; [done|]. simpl. apply lookup_insert_eq. Qed.

Lemma bind_consistent {A} (m : M A) (f : A → M unit) w w' :
  (∀ a w1 w2, f a w1 = Returns () w2 → consistent w2) →
  (m ≫= f) w = Returns () w' → consistent w'.
Proof.
  intros Hf. unfold mbind, M_bind. destruct (m w) as [a w1|]; [|done]. apply Hf.
Qed.

Lemma commit_consistent w w' : commit w = Returns () w' → consistent w'.
Proof. intros [= <-]. split; [done|]. simpl. apply lookup_insert_eq. Qed.

Ltac ends_with_commit :=
  repeat (eapply bind_consistent; intros ? ? ?); apply commit_consistent.

Lemma load_nouns_consistent lang d w w' :
  load_nouns lang d w = Returns () w' → consistent w'.
Proof. unfold load_nouns. ends_with_commit. Qed.

Lemma load_verbs_consistent d w w' :
  load_verbs d w = Returns () w' → consistent w'.
Proof. unfold load_verbs. ends_with_commit. Qed.

Lemma load_pairs_consistent wt cols d w w' :
  load_pairs wt cols d w = Returns () w' → consistent w'.
Proof. unfold load_pairs. ends_with_commit. Qed.

Lemma load_padded_consistent wt cols f d w w' :
  load_padded wt cols f d w = Returns () w' → consistent w'.
Proof. unfold load_padded. ends_with_commit. Qed.

(** *** The run *)

Section Script.

Variable current_languages : list text.
Variable literal_eval : text → result pyval.
Variable listdir : text → result (list text).
Variable load_json : text → result (list (text * json)).
Variable get_language_iso : text → result text.
Variable str_upper : text → text.

Abbreviation known_language := (Load.known_language current_languages).
Abbreviation parse_argument := (Load.parse_argument current_languages literal_eval).
Abbreviation invalid_argument :=
  (Load.invalid_argument current_languages literal_eval).
Abbreviation available_word_types := (Load.available_word_types listdir).
Abbreviation load_word_type := (Load.load_word_type load_json).
Abbreviation build_language :=
  (Load.build_language load_json get_language_iso str_upper).
Abbreviation main :=
  (Load.main current_languages literal_eval listdir load_json get_language_iso
     str_upper).

(** *** The argument *)

Lemma parse_argument_invalid prog arg :
  invalid_argument arg → ∃ e, parse_argument [prog; arg] = Raise e.
Proof.
  unfold Load.invalid_argument, Load.parse_argument.
  destruct (literal_eval arg) as [v|e].
  - destruct v as [s|l|h]; simpl; [by eauto| |by eauto].
    intros (x & Hx & Hk).
    destruct (forallb hashable l); [|by eauto].
    destruct (forallb known_language l) eqn:Hall; [|by eauto].
    rewrite forallb_forall in Hall.
    apply list_elem_of_In in Hx. specialize (Hall x Hx). congruence.
  - intros _. destruct e; simpl; eauto.
Qed.

(** C8: an argument that is not a list of known languages makes the run
    raise in the world it started in: no file removed or created, nothing
    printed, no language processed. *)
Theorem invalid_argument_fails_before_any_effect prog arg w :
  invalid_argument arg → ∃ e, main [prog; arg] w = Raises e w.
Proof.
  intros H. destruct (parse_argument_invalid prog arg H) as [e He].
  exists e. unfold Load.main. apply bind_raises. by apply lift_raise.
Qed.

(** *** A language without data *)

Lemma filter_none {A} (f : A → bool) l :
  (∀ x, x ∈ l → f x = false) → List.filter f l = [].
Proof.
  induction l as [|x l IH]; intros H; [done|].
  simpl. rewrite (H x) by left. apply IH. intros y Hy. apply H. by right.
Qed.

(** C9: a language whose directory has no file of a word type has no
    word type available, and is skipped: the only effect is the notice on
    standard output; no file is created, removed or changed, nothing is
    raised.  A run for this language alone prints its two notices and
    does nothing else. *)
Theorem language_without_data_is_skipped lang fs w :
  listdir (PATH_TO_ET_FILES ++ lang ++ T "/formatted_data") = Ok fs →
  (∀ f, f ∈ fs → split_head (T ".json") f ∉ word_types) →
  available_word_types lang = Ok [] ∧
  build_language lang [] w = Returns () (printed (MsgSkipping lang) w) ∧
  (∀ argv languages,
     parse_argument argv = Ok languages →
     default current_languages languages = [lang] →
     main argv w =
     Returns () (printed (MsgSkipping lang) (printed (MsgCreatingDatabases [lang]) w))).
Proof.
  intros Hdir Hnone.
  assert (available_word_types lang = Ok []) as Hav.
  { unfold Load.available_word_types. rewrite Hdir. cbn [mbind result_bind].
    f_equal. apply filter_none. intros n (f & -> & Hf)%list_elem_of_fmap.
    specialize (Hnone f Hf).
    destruct (existsb _ word_types) eqn:E; [|done].
    exfalso. apply Hnone. apply existsb_exists in E as (x & Hx & Heq).
    apply bool_decide_eq_true in Heq. subst. by apply list_elem_of_In. }
  split; [done|]. split; [done|].
  intros argv languages Hparse Hlangs. unfold Load.main.
  erewrite bind_returns; [|by apply lift_ok].
  rewrite Hlangs.
  erewrite bind_returns; last first.
  { apply lift_ok. unfold language_word_type_dict. cbn [foldM].
    fold available_word_types. rewrite Hav. reflexivity. }
  reflexivity.
Qed.

(** *** verbs *)

Lemma load_word_type_verbs lang members w :
  load_json (json_path lang (T "verbs")) = Ok members →
  load_word_type lang (T "verbs") w =
  load_verbs (json_load members)
    (World (files w) (stdout w ++ [MsgCreatingTable lang (T "verbs")]) (conn w)).
Proof.
  intros H. unfold Load.load_word_type.
  erewrite bind_returns; [|reflexivity].
  erewrite bind_returns; [|by apply lift_ok].
  reflexivity.
Qed.

(** A word type that loads leaves nothing pending. *)
Lemma load_word_type_consistent lang wt w w' :
  consistent w → load_word_type lang wt w = Returns () w' → consistent w'.
Proof.
  intros Hw. unfold Load.load_word_type.
  erewrite bind_returns; [|reflexivity].
  destruct (load_json (json_path lang wt)) as [members|e] eqn:E.
  - erewrite bind_returns; [|by apply lift_ok].
    repeat match goal with
    | |- context [if text_eqb ?a ?b then _ else _] => destruct (text_eqb a b)
    end;
    eauto using load_nouns_consistent, load_verbs_consistent, load_pairs_consistent,
                load_padded_consistent.
    by intros [= <-].
  - erewrite bind_raises; [done|by apply lift_raise].
Qed.

Lemma for_each_word_type_consistent lang wts : ∀ w w',
  consistent w → for_each wts (load_word_type lang) w = Returns () w' →
  consistent w'.
Proof.
  induction wts as [|wt wts IH]; intros w w' Hw; [by intros [= <-]|].
  simpl. unfold mbind, M_bind.
  destruct (load_word_type lang wt w) as [[] w1|] eqn:E; [|done].
  apply IH. by eapply load_word_type_consistent.
Qed.

Lemma for_each_raises_after {A} (body : A → M unit) l1 x l2 w0 w :
  for_each l1 body w0 = Returns () w →
  returned (body x w) = false →
  for_each (l1 ++ x :: l2) body w0 = body x w.
Proof.
  intros H1 Hx. rewrite for_each_app, H1. simpl. unfold mbind, M_bind.
  by destruct (body x w) as [[] ?|].
Qed.

(** C10: when the verbs blob is an empty mapping, loading verbs raises
    [IndexError] right after its notice, and so does the loop over the
    word types: no verbs table is created, the connection and the files
    are as the earlier word types left them. *)
Theorem empty_verbs_blob_raises lang wts1 wts2 w0 w :
  load_json (json_path lang (T "verbs")) = Ok [] →
  for_each wts1 (load_word_type lang) w0 = Returns () w →
  load_word_type lang (T "verbs") w
    = Raises IndexError (printed (MsgCreatingTable lang (T "verbs")) w) ∧
  for_each (wts1 ++ T "verbs" :: wts2) (load_word_type lang) w0
    = Raises IndexError (printed (MsgCreatingTable lang (T "verbs")) w).
Proof.
  intros H Hrun.
  assert (load_word_type lang (T "verbs") w
          = Raises IndexError (printed (MsgCreatingTable lang (T "verbs")) w)) as Hv.
  { by rewrite (load_word_type_verbs _ [] _ H). }
  split; [done|]. rewrite (for_each_raises_after _ _ _ _ _ _ Hrun); [done|].
  by rewrite Hv.
Qed.

(** C7: the columns of verbs are "verb" and the keys of the first entry
    of the blob; a row that has every slot is its headword followed by
    its forms for these slots, in order; a row that lacks one raises
    [KeyError], the loop over the word types then raises, and the tables
    of the word types loaded before are on disk as they were committed. *)
Theorem verbs_slots_from_first_entry lang members k0 ks m0 wts1 wts2 w0 w :
  let json_data := json_load members in
  let slots := keys (json_load m0) in
  let build := for_each (wts1 ++ T "verbs" :: wts2) (load_word_type lang) w0 in
  load_json (json_path lang (T "verbs")) = Ok members →
  keys json_data = k0 :: ks →
  getitem json_data k0 = Ok (JObj m0) →
  consistent w0 →
  for_each wts1 (load_word_type lang) w0 = Returns () w →
  verbs_cols json_data = Ok (T "verb" :: slots) ∧
  (∀ row e, getitem json_data row = Ok e →
     (∀ c, c ∈ slots → ∃ v, subscript e c = Ok v) →
     ∃ forms,
       verbs_keys (T "verb" :: slots) json_data row = Ok (JStr row :: forms) ∧
              traverse (subscript e) slots = Ok forms) ∧
  (∀ row m c, row ∈ keys json_data → getitem json_data row = Ok (JObj m) →
     c ∈ slots → contains (json_load m) c = false →
     verbs_keys (T "verb" :: slots) json_data row = Raise KeyError ∧
     returned build = false ∧
     ∀ tname, tname ≠ T "verbs" → disk (final build) !! tname = disk w !! tname).
Proof.
  intros json_data slots build Hload Hkeys Hfirst Hw0 Hrun.
  pose proof (verbs_cols_first _ _ _ _ Hkeys Hfirst) as Hcols.
  split; [done|]. split.
  - intros row e Hrow Hall.
    destruct (verbs_keys_complete (T "verb" :: slots) json_data row e Hrow Hall)
      as (forms & H1 & H2 & _).
    by exists forms.
  - intros row m c Hrow Hget Hc Hmiss. split.
    { by apply (verbs_keys_missing_slot _ _ _ m c). }
    assert (consistent w) as Hw by by eapply for_each_word_type_consistent.
    assert (consistent (printed (MsgCreatingTable lang (T "verbs")) w)) as Hw' by done.
    destruct (load_verbs_missing_slot json_data _ row m c _ Hcols Hrow Hget Hc Hmiss Hw')
      as [Hret Hdisk].
    unfold build. rewrite (for_each_raises_after _ _ _ _ _ _ Hrun);
      rewrite (load_word_type_verbs _ _ _ Hload); [|done].
    split; [done|]. intros tname Hne. by rewrite Hdisk.
Qed.

End Script.

(** *** Instances *)

(** The theorem at the argument [['Klingon']]. *)
Lemma invalid_argument_fails_before_any_effect_witness :
  Load.invalid_argument ex_languages ex_literal_eval (T "['Klingon']") ∧
  ∃ e, Load.main ex_languages ex_literal_eval (ex_listdir source_tables)
         (ex_load_json ex_nouns) ex_iso upper
         [T "data_to_sqlite.py"; T "['Klingon']"] fresh
       = Raises e fresh.
Proof.
  assert (Load.invalid_argument ex_languages ex_literal_eval (T "['Klingon']")) as H.
  { exists (PStr (T "Klingon")). split; [left|by vm_compute]. }
  split; [done|]. by apply invalid_argument_fails_before_any_effect.
Defined.

(** The theorem at a French directory without files. *)
Lemma language_without_data_is_skipped_witness :
  ex_listdir [] (PATH_TO_ET_FILES ++ T "French" ++ T "/formatted_data") = Ok [] ∧
  Load.main ex_languages ex_literal_eval (ex_listdir []) (ex_load_json ex_nouns)
    ex_iso upper ex_argv fresh
  = Returns ()
      (printed (MsgSkipping (T "French"))
         (printed (MsgCreatingDatabases [T "French"]) fresh)).
Proof.
  split; [done|].
  destruct (language_without_data_is_skipped ex_languages ex_literal_eval
              (ex_listdir []) (ex_load_json ex_nouns) ex_iso upper
              (T "French") [] fresh) as (_ & _ & Hmain); [done|by inversion 1|].
  by apply (Hmain ex_argv None).
Defined.

(** The theorem at a French directory whose files are all empty mappings. *)
Lemma empty_verbs_blob_raises_witness :
  ex_load_empty (json_path (T "French") (T "verbs")) = Ok [] ∧
  for_each [] (Load.load_word_type ex_load_empty (T "French")) opened
    = Returns () opened ∧
  for_each [T "verbs"; T "nouns"] (Load.load_word_type ex_load_empty (T "French"))
    opened
    = Raises IndexError (printed (MsgCreatingTable (T "French") (T "verbs")) opened).
Proof.
  split; [done|]. split; [done|].
  by apply (empty_verbs_blob_raises ex_load_empty (T "French") [] [T "nouns"]).
Defined.

(** The theorem at the verbs of the examples, where "etre" lacks "past". *)
Lemma verbs_slots_from_first_entry_witness :
  let build :=
    for_each [T "nouns"; T "verbs"; T "prepositions"]
      (Load.load_word_type (ex_load_json ex_nouns) (T "French")) opened in
  ex_load_json ex_nouns (json_path (T "French") (T "verbs")) = Ok ex_verbs ∧
  keys (json_load ex_verbs) = [T "aller"; T "etre"] ∧
  getitem (json_load ex_verbs) (T "aller") = Ok (JObj ex_verb_aller) ∧
  consistent opened ∧
  for_each [T "nouns"] (Load.load_word_type (ex_load_json ex_nouns) (T "French")) opened
    = Returns () ex_after_nouns ∧
  verbs_cols (json_load ex_verbs) = Ok [T "verb"; T "pres"; T "past"] ∧
  verbs_keys [T "verb"; T "pres"; T "past"] (json_load ex_verbs) (T "etre")
    = Raise KeyError ∧
  returned build = false ∧
  disk (final build) !! T "nouns" = disk ex_after_nouns !! T "nouns".
Proof.
  intros build.
  assert (consistent opened) as Hc by apply connect_consistent.
  assert (for_each [T "nouns"]
            (Load.load_word_type (ex_load_json ex_nouns) (T "French")) opened
          = Returns () ex_after_nouns) as Hrun by by vm_compute.
  split; [by vm_compute|]. split; [by vm_compute|]. split; [by vm_compute|].
  split; [done|]. split; [done|].
  destruct (verbs_slots_from_first_entry (ex_load_json ex_nouns) (T "French")
              ex_verbs (T "aller") [T "etre"] ex_verb_aller
              [T "nouns"] [T "prepositions"] opened ex_after_nouns)
    as (Hcols & _ & Hmiss); [by vm_compute..|done|done|].
  split; [exact Hcols|].
  destruct (Hmiss (T "etre") ex_verb_etre (T "past")) as (Hkey & Hret & Hdisk);
    [by apply contains_spec|by vm_compute|by apply contains_spec|by vm_compute|].
  split; [done|]. split; [done|]. by apply Hdisk.
Defined.

(** ** Further properties of the script *)

(** *** What the statements of a build change *)

Implicit Types S : text → Prop.

Lemma changes_only_refl S w : changes_only S w w.
Proof. split_and!; try done. by left. Qed.

Lemma changes_only_trans S w1 w2 w3 :
  changes_only S w1 w2 → changes_only S w2 w3 → changes_only S w1 w3.
Proof.
  intros (Hp & Hf & Hv & Hd) (Hp' & Hf' & Hv' & Hd').
  rewrite Hp in *. split_and!.
  - congruence.
  - intros q Hq. rewrite Hf', Hf; done.
  - intros x Hx. rewrite Hv', Hv; done.
  - destruct Hd' as [Hd'|(v & Hd' & Hagree)].
    + rewrite Hd'. exact Hd.
    + right. exists v. split; [done|]. intros x Hx. rewrite Hagree, Hv; done.
Qed.

Lemma changes_only_weaken (S S' : text → Prop) w w' :
  (∀ x, S x → S' x) → changes_only S w w' → changes_only S' w w'.
Proof.
  intros HS (Hp & Hf & Hv & Hd). split_and!; [done..| |].
  - intros x Hx. apply Hv. naive_solver.
  - destruct Hd as [Hd|(v & Hd & Hagree)]; [by left|].
    right. exists v. split; [done|]. intros x Hx. apply Hagree. naive_solver.
Qed.

Lemma changes_only_bind S {A B} (m : M A) (f : A → M B) w :
  changes_only S w (final (m w)) →
  (∀ a w1, changes_only S w1 (final (f a w1))) →
  changes_only S w (final ((m ≫= f) w)).
Proof.
  intros Hm Hf. unfold mbind, M_bind.
  destruct (m w) as [a w1|e w1]; [|done].
  eapply changes_only_trans; [exact Hm|apply Hf].
Qed.

Lemma changes_only_for_each S {A} (body : A → M unit) l w :
  (∀ x w1, changes_only S w1 (final (body x w1))) →
  changes_only S w (final (for_each l body w)).
Proof.
  intros Hbody. revert w. induction l as [|x l IH]; intros w.
  - apply changes_only_refl.
  - simpl. apply changes_only_bind; [apply Hbody|]. intros _ w1. apply IH.
Qed.

Lemma changes_only_for_each_in S {A} (body : A → M unit) l w :
  (∀ x w1, x ∈ l → changes_only S w1 (final (body x w1))) →
  changes_only S w (final (for_each l body w)).
Proof.
  revert w. induction l as [|x l IH]; intros w Hbody.
  - apply changes_only_refl.
  - simpl. apply changes_only_bind; [apply Hbody; left|]. intros _ w1.
    apply IH. intros y w2 Hy. apply Hbody. by right.
Qed.

Lemma changes_only_lift S {A} (r : result A) w : changes_only S w (final (lift r w)).
Proof. destruct r; apply changes_only_refl. Qed.

Lemma changes_only_printed S m w : changes_only S w (printed m w).
Proof. split_and!; try done. by left. Qed.

Lemma changes_only_created (S : text → Prop) wt t w :
  S wt → changes_only S w (created wt t w).
Proof.
  intros HS. unfold created. split_and!; cbn [conn path view files].
  - done.
  - intros q Hq. destruct (in_txn (conn w)); [done|]. by rewrite lookup_insert_ne.
  - intros x Hx. destruct (view (conn w) !! wt); [done|].
    rewrite lookup_insert_ne; [done|]. by intros ->.
  - destruct (in_txn (conn w)); [by left|]. right.
    eexists. split; [apply lookup_insert_eq|].
    intros x Hx. destruct (view (conn w) !! wt); [done|].
    rewrite lookup_insert_ne; [done|]. by intros ->.
Qed.

Lemma changes_only_create_table (S : text → Prop) wt cols w :
  S wt → changes_only S w (final (create_table wt cols w)).
Proof.
  intros HS. destruct (create_table_outcome wt cols w) as [[e ->]|[t ->]].
  - apply changes_only_refl.
  - by apply changes_only_created.
Qed.

Lemma exec_insert_other oc tname vals db db' x :
  exec_insert oc tname vals db = Ok db' → x ≠ tname → db' !! x = db !! x.
Proof.
  unfold exec_insert. destruct (db !! tname) as [t|]; [|done].
  destruct (bool_decide _); [|done].
  destruct (violates t vals).
  - destruct oc; [done|]. by intros [= <-].
  - intros [= <-] Hx. by rewrite lookup_insert_ne.
Qed.

Lemma changes_only_view (S : text → Prop) w v b :
  (∀ x, ¬ S x → v !! x = view (conn w) !! x) →
  changes_only S w (World (files w) (stdout w) (Conn (path (conn w)) v b)).
Proof. intros H. split_and!; try done. by left. Qed.

Lemma changes_only_update (S : text → Prop) f w :
  (∀ db db' x, f db = Ok db' → ¬ S x → db' !! x = db !! x) →
  changes_only S w (final (update f w)).
Proof.
  intros Hf. unfold update.
  destruct (f (view (conn w))) as [v|e] eqn:E; [|apply changes_only_refl].
  apply changes_only_view. intros x Hx. by apply (Hf _ _ _ E).
Qed.

Lemma changes_only_query S {A} (f : database → result A) w :
  changes_only S w (final (query f w)).
Proof. unfold query. apply changes_only_lift. Qed.

Lemma changes_only_begin S w : changes_only S w (final (begin w)).
Proof. by apply changes_only_view. Qed.

Lemma changes_only_commit S w : changes_only S w (final (commit w)).
Proof.
  split_and!; cbn [commit final conn path view files]; try done.
  - intros q Hq. by rewrite lookup_insert_ne.
  - right. eexists. split; [apply lookup_insert_eq|done].
Qed.

Lemma changes_only_table_insert (S : text → Prop) tname params w :
  S tname → changes_only S w (final (table_insert tname params w)).
Proof.
  intros HS. unfold table_insert, execute_insert.
  apply changes_only_bind; [apply changes_only_query|]. intros _ w1.
  apply changes_only_bind; [apply changes_only_begin|]. intros _ w2.
  apply changes_only_bind; [apply changes_only_lift|]. intros vals w3.
  apply changes_only_update. intros db db' x E Hx.
  apply (exec_insert_other _ _ _ _ _ _ E). by intros ->.
Qed.

Lemma changes_only_insert_loop (S : text → Prop) wt
    (row_keys : text → result (list json)) ks w :
  S wt →
  changes_only S w
    (final (for_each ks (λ row, keys ← lift (row_keys row); table_insert wt keys) w)).
Proof.
  intros HS. apply changes_only_for_each. intros row w1.
  apply changes_only_bind; [apply changes_only_lift|]. intros keys w2.
  by apply changes_only_table_insert.
Qed.

Lemma foldM_exec_insert_other tname (g : sqlval → list sqlval) vals : ∀ db db' x,
  foldM (λ db v, exec_insert Abort tname (g v) db) db vals = Ok db' →
  x ≠ tname → db' !! x = db !! x.
Proof.
  induction vals as [|v vals IH]; intros db db' x; simpl.
  - by intros [= <-].
  - unfold mbind, result_bind.
    destruct (exec_insert Abort tname (g v) db) as [db1|] eqn:E; [|done].
    intros H Hx. rewrite (IH _ _ _ H Hx). by apply (exec_insert_other _ _ _ _ _ _ E).
Qed.

Lemma exec_insert_select_other tname col vals db db' x :
  exec_insert_select tname col vals db = Ok db' → x ≠ tname → db' !! x = db !! x.
Proof.
  unfold exec_insert_select. destruct (db !! tname) as [t|]; [|done].
  destruct (has_column _ _); [|done].
  apply (foldM_exec_insert_other tname
           (λ v, (λ c, if ieqb col c then v else VNull) <$> columns t)).
Qed.

Lemma changes_only_execute_lexicon (S : text → Prop) w :
  S (T "autocomplete_lexicon") → changes_only S w (final (execute_lexicon w)).
Proof.
  intros HS. unfold execute_lexicon.
  apply changes_only_bind; [apply changes_only_query|]. intros words w1.
  apply changes_only_bind; [apply changes_only_begin|]. intros _ w2.
  apply changes_only_update. intros db db' x E Hx.
  apply (exec_insert_select_other _ _ _ _ _ _ E). by intros ->.
Qed.

Lemma changes_only_load_nouns lang d w :
  changes_only (eq (T "nouns")) w (final (load_nouns lang d w)).
Proof.
  unfold load_nouns.
  apply changes_only_bind; [by apply changes_only_create_table|]. intros _ w1.
  apply changes_only_bind; [by apply changes_only_insert_loop|]. intros _ w2.
  apply changes_only_bind; [|intros _ w3; apply changes_only_commit].
  destruct (seeds_scribe lang d); [by apply changes_only_table_insert|].
  apply changes_only_refl.
Qed.

Lemma changes_only_load_verbs d w :
  changes_only (eq (T "verbs")) w (final (load_verbs d w)).
Proof.
  unfold load_verbs.
  apply changes_only_bind; [apply changes_only_lift|]. intros cols w0.
  apply changes_only_bind; [by apply changes_only_create_table|]. intros _ w1.
  apply changes_only_bind; [by apply changes_only_insert_loop|]. intros _ w2.
  apply changes_only_commit.
Qed.

Lemma changes_only_load_pairs wt cols d w :
  changes_only (eq wt) w (final (load_pairs wt cols d w)).
Proof.
  unfold load_pairs.
  apply changes_only_bind; [by apply changes_only_create_table|]. intros _ w1.
  apply changes_only_bind; [by apply changes_only_insert_loop|]. intros _ w2.
  apply changes_only_commit.
Qed.

Lemma changes_only_load_padded wt cols f d w :
  changes_only (eq wt) w (final (load_padded wt cols f d w)).
Proof.
  unfold load_padded.
  apply changes_only_bind; [by apply changes_only_create_table|]. intros _ w1.
  apply changes_only_bind;
    [by apply (changes_only_insert_loop _ wt (f cols d))|]. intros _ w2.
  apply changes_only_commit.
Qed.

Lemma changes_only_load_lexicon lang w :
  changes_only (eq (T "autocomplete_lexicon")) w (final (load_lexicon lang w)).
Proof.
  unfold load_lexicon.
  apply changes_only_bind; [apply changes_only_printed|]. intros _ w0.
  apply changes_only_bind; [by apply changes_only_create_table|]. intros _ w1.
  apply changes_only_bind; [by apply changes_only_execute_lexicon|]. intros _ w2.
  apply changes_only_commit.
Qed.

(** *** What is printed *)

Lemma quiet_bind {A B} (m : M A) (f : A → M B) w :
  (∀ w, stdout (final (m w)) = stdout w) →
  (∀ a w, stdout (final (f a w)) = stdout w) →
  stdout (final ((m ≫= f) w)) = stdout w.
Proof.
  intros Hm Hf. unfold mbind, M_bind. specialize (Hm w).
  destruct (m w) as [a w1|e w1]; [|done]. by rewrite Hf.
Qed.

Lemma quiet_for_each {A} (body : A → M unit) l w :
  (∀ x w, stdout (final (body x w)) = stdout w) →
  stdout (final (for_each l body w)) = stdout w.
Proof.
  intros Hbody. revert w. induction l as [|x l IH]; intros w; [done|].
  simpl. apply quiet_bind; [apply Hbody|]. intros _ w1. apply IH.
Qed.

Lemma quiet_lift {A} (r : result A) w : stdout (final (lift r w)) = stdout w.
Proof. by destruct r. Qed.

Lemma quiet_create_table wt cols w :
  stdout (final (create_table wt cols w)) = stdout w.
Proof. by destruct (create_table_outcome wt cols w) as [[e ->]|[t ->]]. Qed.

Lemma quiet_update f w : stdout (final (update f w)) = stdout w.
Proof. unfold update. by destruct (f _). Qed.

Lemma quiet_table_insert tname params w :
  stdout (final (table_insert tname params w)) = stdout w.
Proof.
  unfold table_insert, execute_insert.
  apply quiet_bind; [intros; apply quiet_lift|]. intros _ w1.
  apply quiet_bind; [done|]. intros _ w2.
  apply quiet_bind; [intros; apply quiet_lift|]. intros vals w3.
  apply quiet_update.
Qed.

Lemma quiet_insert_loop wt (row_keys : text → result (list json)) ks w :
  stdout (final (for_each ks (λ row, keys ← lift (row_keys row); table_insert wt keys) w))
  = stdout w.
Proof.
  apply quiet_for_each. intros row w1.
  apply quiet_bind; [intros; apply quiet_lift|]. intros. apply quiet_table_insert.
Qed.

Lemma quiet_load_nouns lang d w : stdout (final (load_nouns lang d w)) = stdout w.
Proof.
  unfold load_nouns.
  apply quiet_bind; [intros; apply quiet_create_table|]. intros _ w1.
  apply quiet_bind; [intros; apply quiet_insert_loop|]. intros _ w2.
  apply quiet_bind; [|done]. intros w3.
  destruct (seeds_scribe lang d); [apply quiet_table_insert|done].
Qed.

Lemma quiet_load_verbs d w : stdout (final (load_verbs d w)) = stdout w.
Proof.
  unfold load_verbs.
  apply quiet_bind; [intros; apply quiet_lift|]. intros cols w0.
  apply quiet_bind; [intros; apply quiet_create_table|]. intros _ w1.
  apply quiet_bind; [intros; apply quiet_insert_loop|]. done.
Qed.

Lemma quiet_load_pairs wt cols d w :
  stdout (final (load_pairs wt cols d w)) = stdout w.
Proof.
  unfold load_pairs.
  apply quiet_bind; [intros; apply quiet_create_table|]. intros _ w1.
  apply quiet_bind; [intros; apply quiet_insert_loop|]. done.
Qed.

Lemma quiet_load_padded wt cols f d w :
  stdout (final (load_padded wt cols f d w)) = stdout w.
Proof.
  unfold load_padded.
  apply quiet_bind; [intros; apply quiet_create_table|]. intros _ w1.
  apply quiet_bind; [intros; apply (quiet_insert_loop wt (f cols d))|]. done.
Qed.


(** *** The statement of [create_table] *)

Lemma split_by_nosep (p : N → bool) (s : text) :
  forallb (λ c, negb (p c)) s = true → split_by p s = [s].
Proof.
  induction s as [|c s IH]; [done|]. cbn [forallb split_by].
  intros [Hc Hs]%andb_prop. apply negb_true_iff in Hc. by rewrite Hc, IH.
Qed.

Lemma split_by_app_sep (p : N → bool) (a : text) c (b : text) :
  forallb (λ c, negb (p c)) a = true → p c = true →
  split_by p (a ++ c :: b) = a :: split_by p b.
Proof.
  intros Ha Hc. induction a as [|x a IH].
  - cbn [app split_by]. by rewrite Hc.
  - cbn [forallb] in Ha. apply andb_prop in Ha as [Hx Ha].
    apply negb_true_iff in Hx. cbn [app split_by]. by rewrite Hx, IH.
Qed.

Lemma word_char_spec c :
  word_char c = true → (c_comma =? c)%N = false ∧ is_space c = false.
Proof.
  unfold word_char, is_lower, is_upper, is_space, c_comma, c_underscore.
  rewrite !orb_true_iff, !andb_true_iff, !N.leb_le, !N.eqb_eq.
  intros H. split.
  - apply N.eqb_neq. lia.
  - rewrite !orb_false_iff, !N.eqb_neq. lia.
Qed.

Lemma plain_name_spec c :
  plain_name c = true →
  c ≠ [] ∧ forallb (λ x, negb (c_comma =? x)%N) c = true ∧
  forallb (λ x, negb (is_space x)) c = true.
Proof.
  unfold plain_name. intros [Hne Hall]%andb_prop. split; [by destruct c|].
  rewrite forallb_forall in Hall.
  split; apply forallb_forall; intros x Hx;
    destruct (word_char_spec x (Hall x Hx)) as [H1 H2]; by rewrite ?H1, ?H2.
Qed.

Lemma nosep_app (p : N → bool) (a b : text) :
  forallb (λ c, negb (p c)) a = true → forallb (λ c, negb (p c)) b = true →
  forallb (λ c, negb (p c)) (a ++ b) = true.
Proof. intros Ha Hb. by rewrite forallb_app, Ha, Hb. Qed.

(** The column definitions the statement lists, for one name per element. *)
Lemma comma_items_join c0 cols :
  Forall (λ c, plain_name c = true) (c0 :: cols) →
  comma_items (join (T " Text, ") (c0 :: cols) ++ T " Text")
  = (c0 ++ T " Text") :: ((λ c, T " " ++ c ++ T " Text") <$> cols).
Proof.
  unfold comma_items. revert c0. induction cols as [|c1 cols IH]; intros c0 Hall.
  - apply Forall_cons in Hall as [(_ & Hc & _)%plain_name_spec _].
    cbn [join fmap list_fmap]. apply split_by_nosep. by apply nosep_app.
  - apply Forall_cons in Hall as [(_ & Hc & _)%plain_name_spec Hall].
    change (join (T " Text, ") (c0 :: c1 :: cols))
      with (c0 ++ T " Text, " ++ join (T " Text, ") (c1 :: cols)).
    change (T " Text, ") with (T " Text" ++ [c_comma; c_space]) at 1.
    rewrite <- !app_assoc.
    change ([c_comma; c_space] ++ ?x) with (c_comma :: c_space :: x).
    rewrite (app_assoc c0 (T " Text")).
    rewrite split_by_app_sep; [|by apply nosep_app|done].
    cbn [split_by]. change (c_comma =? c_space)%N with false. cbv iota.
    rewrite (IH c1 Hall). reflexivity.
Qed.

Lemma words_name c : plain_name c = true → words c = [c].
Proof.
  intros (Hne & _ & Hs)%plain_name_spec. unfold words.
  rewrite split_by_nosep by done. by destruct c.
Qed.

Lemma column_def_name c :
  plain_name c = true →
  column_def (c ++ T " Text") = Ok c ∧ column_def (T " " ++ c ++ T " Text") = Ok c.
Proof.
  intros (Hne & _ & Hs)%plain_name_spec. unfold column_def, words.
  change (T " Text") with (c_space :: T "Text"). change (T " ") with [c_space].
  cbn [app split_by]. change (is_space c_space) with true. cbv iota.
  rewrite split_by_app_sep by done.
  change (split_by is_space (T "Text")) with [T "Text"].
  cbn [List.filter nonempty]. by destruct c.
Qed.

Lemma traverse_column_defs cols :
  Forall (λ c, plain_name c = true) cols →
  traverse column_def ((λ c, T " " ++ c ++ T " Text") <$> cols) = Ok cols.
Proof.
  induction 1 as [|c cols Hc _ IH]; [done|].
  cbn [fmap list_fmap traverse]. destruct (column_def_name c Hc) as [_ ->].
  cbn [mbind result_bind]. fold (fmap (M:=list) (λ c, T " " ++ c ++ T " Text") cols).
  by rewrite IH.
Qed.

Lemma parse_create_plain wt c0 cols :
  Forall (λ c, plain_name c = true) (c0 :: cols) →
  parse_create (CreateTable wt (join (T " Text, ") (c0 :: cols) ++ T " Text") c0)
  = Ok (Table (c0 :: cols) [c0] []).
Proof.
  intros Hall. unfold parse_create. cbn [ct_column_defs ct_unique].
  rewrite comma_items_join by done.
  pose proof Hall as [Hc0 Hcols]%Forall_cons.
  cbn [traverse]. destruct (column_def_name c0 Hc0) as [-> _].
  cbn [mbind result_bind]. rewrite traverse_column_defs by done.
  cbn [mbind result_bind].
  destruct (plain_name_spec c0 Hc0) as (_ & Hcomma & _).
  unfold comma_items. rewrite split_by_nosep by done.
  cbn [traverse]. unfold indexed_column. rewrite words_name by done.
  reflexivity.
Qed.

Lemma ieqb_refl a : ieqb a a = true.
Proof. unfold ieqb, text_eqb. by apply bool_decide_eq_true. Qed.

(** X1: With one plain name per element, the statement of [create_table]
    reads as the definition of a table with exactly these columns and a
    [UNIQUE] constraint on the first of them alone; the engine refuses it
    when two of the names are the same up to the case of ASCII letters.
    (Whether the engine takes each name for an identifier is left aside,
    as in [column_def].) *)
Theorem create_table_one_name_per_element wt c0 cols :
  Forall (λ c, plain_name c = true) (c0 :: cols) →
  ∃ st, create_table_statement wt (c0 :: cols) = Ok st ∧
        parse_create st = Ok (Table (c0 :: cols) [c0] []) ∧
        (distinct_names (c0 :: cols) = false →
           table_definition wt (c0 :: cols) = Raise OperationalError ∧
           ∀ w, view (conn w) !! wt = None →
                create_table wt (c0 :: cols) w = Raises OperationalError w).
Proof.
  intros Hall. eexists. split; [reflexivity|].
  pose proof (parse_create_plain wt c0 cols Hall) as Hparse.
  split; [exact Hparse|]. intros Hdup. split.
  - unfold table_definition. cbn [create_table_statement first mbind result_bind].
    rewrite Hparse. cbn [mbind result_bind]. unfold check_table.
    cbn [columns]. by rewrite Hdup.
  - intros w Hnone. unfold create_table.
    erewrite bind_returns; [|reflexivity].
    unfold execute_create, exec_create. rewrite Hparse.
    cbn [mbind result_bind ct_name]. rewrite Hnone.
    unfold check_table. cbn [columns]. by rewrite Hdup.
Qed.


(** *** Creating a table again, inserting a row again *)

(** X2: [IF NOT EXISTS]: once [create_table] has returned, calling it again
    for the same table changes nothing, whatever the columns it is given; it
    returns, or raises when the new statement does not read. *)
Theorem create_table_again wt cols cols' w w1 :
  create_table wt cols w = Returns () w1 →
  final (create_table wt cols' w1) = w1 ∧
  create_table wt cols w1 = Returns () w1.
Proof.
  intros Hrun.
  assert (is_Some (view (conn w1) !! wt) ∧
          (in_txn (conn w1) = false →
           files w1 !! path (conn w1) = Some (view (conn w1)))) as [[t Ht] Hdisk].
  { destruct (create_table_outcome wt cols w) as [[e He]|[t Ht]];
      [by rewrite He in Hrun|].
    rewrite Ht in Hrun. injection Hrun as <-. unfold created.
    cbn [conn view in_txn files path]. split.
    - destruct (view (conn w) !! wt) eqn:E; [by rewrite E|].
      rewrite lookup_insert_eq. eauto.
    - intros ->. apply lookup_insert_eq. }
  assert (∀ st t0, ct_name st = wt → parse_create st = Ok t0 →
                   execute_create st w1 = Returns () w1) as Hexec.
  { intros st t0 Hname Hparse. unfold execute_create, exec_create.
    rewrite Hparse, Hname, Ht. cbn [mbind result_bind].
    destruct w1 as [fs out [p v b]]. cbn [conn in_txn path view files stdout] in *.
    destruct b; [done|]. by rewrite insert_id by by apply Hdisk. }
  split.
  - unfold create_table.
    destruct (create_table_statement wt cols') as [st|e] eqn:Hst; [|done].
    erewrite bind_returns; [|by apply lift_ok].
    destruct (parse_create st) as [t0|e] eqn:Hparse.
    + by rewrite (Hexec st t0 (create_table_statement_name _ _ _ Hst) Hparse).
    + unfold execute_create, exec_create. by rewrite Hparse.
  - revert Hrun. unfold create_table.
    destruct (create_table_statement wt cols) as [st|e] eqn:Hst; [|done].
    erewrite !bind_returns; [|by apply lift_ok..].
    destruct (parse_create st) as [t0|e] eqn:Hparse.
    + intros _.
      apply (Hexec st t0 (create_table_statement_name _ _ _ Hst) Hparse).
    + unfold execute_create, exec_create. by rewrite Hparse.
Qed.

Lemma col_index_lt u cols i : col_index u cols = Some i → i < length cols.
Proof.
  revert i. induction cols as [|c cols IH]; intros i; [done|].
  cbn [col_index]. destruct (ieqb u c); [intros [= <-]; simpl; lia|].
  destruct (col_index u cols) as [j|]; [|done].
  intros [= <-]. specialize (IH j eq_refl). simpl. lia.
Qed.

Lemma same_key_refl k : Forall (λ v, v ≠ VNull) k → same_key k k = true.
Proof.
  induction 1 as [|v k Hv _ IH]; [done|].
  destruct v as [|s]; [done|]. cbn [same_key]. rewrite IH.
  unfold text_eqb. by rewrite bool_decide_eq_true_2.
Qed.

Lemma same_key_null k1 k2 : VNull ∈ k2 → same_key k1 k2 = false.
Proof.
  revert k1. induction k2 as [|v k2 IH]; intros k1 Hin; [by inversion Hin|].
  destruct k1 as [|[|a] k1]; [done..|].
  destruct v as [|b]; [done|]. cbn [same_key].
  apply elem_of_cons in Hin as [|Hin]; [done|].
  by rewrite IH, andb_false_r.
Qed.

Lemma bind_param_strings keys :
  Forall (λ k, ∃ s, k = JStr s) keys →
  ∃ vals, traverse bind_param keys = Ok vals ∧ Forall (λ v, v ≠ VNull) vals.
Proof.
  induction 1 as [|k keys [s ->] _ (vals & IH & Hvals)]; [by exists []|].
  exists (VText s :: vals). cbn [traverse bind_param mbind result_bind].
  rewrite IH. split; [done|]. by constructor.
Qed.

Lemma key_of_no_null t vals :
  forallb (has_column (columns t)) (unique_on t) = true →
  length vals = length (columns t) →
  Forall (λ v, v ≠ VNull) vals →
  Forall (λ v, v ≠ VNull) (key_of t vals).
Proof.
  intros Hcols Hlen Hvals. unfold key_of. apply Forall_fmap, Forall_forall.
  intros u Hu. rewrite forallb_forall in Hcols.
  specialize (Hcols u (proj1 (list_elem_of_In _ _) Hu)).
  unfold has_column in Hcols. cbn.
  destruct (col_index u (columns t)) as [i|] eqn:E; [|done].
  apply col_index_lt in E. unfold cell.
  destruct (vals !! i) as [v|] eqn:Ev.
  - cbn. rewrite Forall_forall in Hvals. apply Hvals.
    by apply list_elem_of_lookup_2 in Ev.
  - apply lookup_ge_None in Ev. lia.
Qed.

Lemma violates_after_add t vals :
  unique_on t ≠ [] →
  forallb (has_column (columns t)) (unique_on t) = true →
  length vals = length (columns t) →
  Forall (λ v, v ≠ VNull) vals →
  violates (insert_or_ignore t vals) vals = true.
Proof.
  intros Hu Hcols Hlen Hvals. unfold insert_or_ignore.
  destruct (violates t vals) eqn:Hv; [done|].
  unfold violates, add_row. cbn [unique_on rows].
  destruct (unique_on t) as [|u us] eqn:E; [done|].
  apply existsb_exists. exists vals. split; [apply in_or_app; right; left; done|].
  apply same_key_refl. unfold key_of. cbn [columns unique_on].
  rewrite <- E in *. by apply (key_of_no_null t vals).
Qed.

(** X3: [INSERT OR IGNORE]: on a table whose [UNIQUE] constraint names
    columns it has, inserting a row of strings a second time changes nothing
    and raises nothing. *)
Theorem table_insert_again wt keys t w w1 :
  view (conn w) !! wt = Some t →
  unique_on t ≠ [] →
  forallb (has_column (columns t)) (unique_on t) = true →
  Forall (λ k, ∃ s, k = JStr s) keys →
  table_insert wt keys w = Returns () w1 →
  table_insert wt keys w1 = Returns () w1.
Proof.
  intros Ht Hu Hcols Hkeys Hrun.
  destruct (bind_param_strings keys Hkeys) as (vals & Hvals & Hnn).
  assert (length keys = length (columns t)) as Hlen.
  { revert Hrun. unfold table_insert, execute_insert.
    unfold mbind at 1, M_bind at 1, query, prepared_insert. rewrite Ht.
    case_bool_decide; done. }
  unfold table_insert in *.
  rewrite (execute_insert_returns w wt t keys vals Ht Hvals Hlen) in Hrun.
  injection Hrun as <-.
  erewrite (execute_insert_returns _ wt (insert_or_ignore t vals) keys vals);
    [|cbn [conn view]; apply lookup_insert_eq|done
     |by rewrite columns_insert_or_ignore].
  cbn [files stdout conn path view]. do 3 f_equal.
  rewrite insert_insert_eq. f_equal.
  unfold insert_or_ignore at 1.
  rewrite violates_after_add; [done..| |done].
  by rewrite (traverse_length _ _ _ Hvals).
Qed.

(** X4: A row that has [None] in a column of the [UNIQUE] constraint
    collides with no row: it is stored whatever the table holds, so also
    when the same row is there already. *)
Theorem table_insert_none_in_key wt keys vals t u i w :
  view (conn w) !! wt = Some t →
  length keys = length (columns t) →
  traverse bind_param keys = Ok vals →
  u ∈ unique_on t → col_index u (columns t) = Some i → keys !! i = Some JNull →
  table_insert wt keys w =
  Returns () (World (files w) (stdout w)
                (Conn (path (conn w)) (<[wt := add_row t vals]> (view (conn w))) true)).
Proof.
  intros Ht Hlen Hvals Hu Hi Hnull. unfold table_insert.
  rewrite (execute_insert_returns w wt t keys vals Ht Hvals Hlen).
  do 4 f_equal. unfold insert_or_ignore.
  assert (violates t vals = false) as ->; [|done].
  unfold violates. destruct (unique_on t) as [|u0 us] eqn:E; [done|].
  apply not_true_is_false.
  intros (r & _ & Hk)%existsb_exists.
  rewrite same_key_null in Hk; [done|].
  unfold key_of. apply list_elem_of_fmap. exists u. split; [|by rewrite E].
  rewrite Hi. unfold cell.
  assert (vals !! i = Some VNull) as ->; [|done].
  clear -Hvals Hnull. revert i vals Hvals Hnull.
  induction keys as [|k keys IH]; intros i vals Hvals Hnull; [done|].
  apply traverse_cons_ok in Hvals as (v & vs & Hv & Hvs & ->).
  destruct i as [|i]; cbn in *.
  - injection Hnull as ->. by injection Hv as <-.
  - by apply IH.
Qed.

(** A row with more or fewer values than the table has columns is
    refused with [OperationalError], before anything is changed. *)
Lemma table_insert_wrong_length wt keys t w :
  view (conn w) !! wt = Some t →
  length keys ≠ length (columns t) →
  table_insert wt keys w = Raises OperationalError w.
Proof.
  intros Ht Hlen. unfold table_insert, execute_insert.
  apply bind_raises. unfold query, prepared_insert. rewrite Ht.
  by rewrite bool_decide_eq_false_2.
Qed.

(** *** A word type that fails *)

Lemma parse_create_rows st t : parse_create st = Ok t → rows t = [].
Proof.
  unfold parse_create, mbind, result_bind.
  destruct (traverse column_def _); [|done].
  destruct (traverse indexed_column _); [|done]. by intros [= <-].
Qed.

Lemma check_table_same t t' : check_table t = Ok t' → t' = t.
Proof.
  unfold check_table. destruct (negb (distinct_names _)); [done|].
  destruct (negb (forallb _ _)); [done|]. by intros [= <-].
Qed.

Lemma table_definition_rows wt cols t : table_definition wt cols = Ok t → rows t = [].
Proof.
  unfold table_definition, mbind, result_bind.
  destruct (create_table_statement wt cols) as [st|]; [|done].
  destruct (parse_create st) as [t0|] eqn:E; [|done].
  intros ->%check_table_same. by apply parse_create_rows in E.
Qed.

Lemma create_table_cases wt cols w :
  (∃ e, create_table wt cols w = Raises e w) ∨
  (∃ t, rows t = [] ∧ create_table wt cols w = Returns () (created wt t w)).
Proof.
  unfold create_table.
  destruct (create_table_statement wt cols) as [st|e] eqn:Hst;
    [|left; exists e; by apply bind_raises, lift_raise].
  erewrite bind_returns; [|by apply lift_ok].
  unfold execute_create, exec_create.
  rewrite (create_table_statement_name _ _ _ Hst).
  destruct (parse_create st) as [t|e] eqn:Hparse; [|left; by exists e].
  apply parse_create_rows in Hparse.
  cbn [mbind result_bind]. unfold created.
  destruct (view (conn w) !! wt).
  - right. exists t. split; [done|]. by destruct (in_txn (conn w)).
  - destruct (check_table t) as [t'|e] eqn:Hcheck; [|left; by exists e].
    apply check_table_same in Hcheck as ->.
    right. exists t. split; [done|]. cbn [mbind result_bind].
    by destruct (in_txn (conn w)).
Qed.

Lemma same_files_trans w1 w2 w3 : same_files w1 w2 → same_files w2 w3 → same_files w1 w3.
Proof. intros [? ?] [? ?]. split; congruence. Qed.

Lemma raises_same_files_seq (m : M unit) (k : M unit) :
  (∀ w, same_files w (final (m w))) →
  (∀ w e w', k w = Raises e w' → same_files w w') →
  ∀ w e w', (_ ← m; k) w = Raises e w' → same_files w w'.
Proof.
  intros Hm Hk w e w'. unfold mbind, M_bind. specialize (Hm w).
  destruct (m w) as [[] w1|e1 w1].
  - intros H. eapply same_files_trans; [exact Hm|]. by eapply Hk.
  - by intros [= <- <-].
Qed.

Lemma commit_never_raises w e w' : commit w = Raises e w' → same_files w w'.
Proof. done. Qed.

Lemma disk_consistent w : consistent w → disk w = view (conn w).
Proof. intros [_ H]. unfold disk. by rewrite H. Qed.

Lemma create_then_rows_raises wt cols (rest : M unit) w e w' :
  consistent w →
  (∀ w1 e w', rest w1 = Raises e w' → same_files w1 w') →
  (_ ← create_table wt cols; rest) w = Raises e w' →
  disk w' = disk w ∨ ∃ t, rows t = [] ∧ disk w' = <[wt := t]> (disk w).
Proof.
  intros Hw Hrest.
  destruct (create_table_cases wt cols w) as [[e0 He]|(t & Hrows & Ht)].
  - erewrite bind_raises; [|exact He]. intros [= <- <-]. by left.
  - erewrite bind_returns; [|exact Ht]. intros Hrun.
    rewrite (disk_same_files _ _ (Hrest _ _ _ Hrun)).
    rewrite (disk_consistent w Hw). destruct Hw as [Htxn Hdisk].
    unfold disk, created. cbn [files conn path]. rewrite Htxn, lookup_insert_eq.
    cbn. destruct (view (conn w) !! wt); [by left|]. right. by exists t.
Qed.

Ltac rows_then_commit :=
  repeat (apply raises_same_files_seq;
          [intros; first [apply insert_loop_same_files
                         |apply execute_insert_same_files]|]);
  apply commit_never_raises.

Lemma load_nouns_raises lang d w e w' :
  consistent w → load_nouns lang d w = Raises e w' →
  disk w' = disk w ∨ ∃ t, rows t = [] ∧ disk w' = <[T "nouns" := t]> (disk w).
Proof.
  intros Hw. unfold load_nouns. apply create_then_rows_raises; [done|].
  apply raises_same_files_seq; [intros; apply insert_loop_same_files|].
  apply raises_same_files_seq; [|apply commit_never_raises].
  intros w1. destruct (seeds_scribe lang d); [apply execute_insert_same_files|done].
Qed.

Lemma load_verbs_raises d w e w' :
  consistent w → load_verbs d w = Raises e w' →
  disk w' = disk w ∨ ∃ t, rows t = [] ∧ disk w' = <[T "verbs" := t]> (disk w).
Proof.
  intros Hw. unfold load_verbs.
  destruct (verbs_cols d) as [cols|e0].
  - erewrite bind_returns; [|by apply lift_ok].
    apply create_then_rows_raises; [done|]. rows_then_commit.
  - erewrite bind_raises; [|by apply lift_raise]. intros [= <- <-]. by left.
Qed.

Lemma load_pairs_raises wt cols d w e w' :
  consistent w → load_pairs wt cols d w = Raises e w' →
  disk w' = disk w ∨ ∃ t, rows t = [] ∧ disk w' = <[wt := t]> (disk w).
Proof.
  intros Hw. unfold load_pairs.
  apply create_then_rows_raises; [done|]. rows_then_commit.
Qed.

Lemma load_padded_raises wt cols f d w e w' :
  consistent w → load_padded wt cols f d w = Raises e w' →
  disk w' = disk w ∨ ∃ t, rows t = [] ∧ disk w' = <[wt := t]> (disk w).
Proof.
  intros Hw. unfold load_padded.
  apply create_then_rows_raises; [done|].
  apply raises_same_files_seq;
    [intros; apply (insert_loop_same_files wt (f cols d))|].
  apply commit_never_raises.
Qed.


(** *** A word type that loads *)

Lemma getitem_NoDup (d : dict) k v :
  NoDup (keys d) → (k, v) ∈ d → getitem d k = Ok v.
Proof.
  induction d as [|[k' v'] d IH]; [by inversion 2|].
  cbn [keys fmap list_fmap fst getitem]. intros [Hk' Hnd]%NoDup_cons Hin.
  unfold text_eqb. destruct (bool_decide_reflect (k = k')) as [->|Hne].
  - apply elem_of_cons in Hin as [[= ->]|Hin]; [done|].
    exfalso. apply Hk'. apply list_elem_of_fmap. by exists (k', v).
  - apply elem_of_cons in Hin as [[= -> ->]|Hin]; [done|]. by apply IH.
Qed.

(** The rows of a table made by [create_table] and filled by the loop
    over the entries, when every entry maps to a row of the table's
    width that starts with its key. *)
Lemma rows_loaded wt cols t (row_keys : text → result (list json)) ks w vss :
  table_definition wt cols = Ok t → head_keyed t →
  view (conn w) !! wt = None →
  NoDup ks →
  traverse (row_values row_keys) ks = Ok vss →
  Forall (λ vs, length vs = length (columns t)) vss →
  (λ r, cell r 0) <$> vss = VText <$> ks →
  ∃ w',
    (_ ← create_table wt cols;
     _ ← for_each ks (λ row, keys ← lift (row_keys row); table_insert wt keys);
     commit) w = Returns () w' ∧
    consistent w' ∧
    view (conn w') = <[wt := Table (columns t) (unique_on t) vss]> (view (conn w)).
Proof.
  intros Hdef Hk Hnone Hnd Hvss Hlen Hheads.
  pose proof (table_definition_rows _ _ _ Hdef) as Hrows.
  erewrite bind_returns; [|by apply create_table_returns].
  set (w1 := created wt t w).
  assert (view (conn w1) !! wt = Some t) as Hw1.
  { unfold w1, created. cbn [conn view]. by rewrite Hnone, lookup_insert_eq. }
  destruct (insert_loop_returns wt row_keys ks w1 t vss Hw1 Hvss Hlen)
    as (w2 & Hrun & Hf2 & Ho2 & Hp2 & Hv2).
  erewrite bind_returns; [|exact Hrun].
  eexists. split; [reflexivity|]. split.
  { split; [done|]. cbn [commit conn files path view]. apply lookup_insert_eq. }
  cbn [commit conn view]. rewrite Hv2. unfold w1, created. cbn [conn view].
  rewrite Hnone, insert_insert_eq. f_equal.
  assert (rows (insert_all t vss) = vss) as Hall.
  { rewrite rows_insert_all_fresh; [by rewrite Hrows| done |].
    rewrite Hrows. cbn [app]. rewrite Hheads.
    apply NoDup_fmap; [|done]. by intros ?? [= ->]. }
  pose proof (columns_insert_all t vss) as Hc.
  pose proof (unique_on_insert_all t vss) as Hu.
  destruct (insert_all t vss) as [c u r]. cbn in *. by subst.
Qed.

(** **** prepositions and translations *)

Lemma pair_rows (d : dict) (items : list (text * json)) :
  NoDup (keys d) → (∀ kv, kv ∈ items → kv ∈ d) →
  Forall (λ kv, kv.2 = JNull ∨ ∃ s, kv.2 = JStr s) items →
  ∃ vss, traverse (row_values (pair_keys d)) (items.*1) = Ok vss ∧
         Forall2 (λ kv r, ∃ v, bind_param kv.2 = Ok v ∧ r = [VText kv.1; v])
           items vss.
Proof.
  intros Hnd. induction items as [|[k v] items IH]; intros Hsub Hall.
  - exists []. by split.
  - apply Forall_cons in Hall as [Hv Hall].
    destruct IH as (vss & Hvss & H2); [intros; apply Hsub; by right|done|].
    assert (∃ x, bind_param v = Ok x) as [x Hx].
    { cbn in Hv. destruct Hv as [->|[s ->]]; by eexists. }
    exists ([VText k; x] :: vss). split.
    + assert (row_values (pair_keys d) k = Ok [VText k; x]) as Hrow.
      { unfold row_values, pair_keys.
        rewrite (getitem_NoDup d k v Hnd) by (apply Hsub; left).
        cbn [mbind result_bind traverse bind_param]. by rewrite Hx. }
      cbn [fmap list_fmap fst traverse]. rewrite Hrow. cbn [mbind result_bind].
      fold (fmap (M:=list) (@fst text json) items). by rewrite Hvss.
    + constructor; [|done]. by exists x.
Qed.

Lemma Forall2_pair_rows (items : list (text * json)) vss :
  Forall2 (λ kv r, ∃ v, bind_param kv.2 = Ok v ∧ r = [VText kv.1; v]) items vss →
  Forall (λ vs, length vs = 2) vss ∧
  (λ r, cell r 0) <$> vss = VText <$> items.*1.
Proof.
  induction 1 as [|[k v] r items vss (x & _ & ->) _ [IH1 IH2]]; [done|].
  split; [by constructor|]. cbn. f_equal. exact IH2.
Qed.

Lemma pairs_table_definitions :
  table_definition (T "prepositions") prepositions_cols
    = Ok (Table [T "preposition"; T "form"] [T "preposition"; T "form"] []) ∧
  table_definition (T "translations") translations_cols
    = Ok (Table [T "word"; T "translation"] [T "word"; T "translation"] []).
Proof. split; vm_compute; reflexivity. Qed.

(** X5: Loading prepositions or translations into a database that has no
    such table stores the items of the JSON object, one row for each key in
    the order of the file, and commits them. A key that the file repeats is
    one row, with its last value. *)
Theorem pairs_stored_one_row_per_key wt cols members w :
  (wt = T "prepositions" ∧ cols = prepositions_cols) ∨
  (wt = T "translations" ∧ cols = translations_cols) →
  view (conn w) !! wt = None →
  Forall (λ kv, kv.2 = JNull ∨ ∃ s, kv.2 = JStr s) (json_load members) →
  ∃ w' t,
    load_pairs wt cols (json_load members) w = Returns () w' ∧
    disk w' !! wt = Some t ∧
    Forall2 (λ kv r, ∃ v, bind_param kv.2 = Ok v ∧ r = [VText kv.1; v])
      (json_load members) (rows t) ∧
    NoDup ((λ r, cell r 0) <$> rows t).
Proof.
  intros Hwt Hnone Hall.
  pose proof (NoDup_keys_json_load members) as Hnd.
  destruct (pair_rows (json_load members) (json_load members) Hnd) as (vss & Hvss & H2);
    [done..|].
  destruct (Forall2_pair_rows _ _ H2) as [Hlen Hheads].
  assert (∃ t, table_definition wt cols = Ok t ∧ head_keyed t ∧
               length (columns t) = 2) as (t & Hdef & Hk & Hw).
  { destruct pairs_table_definitions as [Hp Ht].
    destruct Hwt as [[-> ->]|[-> ->]]; eexists; (split; [eassumption|]);
      (split; [|done]).
    - exists (T "preposition"), [T "form"]. by split.
    - exists (T "word"), [T "translation"]. by split. }
  destruct (rows_loaded wt cols t (pair_keys (json_load members))
              (keys (json_load members)) w vss Hdef Hk Hnone Hnd Hvss)
    as (w' & Hrun & Hc & Hv).
  { by rewrite Hw. }
  { exact Hheads. }
  exists w', (Table (columns t) (unique_on t) vss). split; [exact Hrun|].
  rewrite (disk_consistent _ Hc), Hv, lookup_insert_eq.
  split; [done|]. split; [exact H2|].
  cbn [rows]. rewrite Hheads. apply NoDup_fmap; [|done]. by intros ?? [= ->].
Qed.


(** **** autosuggestions and emoji_keywords *)

Lemma bind_param_texts (l : list text) :
  traverse bind_param (JStr <$> l) = Ok (VText <$> l).
Proof.
  induction l as [|s l IH]; [done|].
  cbn [fmap list_fmap traverse bind_param mbind result_bind].
  fold (fmap (M:=list) JStr l). by rewrite IH.
Qed.

Lemma traverse_app {A B} (f : A → result B) l1 l2 ys1 ys2 :
  traverse f l1 = Ok ys1 → traverse f l2 = Ok ys2 →
  traverse f (l1 ++ l2) = Ok (ys1 ++ ys2).
Proof.
  revert ys1. induction l1 as [|x l1 IH]; intros ys1.
  - by intros [= <-].
  - intros (y & ys' & Hx & Hl1 & ->)%traverse_cons_ok H2.
    cbn [app traverse]. rewrite Hx. cbn [mbind result_bind].
    by rewrite (IH _ Hl1 H2).
Qed.

Lemma bind_param_padded cols k (l : list text) :
  traverse bind_param (pad cols (JStr k :: (JStr <$> l)))
  = Ok (VText k :: (VText <$> l)
          ++ replicate (length cols - S (length l)) (VText [])).
Proof.
  unfold pad. cbn [length]. rewrite length_fmap.
  change (JStr k :: (JStr <$> l)) with (JStr <$> k :: l).
  change (VText k :: (VText <$> l) ++ ?r) with ((VText <$> k :: l) ++ r).
  apply traverse_app; [apply bind_param_texts|].
  induction (length cols - S (length l)) as [|n IH]; [done|].
  cbn [replicate traverse bind_param mbind result_bind]. by rewrite IH.
Qed.

(** The rows of a table of four columns, for entries that each map to
    their key followed by at most three texts. *)
Lemma padded_rows cols (row_keys : text → result (list json))
    (items : list (text * list text)) :
  length cols = 4 →
  Forall (λ kl, length kl.2 ≤ 3 ∧
                row_keys kl.1 = Ok (pad cols (JStr kl.1 :: (JStr <$> kl.2)))) items →
  let row kl := VText kl.1 :: (VText <$> kl.2)
                  ++ replicate (3 - length kl.2) (VText []) in
  traverse (row_values row_keys) (items.*1) = Ok (row <$> items) ∧
  Forall (λ vs, length vs = 4) (row <$> items) ∧
  (λ r, cell r 0) <$> (row <$> items) = VText <$> items.*1.
Proof.
  intros Hcols Hall row. induction Hall as [|[k l] items [Hl Hk] _ (IH1 & IH2 & IH3)].
  - by split.
  - cbn [fst snd] in Hk, Hl. split_and!.
    + cbn [fmap list_fmap fst traverse].
      assert (row_values row_keys k = Ok (row (k, l))) as ->.
      { unfold row_values. rewrite Hk. cbn [mbind result_bind].
        rewrite bind_param_padded, Hcols. reflexivity. }
      cbn [mbind result_bind].
      fold (fmap (M:=list) (@fst text (list text)) items).
      fold (fmap (M:=list) row items). by rewrite IH1.
    + constructor; [|exact IH2]. unfold row. cbn.
      rewrite length_app, length_fmap, length_replicate. lia.
    + cbn. f_equal. exact IH3.
Qed.

Lemma padded_table_definitions :
  table_definition (T "autosuggestions") autosuggestions_cols
    = Ok (Table autosuggestions_cols [T "word"] []) ∧
  table_definition (T "emoji_keywords") emoji_keywords_cols
    = Ok (Table emoji_keywords_cols [T "word"] []).
Proof. split; vm_compute; reflexivity. Qed.

Lemma padded_loaded wt cols f (d : dict) (items : list (text * list text)) w :
  table_definition wt cols = Ok (Table cols [T "word"] []) →
  nth_error cols 0 = Some (T "word") → length cols = 4 →
  view (conn w) !! wt = None →
  NoDup (keys d) → items.*1 = keys d →
  Forall (λ kl, length kl.2 ≤ 3 ∧
                f cols d kl.1 = Ok (pad cols (JStr kl.1 :: (JStr <$> kl.2)))) items →
  ∃ w' t,
    load_padded wt cols f d w = Returns () w' ∧
    disk w' !! wt = Some t ∧
    rows t = (λ kl, VText kl.1 :: (VText <$> kl.2)
                      ++ replicate (3 - length kl.2) (VText [])) <$> items.
Proof.
  intros Hdef Hhead Hlen Hnone Hnd Hkeys Hall.
  destruct (padded_rows cols (f cols d) items Hlen Hall) as (Hvss & Hw & Hheads).
  rewrite Hkeys in Hvss, Hheads.
  edestruct (rows_loaded wt cols (Table cols [T "word"] []) (f cols d) (keys d) w)
    as (w' & Hrun & Hc & Hv); [exact Hdef| |done|done|exact Hvss| |exact Hheads|].
  { exists (T "word"), []. split; [done|].
    destruct cols as [|c cols]; [done|]. injection Hhead as ->.
    cbn [columns col_index]. by rewrite ieqb_refl. }
  { cbn [columns]. by rewrite Hlen. }
  eexists w', _. split; [exact Hrun|].
  rewrite (disk_consistent _ Hc), Hv, lookup_insert_eq. done.
Qed.

(** X6: Loading autosuggestions into a database that has no such table, when
    every value is a list of at most three strings: the table has one row of
    four values for each key, in the order of the file, the key followed by
    its suggestions and by empty strings up to three. *)
Theorem autosuggestions_stored_padded members (items : list (text * list text)) w :
  json_load members = (λ kl, (kl.1, JList (JStr <$> kl.2))) <$> items →
  Forall (λ kl, length kl.2 ≤ 3) items →
  view (conn w) !! T "autosuggestions" = None →
  ∃ w' t,
    load_padded (T "autosuggestions") autosuggestions_cols autosuggestions_keys
      (json_load members) w = Returns () w' ∧
    disk w' !! T "autosuggestions" = Some t ∧
    rows t = (λ kl, VText kl.1 :: (VText <$> kl.2)
                      ++ replicate (3 - length kl.2) (VText [])) <$> items.
Proof.
  intros Hd Hlen Hnone.
  pose proof (NoDup_keys_json_load members) as Hnd.
  apply padded_loaded; [apply padded_table_definitions|done..| | |].
  - exact Hnd.
  - rewrite Hd. unfold keys. rewrite <- list_fmap_compose. done.
  - apply Forall_forall. intros [k l] Hin. cbn [fst snd]. split.
    { rewrite Forall_forall in Hlen. by apply (Hlen (k, l)). }
    unfold autosuggestions_keys.
    rewrite (getitem_NoDup _ k (JList (JStr <$> l)) Hnd).
    + reflexivity.
    + rewrite Hd. apply list_elem_of_fmap. by exists (k, l).
Qed.

Lemma for_each_raises_under {A} (P : world → Prop) (body : A → M unit) l x w :
  x ∈ l → P w →
  (∀ y w w', P w → body y w = Returns () w' → P w') →
  (∀ w, P w → returned (body x w) = false) →
  returned (for_each l body w) = false.
Proof.
  intros Hin Hw Hkeep Hx. revert w Hw.
  induction l as [|y l IH]; intros w Hw; [by inversion Hin|].
  simpl. unfold mbind, M_bind.
  destruct (body y w) as [[] w'|e w'] eqn:E; [|done].
  apply elem_of_cons in Hin as [->|Hin].
  - specialize (Hx w Hw). by rewrite E in Hx.
  - apply IH; [done|]. by apply (Hkeep y w).
Qed.

Lemma table_insert_width wt n keys w w' :
  (∃ t, view (conn w) !! wt = Some t ∧ length (columns t) = n) →
  table_insert wt keys w = Returns () w' →
  ∃ t, view (conn w') !! wt = Some t ∧ length (columns t) = n.
Proof.
  intros (t & Ht & Hn). unfold table_insert, execute_insert.
  unfold mbind, M_bind, query, lift, begin, update, prepared_insert.
  cbn [conn view path in_txn files stdout]. rewrite Ht.
  case_bool_decide; [|done]. cbn [conn view path in_txn files stdout].
  destruct (traverse bind_param keys) as [vals|]; [|done].
  unfold exec_insert. cbn [conn view path in_txn files stdout].
  rewrite Ht. case_bool_decide; [|done].
  destruct (violates t vals); intros [= <-]; cbn [conn view].
  - by exists t.
  - rewrite lookup_insert_eq. by exists (add_row t vals).
Qed.

Lemma padded_row_too_long wt (row_keys : text → result (list json)) ks row w :
  row ∈ ks →
  (∃ t, view (conn w) !! wt = Some t ∧ length (columns t) = 4) →
  (∀ js, row_keys row = Ok js → 4 < length js) →
  returned (for_each ks (λ row, keys ← lift (row_keys row); table_insert wt keys) w)
  = false.
Proof.
  intros Hin Hw Hlong.
  apply (for_each_raises_under
           (λ w, ∃ t, view (conn w) !! wt = Some t ∧ length (columns t) = 4) _ _ row);
    [done..| |].
  - intros y w1 w2 Hw1. unfold mbind, M_bind, lift.
    destruct (row_keys y) as [js|]; [|done]. by apply table_insert_width.
  - intros w1 (t & Ht & Hn). unfold mbind, M_bind, lift.
    destruct (row_keys row) as [js|] eqn:E; [|done].
    rewrite (table_insert_wrong_length wt js t w1 Ht); [done|].
    specialize (Hlong js eq_refl). lia.
Qed.

(** X7: An entry of autosuggestions or emoji_keywords with more than three
    elements is not cut to three: its row has one value for each element
    after the key, more than the table has columns, so the insertion is
    refused and the word type does not load. *)
Theorem more_than_three_elements_fail wt cols f d row e els w :
  (wt = T "autosuggestions" ∧ cols = autosuggestions_cols ∧
   f = autosuggestions_keys) ∨
  (wt = T "emoji_keywords" ∧ cols = emoji_keywords_cols ∧
   f = emoji_keywords_keys) →
  view (conn w) !! wt = None →
  row ∈ keys d → getitem d row = Ok e → elements e = Ok els → 3 < length els →
  (∀ js, f cols d row = Ok js → length js = S (length els)) ∧
  returned (load_padded wt cols f d w) = false.
Proof.
  intros Hwt Hnone Hrow He Hels Hlen.
  assert (∃ t, table_definition wt cols = Ok t ∧ length (columns t) = 4 ∧
               ∀ js, f cols d row = Ok js → length js = S (length els))
    as (t & Hdef & Hw & Hlong).
  { destruct padded_table_definitions as [Ha Hk].
    destruct Hwt as [(-> & -> & ->)|(-> & -> & ->)]; eexists;
      (split; [eassumption|]); (split; [done|]); intros js.
    - unfold autosuggestions_keys. rewrite He. cbn [mbind result_bind].
      rewrite Hels. cbn [mbind result_bind]. intros [= <-].
      unfold pad. rewrite length_app, length_replicate. cbn [app length].
      change (length autosuggestions_cols) with 4. lia.
    - unfold emoji_keywords_keys. rewrite He. cbn [mbind result_bind].
      rewrite Hels. cbn [mbind result_bind].
      destruct (traverse _ els) as [emojis|] eqn:E; [|done].
      apply traverse_length in E. cbn [mbind result_bind]. intros [= <-].
      unfold pad. rewrite length_app, length_replicate. cbn [app length].
      change (length emoji_keywords_cols) with 4. lia. }
  split; [exact Hlong|].
  unfold load_padded.
  erewrite bind_returns; [|by apply create_table_returns].
  assert (∃ t', view (conn (created wt t w)) !! wt = Some t' ∧
                length (columns t') = 4) as Hw1.
  { exists t. unfold created. cbn [conn view]. by rewrite Hnone, lookup_insert_eq. }
  assert (returned (for_each (keys d)
            (λ row, keys ← lift (f cols d row); table_insert wt keys)
            (created wt t w)) = false) as Hloop.
  { apply (padded_row_too_long wt (f cols d) (keys d) row); [done..|].
    intros js Hjs. rewrite (Hlong js Hjs). lia. }
  unfold mbind, M_bind.
  by destruct (for_each _ _ _) as [[] ?|].
Qed.

(** **** emoji_keywords *)

Lemma Forall_exists_Forall2 {A B} (P : A → B → Prop) (l : list A) :
  Forall (λ a, ∃ b, P a b) l → ∃ l', Forall2 P l l'.
Proof.
  induction 1 as [|a l [b Hb] _ [l' IH]]; [by exists []|].
  exists (b :: l'). by constructor.
Qed.

Lemma elem_of_zip_keys (d : dict) (ls : list (list text))
    (P : json → list text → Prop) :
  Forall2 (λ kv l, P kv.2 l) d ls →
  ∀ k l, (k, l) ∈ zip (keys d) ls → ∃ v, (k, v) ∈ d ∧ P v l.
Proof.
  induction 1 as [|[k0 v0] l0 d ls H0 _ IH]; intros k l Hin; [by inversion Hin|].
  cbn in Hin. apply elem_of_cons in Hin as [[= -> ->]|Hin].
  - exists v0. split; [left|done].
  - destruct (IH k l Hin) as (v & Hv & H). exists v. split; [by right|done].
Qed.

Lemma Forall2_zip_keys {R} (d : dict) (ls : list (list text))
    (P : json → list text → Prop) (row : text * list text → R) :
  Forall2 (λ kv l, P kv.2 l) d ls →
  Forall2 (λ kv r, ∃ l, P kv.2 l ∧ r = row (kv.1, l)) d (row <$> zip (keys d) ls).
Proof.
  induction 1 as [|[k0 v0] l0 d ls H0 _ IH]; [constructor|].
  cbn. constructor; [by exists l0|exact IH].
Qed.

(** X21: Loading emoji_keywords into a database that has no such table,
    when every value is a list of at most three objects that each have a
    string under "emoji": the table has one row of four values for each
    key, in the order of the file, the key followed by the emojis and by
    empty strings up to three; the other members of the objects are not
    stored. *)
Theorem emoji_keywords_stored_padded members w :
  Forall (λ kv, ∃ l : list text,
            length l ≤ 3 ∧
            ∃ js, kv.2 = JList js ∧
                  traverse (λ x, subscript x (T "emoji")) js = Ok (JStr <$> l))
    (json_load members) →
  view (conn w) !! T "emoji_keywords" = None →
  ∃ w' t,
    load_padded (T "emoji_keywords") emoji_keywords_cols emoji_keywords_keys
      (json_load members) w = Returns () w' ∧
    disk w' !! T "emoji_keywords" = Some t ∧
    Forall2 (λ kv r, ∃ l : list text,
               (length l ≤ 3 ∧
                ∃ js, kv.2 = JList js ∧
                      traverse (λ x, subscript x (T "emoji")) js = Ok (JStr <$> l)) ∧
               r = VText kv.1 :: (VText <$> l)
                     ++ replicate (3 - length l) (VText []))
      (json_load members) (rows t).
Proof.
  intros Hall Hnone.
  pose proof (NoDup_keys_json_load members) as Hnd.
  destruct (Forall_exists_Forall2 _ _ Hall) as [ls Hls].
  pose (P := λ (v : json) (l : list text),
          length l ≤ 3 ∧
          ∃ js, v = JList js ∧
                traverse (λ x, subscript x (T "emoji")) js = Ok (JStr <$> l)).
  change (Forall2 (λ kv l, P kv.2 l) (json_load members) ls) in Hls.
  assert (length (keys (json_load members)) = length ls) as Hlen.
  { unfold keys. rewrite length_fmap. by eapply Forall2_length. }
  destruct (padded_loaded (T "emoji_keywords") emoji_keywords_cols
              emoji_keywords_keys (json_load members)
              (zip (keys (json_load members)) ls) w)
    as (w' & t & Hrun & Hdisk & Hrows);
    [apply padded_table_definitions|done|done|done|done|apply fst_zip; lia| |].
  { apply Forall_forall. intros [k l] Hin. cbn [fst snd].
    destruct (elem_of_zip_keys _ _ P Hls k l Hin)
      as (v & Hv & Hl & js & -> & Hjs).
    split; [done|]. unfold emoji_keywords_keys.
    rewrite (getitem_NoDup _ k (JList js) Hnd Hv).
    cbn [mbind result_bind elements]. by rewrite Hjs. }
  exists w', t. split; [exact Hrun|]. split; [exact Hdisk|].
  rewrite Hrows.
  apply (Forall2_zip_keys _ _ P
           (λ kl : text * list text,
              VText kl.1 :: (VText <$> kl.2)
                ++ replicate (3 - length kl.2) (VText [])) Hls).
Qed.

(** **** verbs *)

Lemma bind_param_scalars forms :
  Forall (λ x, x = JNull ∨ ∃ s, x = JStr s) forms →
  ∃ vals, traverse bind_param forms = Ok vals.
Proof.
  induction 1 as [|x forms Hx _ [vals IH]]; [by exists []|].
  destruct Hx as [->|[s ->]]; eexists;
    cbn [traverse bind_param mbind result_bind]; by rewrite IH.
Qed.

Lemma traverse_scalars (v : json) (slots : list text) :
  (∀ c, c ∈ slots → ∃ x, subscript v c = Ok x ∧ (x = JNull ∨ ∃ s, x = JStr s)) →
  ∃ forms, traverse (subscript v) slots = Ok forms ∧
           Forall (λ x, x = JNull ∨ ∃ s, x = JStr s) forms.
Proof.
  induction slots as [|c slots IH]; intros Hall; [by exists []|].
  destruct (Hall c) as (x & Hx & Hs); [left|].
  destruct IH as (forms & Hf & Hforms); [intros; apply Hall; by right|].
  exists (x :: forms). cbn [traverse]. rewrite Hx. cbn [mbind result_bind].
  rewrite Hf. split; [done|]. by constructor.
Qed.

Lemma verbs_rows cols (d : dict) (items : list (text * json)) :
  NoDup (keys d) → (∀ kv, kv ∈ items → kv ∈ d) →
  Forall (λ kv, ∀ c, c ∈ drop 1 cols →
            ∃ x, subscript kv.2 c = Ok x ∧ (x = JNull ∨ ∃ s, x = JStr s)) items →
  ∃ vss, traverse (row_values (verbs_keys cols d)) (items.*1) = Ok vss ∧
         Forall2 (λ kv r, ∃ forms vals,
                    traverse (subscript kv.2) (drop 1 cols) = Ok forms ∧
                    traverse bind_param forms = Ok vals ∧
                    r = VText kv.1 :: vals) items vss.
Proof.
  intros Hnd. induction items as [|[k v] items IH]; intros Hsub Hall.
  - exists []. by split.
  - apply Forall_cons in Hall as [Hv Hall]. cbn [snd] in Hv.
    destruct IH as (vss & Hvss & H2); [intros; apply Hsub; by right|done|].
    destruct (traverse_scalars v _ Hv) as (forms & Hforms & Hs).
    destruct (bind_param_scalars forms Hs) as [vals Hvals].
    assert (getitem d k = Ok v) as Hget by (apply getitem_NoDup; [done|apply Hsub; left]).
    assert (row_values (verbs_keys cols d) k = Ok (VText k :: vals)) as Hrow.
    { unfold row_values, verbs_keys.
      assert (traverse (λ col_name, e ← getitem d k; subscript e col_name)
                (drop 1 cols) = Ok forms) as ->.
      { rewrite <- Hforms. f_equal. by rewrite Hget. }
      cbn [mbind result_bind app traverse bind_param]. by rewrite Hvals. }
    exists ((VText k :: vals) :: vss). split.
    + cbn [fmap list_fmap fst traverse]. rewrite Hrow. cbn [mbind result_bind].
      fold (fmap (M:=list) (@fst text json) items). by rewrite Hvss.
    + constructor; [|done]. by exists forms, vals.
Qed.

Lemma Forall2_verbs_rows slots (items : list (text * json)) vss :
  Forall2 (λ kv r, ∃ forms vals,
             traverse (subscript kv.2) slots = Ok forms ∧
             traverse bind_param forms = Ok vals ∧
             r = VText kv.1 :: vals) items vss →
  Forall (λ vs, length vs = S (length slots)) vss ∧
  (λ r, cell r 0) <$> vss = VText <$> items.*1.
Proof.
  induction 1 as [|[k v] r items vss (forms & vals & Hf & Hv & ->) _ [IH1 IH2]];
    [done|].
  split.
  - constructor; [|done]. cbn. f_equal.
    by rewrite (traverse_length _ _ _ Hv), (traverse_length _ _ _ Hf).
  - cbn. f_equal. exact IH2.
Qed.

(** X22: Loading verbs into a database that has no such table, when the
    slots of the first entry have plain names, the engine accepts the
    statement, and every entry has a string or [None] for each of these
    slots: the table has the columns "verb" and the slots, is unique on
    "verb" alone, and holds one row for each key, in the order of the
    file, the key followed by its forms in slot order. *)
Theorem verbs_stored_by_slot members k0 ks m0 t w :
  let d := json_load members in
  let slots := keys (json_load m0) in
  keys d = k0 :: ks → getitem d k0 = Ok (JObj m0) →
  Forall (λ c, plain_name c = true) slots →
  table_definition (T "verbs") (T "verb" :: slots) = Ok t →
  view (conn w) !! T "verbs" = None →
  Forall (λ kv, ∀ c, c ∈ slots →
            ∃ x, subscript kv.2 c = Ok x ∧ (x = JNull ∨ ∃ s, x = JStr s)) d →
  ∃ w' t',
    load_verbs d w = Returns () w' ∧
    disk w' !! T "verbs" = Some t' ∧
    columns t' = T "verb" :: slots ∧ unique_on t' = [T "verb"] ∧
    Forall2 (λ kv r, ∃ forms vals,
               traverse (subscript kv.2) slots = Ok forms ∧
               traverse bind_param forms = Ok vals ∧
               r = VText kv.1 :: vals) d (rows t').
Proof.
  intros d slots Hkeys Hfirst Hplain Hdef Hnone Hall.
  pose proof (NoDup_keys_json_load members) as Hnd. fold d in Hnd.
  assert (t = Table (T "verb" :: slots) [T "verb"] []) as ->.
  { revert Hdef. unfold table_definition.
    cbn [create_table_statement first mbind result_bind].
    rewrite parse_create_plain by (by constructor).
    cbn [mbind result_bind]. by intros ->%check_table_same. }
  destruct (verbs_rows (T "verb" :: slots) d d Hnd) as (vss & Hvss & H2); [done..|].
  destruct (Forall2_verbs_rows _ _ _ H2) as [Hlen Hheads].
  unfold load_verbs. rewrite (verbs_cols_first d k0 ks m0 Hkeys Hfirst).
  erewrite bind_returns; [|reflexivity]. fold slots.
  destruct (rows_loaded (T "verbs") (T "verb" :: slots) _
              (verbs_keys (T "verb" :: slots) d) (keys d) w vss Hdef)
    as (w' & Hrun & Hc & Hv); [|done|done|exact Hvss|exact Hlen|exact Hheads|].
  { exists (T "verb"), []. by split. }
  exists w', (Table (T "verb" :: slots) [T "verb"] vss).
  split; [exact Hrun|].
  rewrite (disk_consistent _ Hc), Hv, lookup_insert_eq. done.
Qed.

(** *** The lexicon and letters outside ASCII *)

(** X8: The engine's [UPPER] converts ASCII letters only, so a candidate
    that does not start with an ASCII lower-case letter is its own
    capitalized form: unless its upper-cased form is a noun, it is stored as
    it is, whatever nouns there are. *)
Theorem lexicon_capitalizes_ascii_only db n p a e c t :
  sources db n p a e →
  is_lower c = false →
  VText (c :: t) ∈ candidates n p a e →
  holds (lexicon_filter (VText (c :: t))) = true →
  VText (upper (c :: t)) ∉ n →
  capitalized (VText (c :: t)) = VText (c :: t) ∧
  ∃ ws, lexicon_select db = Ok ws ∧ VText (c :: t) ∈ ws.
Proof.
  intros Hs Hc Hin Hf Hup.
  assert (capitalize_first (c :: t) = c :: t) as Hcap.
  { unfold capitalize_first, upper. cbn. unfold upper_char. by rewrite Hc. }
  split; [by rewrite capitalized_text, Hcap|].
  exists (outer_select (candidates n p a e) n n).
  split; [by apply lexicon_select_sources|].
  apply elem_of_outer_select. exists (c :: t).
  split; [done|]. split; [by apply lexicon_filter_acceptable|].
  unfold resolve_casing. rewrite Hcap.
  case_bool_decide; [done|]. by rewrite bool_decide_eq_false_2.
Qed.

(** *** A noun that lacks a key *)

(** X9: A noun whose entry is an object without "plural" or without "form"
    raises [KeyError]: the nouns do not load. *)
Theorem noun_without_plural_or_form_fails lang d row m w :
  row ∈ keys d → getitem d row = Ok (JObj m) →
  contains (json_load m) (T "plural") = false ∨
  contains (json_load m) (T "form") = false →
  nouns_keys d row = Raise KeyError ∧
  returned (load_nouns lang d w) = false.
Proof.
  intros Hrow Hget Hmiss.
  assert (nouns_keys d row = Raise KeyError) as Hkeys.
  { unfold nouns_keys. rewrite Hget. cbn [mbind result_bind subscript].
    destruct Hmiss as [Hp|Hf].
    - by rewrite (getitem_contains _ _ Hp).
    - destruct (getitem (json_load m) (T "plural")) as [v|e] eqn:E.
      + cbn [mbind result_bind]. by rewrite (getitem_contains _ _ Hf).
      + by rewrite (getitem_error _ _ _ E). }
  split; [done|]. unfold load_nouns.
  destruct (create_table_outcome (T "nouns") nouns_cols w) as [[e He]|[t Ht]].
  - by erewrite bind_raises.
  - erewrite bind_returns; [|exact Ht].
    assert (returned (for_each (keys d)
              (λ row, keys ← lift (nouns_keys d row); table_insert (T "nouns") keys)
              (created (T "nouns") t w)) = false) as Hloop.
    { apply (for_each_raises_at _ _ row); [done|]. intros w1.
      erewrite bind_raises; [done|]. by apply lift_raise. }
    unfold mbind, M_bind. by destruct (for_each _ _ _) as [[] ?|].
Qed.

(** *** Dictionaries, names of files *)

Lemma text_eqb_eq a b : text_eqb a b = true → a = b.
Proof. apply bool_decide_eq_true. Qed.

Lemma word_type_cases wt :
  wt ∈ word_types ∨
  (text_eqb wt (T "nouns") = false ∧ text_eqb wt (T "verbs") = false ∧
   text_eqb wt (T "prepositions") = false ∧ text_eqb wt (T "translations") = false ∧
   text_eqb wt (T "autosuggestions") = false ∧
   text_eqb wt (T "emoji_keywords") = false).
Proof.
  destruct (decide (wt ∈ word_types)) as [|Hout]; [by left|right].
  unfold word_types in Hout. rewrite !elem_of_cons, elem_of_nil in Hout.
  unfold text_eqb. rewrite !bool_decide_eq_false. naive_solver.
Qed.

Lemma fst_dict_set {V} (d : list (text * V)) k v :
  (dict_set d k v).*1 = if bool_decide (k ∈ d.*1) then d.*1 else d.*1 ++ [k].
Proof.
  induction d as [|[k' v'] d IH]; [done|].
  cbn [dict_set]. unfold text_eqb.
  destruct (bool_decide_reflect (k = k')) as [->|Hne].
  - cbn [fmap list_fmap fst]. rewrite bool_decide_eq_true_2; [done|left].
  - cbn [fmap list_fmap fst]. rewrite IH.
    destruct (bool_decide_reflect (k ∈ d.*1)) as [Hin|Hout].
    + rewrite bool_decide_eq_true_2; [done|by right].
    + rewrite bool_decide_eq_false_2; [done|].
      intros [?|?]%elem_of_cons; done.
Qed.

Lemma elem_of_dict_set {V} (d : list (text * V)) k v k' v' :
  (k', v') ∈ dict_set d k v → (k' = k ∧ v' = v) ∨ (k', v') ∈ d.
Proof.
  induction d as [|[k0 v0] d IH]; cbn [dict_set].
  - intros [= -> ->]%list_elem_of_singleton. by left.
  - unfold text_eqb. destruct (bool_decide_reflect (k = k0)) as [->|Hne].
    + intros [[= -> ->]|Hin]%elem_of_cons; [by left|]. right. by right.
    + intros [[= -> ->]|Hin]%elem_of_cons; [right; left|].
      destruct (IH Hin) as [?|?]; [by left|]. right. by right.
Qed.

Lemma foldM_raises {A B} (f : B → A → result B) l x :
  x ∈ l → (∀ s, raises (f s x) = true) → ∀ s, raises (foldM f s l) = true.
Proof.
  intros Hin Hx. induction l as [|y l IH]; intros s; [by inversion Hin|].
  simpl. unfold mbind, result_bind. destruct (f s y) as [s'|e] eqn:E; [|done].
  apply elem_of_cons in Hin as [->|Hin]; [|by apply IH].
  specialize (Hx s). by rewrite E in Hx.
Qed.

Lemma split_head_word_type wt rest :
  wt ∈ word_types →
  split_head (T ".json") wt = wt ∧
  split_head (T ".json") (wt ++ T ".json" ++ rest) = wt.
Proof.
  unfold word_types. rewrite !elem_of_cons, elem_of_nil.
  intros [->|[->|[->|[->|[->|[->|[]]]]]]]; split; by vm_compute.
Qed.

Lemma exec_insert_some oc tname vals db db' :
  exec_insert oc tname vals db = Ok db' → is_Some (db' !! tname).
Proof.
  unfold exec_insert. destruct (db !! tname) as [t|] eqn:E; [|done].
  destruct (bool_decide _); [|done].
  destruct (violates t vals).
  - destruct oc; [done|]. intros [= <-]. by rewrite E.
  - intros [= <-]. rewrite lookup_insert_eq. eauto.
Qed.

Lemma exec_insert_select_some tname col vals db db' :
  exec_insert_select tname col vals db = Ok db' → is_Some (db' !! tname).
Proof.
  unfold exec_insert_select. destruct (db !! tname) as [t|] eqn:E; [|done].
  destruct (has_column _ _); [|done].
  assert (is_Some (db !! tname)) as Hdb by eauto. clear E.
  revert db Hdb. induction vals as [|v vals IH]; intros db Hdb; simpl.
  - by intros [= <-].
  - unfold mbind, result_bind.
    destruct (exec_insert Abort tname _ db) as [db1|] eqn:E1; [|done].
    apply IH. by apply exec_insert_some in E1.
Qed.

Lemma load_lexicon_stored lang w w' :
  load_lexicon lang w = Returns () w' →
  consistent w' ∧
  stdout w' = stdout w ++ [MsgCreatingTable lang (T "autocomplete_lexicon")] ∧
  is_Some (view (conn w') !! T "autocomplete_lexicon") ∧
  ∀ tname, tname ∈ source_tables →
    is_Some (view (conn w) !! tname) ∧
    view (conn w') !! tname = view (conn w) !! tname.
Proof.
  intros Hrun. split.
  { revert Hrun. unfold load_lexicon. ends_with_commit. }
  assert (∀ tname, tname ∈ source_tables → is_Some (view (conn w) !! tname)) as Hsrc.
  { intros tname Hin. destruct (view (conn w) !! tname) eqn:E; [by eauto|].
    by rewrite (load_lexicon_missing lang w tname Hin E) in Hrun. }
  pose proof (changes_only_load_lexicon lang w) as (_ & _ & Hv & _).
  rewrite Hrun in Hv. cbn [final] in Hv.
  revert Hrun. unfold load_lexicon.
  erewrite bind_returns; [|reflexivity].
  set (w0 := printed _ w).
  destruct (create_table_outcome (T "autocomplete_lexicon") [T "word"] w0)
    as [[e He]|[t Ht]].
  { by erewrite bind_raises. }
  erewrite bind_returns; [|exact Ht].
  set (w1 := created _ t w0).
  unfold execute_lexicon.
  unfold mbind, M_bind, query, lift, begin, update, commit.
  destruct (lexicon_select (view (conn w1))) as [ws|]; [|done].
  cbn [conn view path in_txn files stdout].
  destruct (exec_insert_select _ _ ws (view (conn w1))) as [v|] eqn:E; [|done].
  intros [= <-]. cbn [conn view stdout]. split; [done|]. split.
  - by apply exec_insert_select_some in E.
  - intros tname Hin. split; [by apply Hsrc|].
    apply Hv. intros <-. by apply source_not_lexicon in Hin.
Qed.

(** *** One word type *)

Section WordType.

Variable load_json : text → result (list (text * json)).

Abbreviation load_word_type := (Load.load_word_type load_json).

Lemma changes_only_load_word_type lang wt w :
  changes_only (λ x, x = wt ∧ wt ∈ word_types) w (final (load_word_type lang wt w)).
Proof.
  unfold Load.load_word_type.
  apply changes_only_bind; [apply changes_only_printed|]. intros _ w0.
  apply changes_only_bind; [apply changes_only_lift|]. intros members w1.
  destruct (word_type_cases wt) as [Hin|(-> & -> & -> & -> & -> & ->)];
    [|apply changes_only_refl].
  apply (changes_only_weaken (eq wt)); [by intros x <-|].
  destruct (text_eqb wt (T "nouns")) eqn:E1;
    [apply text_eqb_eq in E1 as ->; apply changes_only_load_nouns|].
  destruct (text_eqb wt (T "verbs")) eqn:E2;
    [apply text_eqb_eq in E2 as ->; apply changes_only_load_verbs|].
  destruct (text_eqb wt (T "prepositions")); [apply changes_only_load_pairs|].
  destruct (text_eqb wt (T "translations")); [apply changes_only_load_pairs|].
  destruct (text_eqb wt (T "autosuggestions")); [apply changes_only_load_padded|].
  destruct (text_eqb wt (T "emoji_keywords")); [apply changes_only_load_padded|].
  apply changes_only_refl.
Qed.

Lemma stdout_load_word_type lang wt w :
  stdout (final (load_word_type lang wt w)) = stdout w ++ [MsgCreatingTable lang wt].
Proof.
  unfold Load.load_word_type.
  erewrite bind_returns; [|reflexivity].
  set (w0 := printed _ w). change (stdout w ++ _) with (stdout w0).
  apply quiet_bind; [intros; apply quiet_lift|]. intros members w1.
  repeat match goal with
  | |- context [if text_eqb ?a ?b then _ else _] => destruct (text_eqb a b)
  end;
  auto using quiet_load_nouns, quiet_load_verbs, quiet_load_pairs, quiet_load_padded.
Qed.

Lemma changes_only_word_types lang wts w :
  changes_only (λ x, x ∈ wts ∧ x ∈ word_types) w
    (final (for_each wts (load_word_type lang) w)).
Proof.
  apply changes_only_for_each_in. intros wt w1 Hin.
  eapply changes_only_weaken; [|apply changes_only_load_word_type].
  by intros x [-> ?].
Qed.

Lemma stdout_word_types lang wts : ∀ w w',
  for_each wts (load_word_type lang) w = Returns () w' →
  stdout w' = stdout w ++ (MsgCreatingTable lang <$> wts).
Proof.
  induction wts as [|wt wts IH]; intros w w'.
  - intros [= <-]. by rewrite app_nil_r.
  - simpl. unfold mbind, M_bind.
    pose proof (stdout_load_word_type lang wt w) as Hout.
    destruct (load_word_type lang wt w) as [[] w1|e w1]; [|done].
    intros H. rewrite (IH _ _ H). simpl in Hout. rewrite Hout.
    by rewrite <- app_assoc.
Qed.

Lemma changes_only_build_steps lang wts w :
  changes_only (λ x, x ∈ wts ∨ x = T "autocomplete_lexicon") w
    (final ((_ ← for_each wts (load_word_type lang);
             _ ← load_lexicon lang;
             print (MsgDatabaseCreated lang)) w)).
Proof.
  apply changes_only_bind.
  { eapply changes_only_weaken; [|apply changes_only_word_types]. naive_solver. }
  intros _ w1. apply changes_only_bind.
  { eapply changes_only_weaken; [|apply changes_only_load_lexicon]. naive_solver. }
  intros _ w2. apply changes_only_printed.
Qed.

(** X10: A word type whose loading raises leaves none of its rows behind:
    what was inserted before the exception was never committed. On disk the
    tables of the other word types are as they were, and the table of this
    one is as it was or, when it was made by this call, empty. *)
Theorem failed_word_type_commits_no_row lang wt w e w' :
  consistent w → load_word_type lang wt w = Raises e w' →
  (∀ tname, tname ≠ wt → disk w' !! tname = disk w !! tname) ∧
  (disk w' !! wt = disk w !! wt ∨ ∃ t, disk w' !! wt = Some t ∧ rows t = []).
Proof.
  intros Hw Hrun.
  assert (disk w' = disk w ∨ ∃ t, rows t = [] ∧ disk w' = <[wt := t]> (disk w))
    as [->|(t & Hrows & ->)].
  { revert Hrun. unfold Load.load_word_type.
    erewrite bind_returns; [|reflexivity].
    set (w0 := printed _ w).
    assert (consistent w0) as Hw0 by done.
    change (disk w) with (disk w0).
    destruct (load_json (json_path lang wt)) as [members|e0].
    - erewrite bind_returns; [|by apply lift_ok].
      destruct (text_eqb wt (T "nouns")) eqn:E1;
        [apply text_eqb_eq in E1 as ->; by apply load_nouns_raises|].
      destruct (text_eqb wt (T "verbs")) eqn:E2;
        [apply text_eqb_eq in E2 as ->; by apply load_verbs_raises|].
      destruct (text_eqb wt (T "prepositions")); [by apply load_pairs_raises|].
      destruct (text_eqb wt (T "translations")); [by apply load_pairs_raises|].
      destruct (text_eqb wt (T "autosuggestions")); [by apply load_padded_raises|].
      destruct (text_eqb wt (T "emoji_keywords")); [by apply load_padded_raises|].
      done.
    - erewrite bind_raises; [|by apply lift_raise]. intros [= <- <-]. by left. }
  - split; [done|by left].
  - split.
    + intros tname Hne. by rewrite lookup_insert_ne.
    + right. exists t. by rewrite lookup_insert_eq.
Qed.

End WordType.

(** *** One language *)

Section Build.

Variable load_json : text → result (list (text * json)).
Variable get_language_iso : text → result text.
Variable str_upper : text → text.

Abbreviation load_word_type := (Load.load_word_type load_json).
Abbreviation build_language :=
  (Load.build_language load_json get_language_iso str_upper).

(** The process once the database of a language is opened: a database
    without tables, at the path of the language, the other files as they
    were. *)
Lemma build_language_opens lang wt wts iso w :
  get_language_iso lang = Ok iso →
  let p := database_path str_upper iso in
  let over := bool_decide (is_Some (files w !! p)) in
  let w1 := World (<[p := ∅]> (files w))
              (stdout w ++ [MsgDatabaseWritten lang over]) (Conn p ∅ false) in
  build_language lang (wt :: wts) w =
  (_ ← for_each (wt :: wts) (load_word_type lang);
   _ ← load_lexicon lang;
   print (MsgDatabaseCreated lang)) w1.
Proof.
  intros Hiso p over w1. unfold Load.build_language.
  erewrite bind_returns; [|by apply lift_ok].
  erewrite bind_returns; [|reflexivity]. fold p. fold over.
  unfold w1, over. destruct (files w !! p) as [db|] eqn:E.
  - rewrite bool_decide_eq_true_2 by eauto.
    erewrite bind_returns; [|unfold remove; by rewrite E].
    erewrite bind_returns; [|reflexivity].
    erewrite bind_returns; [|reflexivity].
    unfold printed. cbn [files stdout conn]. rewrite lookup_delete_eq.
    cbn [default]. by rewrite insert_delete_eq.
  - rewrite bool_decide_eq_false_2 by (by intros [? ?]).
    erewrite bind_returns; [|reflexivity].
    erewrite bind_returns; [|reflexivity].
    erewrite bind_returns; [|reflexivity].
    unfold printed. cbn [files stdout conn]. by rewrite E.
Qed.

Lemma build_language_other_file lang wts q w :
  (∀ iso, get_language_iso lang = Ok iso → q ≠ database_path str_upper iso) →
  files (final (build_language lang wts w)) !! q = files w !! q.
Proof.
  intros Hq. destruct wts as [|wt wts]; [done|].
  destruct (get_language_iso lang) as [iso|e] eqn:Hiso; last first.
  { unfold Load.build_language. erewrite bind_raises; [done|by apply lift_raise]. }
  rewrite (build_language_opens lang wt wts iso w Hiso).
  set (w1 := World _ _ _).
  destruct (changes_only_build_steps load_json lang (wt :: wts) w1) as (_ & Hf & _).
  rewrite Hf by (by apply Hq). unfold w1. cbn [files].
  rewrite lookup_insert_ne; [done|]. intros Heq. by apply (Hq iso).
Qed.

(** X11: Building a language replaces its database file and touches no
    other: whether the build completes or raises, the file of the language
    is there and holds no table but those of the word types and the lexicon
    (nothing of a file that was overwritten is left), and every other file
    is as it was. *)
Theorem build_language_writes_one_file lang wts iso w :
  wts ≠ [] → get_language_iso lang = Ok iso →
  let o := build_language lang wts w in
  let p := database_path str_upper iso in
  path (conn (final o)) = p ∧
  (∀ q, q ≠ p → files (final o) !! q = files w !! q) ∧
  ∃ db, files (final o) !! p = Some db ∧
        ∀ tname, is_Some (db !! tname) →
                 tname ∈ wts ∨ tname = T "autocomplete_lexicon".
Proof.
  intros Hwts Hiso o p. destruct wts as [|wt wts]; [done|]. clear Hwts.
  unfold o. rewrite (build_language_opens lang wt wts iso w Hiso). fold p.
  set (w1 := World _ _ _).
  destruct (changes_only_build_steps load_json lang (wt :: wts) w1)
    as (Hp & Hf & Hv & Hd).
  change (path (conn w1)) with p in *. split; [done|]. split.
  { intros q Hq. rewrite Hf by done. unfold w1. cbn [files].
    by rewrite lookup_insert_ne. }
  destruct Hd as [Hd|(v & Hd & Hagree)].
  - exists ∅. split.
    + rewrite Hd. unfold w1. cbn [files]. apply lookup_insert_eq.
    + intros tname [t Ht]. by rewrite lookup_empty in Ht.
  - exists v. split; [done|]. intros tname [t Ht].
    destruct (decide (tname ∈ wt :: wts ∨ tname = T "autocomplete_lexicon"))
      as [Hin|Hout]; [done|].
    rewrite (Hagree tname Hout) in Ht. unfold w1 in Ht. cbn [conn view] in Ht.
    by rewrite lookup_empty in Ht.
Qed.

Lemma build_language_missing_source lang wts tname w :
  tname ∈ source_tables → tname ∉ wts →
  returned (build_language lang wts w) = false ∨ wts = [].
Proof.
  intros Hsrc Hout. destruct wts as [|wt wts]; [by right|left].
  destruct (get_language_iso lang) as [iso|e] eqn:Hiso; last first.
  { unfold Load.build_language. erewrite bind_raises; [done|by apply lift_raise]. }
  rewrite (build_language_opens lang wt wts iso w Hiso).
  set (w1 := World _ _ _).
  destruct (changes_only_word_types load_json lang (wt :: wts) w1) as (_ & _ & Hv & _).
  unfold mbind at 1, M_bind at 1.
  destruct (for_each (wt :: wts) (load_word_type lang) w1) as [[] w2|e w2]; [|done].
  cbn [final] in Hv.
  erewrite bind_raises; [done|].
  apply (load_lexicon_missing _ _ tname); [done|].
  rewrite (Hv tname) by naive_solver. unfold w1. cbn [conn view]. apply lookup_empty.
Qed.

(** X12: A language that lacks the file of one of the four sources of the
    lexicon never gets a complete database: its build raises, at the latest
    when the lexicon query looks for the table. *)
Theorem build_language_needs_every_source lang wts tname w :
  wts ≠ [] → tname ∈ source_tables → tname ∉ wts →
  returned (build_language lang wts w) = false.
Proof.
  intros Hwts Hsrc Hout.
  by destruct (build_language_missing_source lang wts tname w Hsrc Hout).
Qed.

(** X13: A build that completes has printed, in order, that the database is
    written (overwritten exactly when its file was there), one notice for
    each word type listed, the notice of the lexicon and that the database
    is created; nothing is left uncommitted, the four sources of the lexicon
    were among the word types, and the file holds their tables and the
    lexicon. *)
Theorem build_language_complete lang wts iso w w' :
  wts ≠ [] → get_language_iso lang = Ok iso →
  build_language lang wts w = Returns () w' →
  let p := database_path str_upper iso in
  stdout w' =
    stdout w ++ [MsgDatabaseWritten lang (bool_decide (is_Some (files w !! p)))]
      ++ (MsgCreatingTable lang <$> wts)
      ++ [MsgCreatingTable lang (T "autocomplete_lexicon"); MsgDatabaseCreated lang] ∧
  consistent w' ∧
  (∀ tname, tname ∈ source_tables → tname ∈ wts) ∧
  ∀ tname, tname ∈ T "autocomplete_lexicon" :: source_tables →
           is_Some (disk w' !! tname).
Proof.
  intros Hwts Hiso Hrun p.
  assert (∀ tname, tname ∈ source_tables → tname ∈ wts) as Hall.
  { intros tname Hin. destruct (decide (tname ∈ wts)) as [|Hout]; [done|].
    destruct (build_language_missing_source lang wts tname w Hin Hout) as [H|H];
      [by rewrite Hrun in H|done]. }
  destruct wts as [|wt wts]; [done|]. clear Hwts.
  rewrite (build_language_opens lang wt wts iso w Hiso) in Hrun. fold p in Hrun.
  set (w1 := World _ _ _) in Hrun.
  unfold mbind at 1, M_bind at 1 in Hrun.
  destruct (for_each (wt :: wts) (load_word_type lang) w1) as [[] w2|] eqn:Hloop;
    [|done].
  unfold mbind at 1, M_bind at 1 in Hrun.
  destruct (load_lexicon lang w2) as [[] w3|] eqn:Hlex; [|done].
  injection Hrun as <-.
  destruct (load_lexicon_stored lang w2 w3 Hlex) as (Hc & Hout & Hl & Hs).
  apply (stdout_word_types load_json) in Hloop. split_and!.
  - unfold printed. cbn [stdout]. rewrite Hout, Hloop. unfold w1. cbn [stdout].
    by rewrite <- !app_assoc.
  - exact Hc.
  - exact Hall.
  - intros tname Hin. destruct Hc as [_ Hdisk].
    unfold disk, printed. cbn [files conn]. rewrite Hdisk.
    change (is_Some (view (conn w3) !! tname)).
    apply elem_of_cons in Hin as [->|Hin]; [done|].
    destruct (Hs tname Hin) as [H1 H2]. by rewrite H2.
Qed.

End Build.

(** *** The directories of the languages *)

Section Directories.

Variable listdir : text → result (list text).

Abbreviation available_word_types := (Load.available_word_types listdir).
Abbreviation language_word_type_dict := (Load.language_word_type_dict listdir).

(** X14: Which entries of a directory stand for a word type: those whose
    name, up to its first ".json", is one of the six names. So "nouns.json"
    does, and so do "nouns.json.bak" and a bare "nouns"; a word type is
    listed once for every entry that stands for it. *)
Theorem available_word_types_by_name lang fs :
  listdir (PATH_TO_ET_FILES ++ lang ++ T "/formatted_data") = Ok fs →
  ∃ wts, available_word_types lang = Ok wts ∧
    wts = List.filter (λ n, bool_decide (n ∈ word_types))
            (split_head (T ".json") <$> fs) ∧
    (∀ wt, wt ∈ wts ↔
       wt ∈ word_types ∧ ∃ f, f ∈ fs ∧ split_head (T ".json") f = wt) ∧
    (∀ wt rest, wt ∈ word_types →
       wt ∈ fs ∨ wt ++ T ".json" ++ rest ∈ fs → wt ∈ wts).
Proof.
  intros Hdir. unfold Load.available_word_types. rewrite Hdir.
  cbn [mbind result_bind]. eexists. split; [reflexivity|].
  assert (∀ n, existsb (text_eqb n) word_types = bool_decide (n ∈ word_types)) as Hb.
  { intros n. apply eq_true_iff_eq. rewrite bool_decide_eq_true, existsb_exists.
    split.
    - intros (x & Hx & <-%text_eqb_eq). by apply list_elem_of_In.
    - intros Hin. exists n. split; [by apply list_elem_of_In|].
      by apply bool_decide_eq_true. }
  assert (∀ wt, wt ∈ List.filter (λ n, existsb (text_eqb n) word_types)
                       (split_head (T ".json") <$> fs) ↔
                wt ∈ word_types ∧ ∃ f, f ∈ fs ∧ split_head (T ".json") f = wt) as Hin.
  { intros wt. rewrite list_elem_of_In, filter_In, <- list_elem_of_In.
    rewrite list_elem_of_fmap, Hb, bool_decide_eq_true. naive_solver. }
  split_and!.
  - apply filter_ext. intros n. apply Hb.
  - exact Hin.
  - intros wt rest Hwt Hfs. apply Hin. split; [done|].
    destruct (split_head_word_type wt rest Hwt) as [H1 H2].
    destruct Hfs as [?|?]; eauto.
Qed.

Lemma language_word_type_dict_from ls : ∀ d0 d,
  foldM (λ d lang, wts ← available_word_types lang; Ok (dict_set d lang wts)) d0 ls
    = Ok d →
  NoDup d0.*1 →
  NoDup d.*1 ∧
  (∀ l, l ∈ d.*1 ↔ l ∈ d0.*1 ∨ l ∈ ls) ∧
  (∀ l wts, (l, wts) ∈ d → (l, wts) ∈ d0 ∨ available_word_types l = Ok wts).
Proof.
  induction ls as [|lang ls IH]; intros d0 d; cbn [foldM].
  - intros [= <-] Hnd. split; [done|]. split; [|by left].
    intros l. rewrite elem_of_nil. naive_solver.
  - unfold mbind at 1, result_bind at 1. unfold mbind at 1, result_bind at 1.
    destruct (available_word_types lang) as [wts0|] eqn:Hav; [|done].
    intros Hrun Hnd.
    destruct (IH _ _ Hrun) as (H1 & H2 & H3).
    { rewrite fst_dict_set. case_bool_decide; [done|].
      apply NoDup_app. split_and!; [done| |apply NoDup_singleton].
      by intros x Hx ->%list_elem_of_singleton. }
    split; [done|]. split.
    + intros l. rewrite H2, fst_dict_set, elem_of_cons.
      case_bool_decide; [|rewrite elem_of_app, list_elem_of_singleton];
        naive_solver.
    + intros l wts Hin. destruct (H3 l wts Hin) as [Hd|?]; [|by right].
      apply elem_of_dict_set in Hd as [[-> ->]|?]; [by right|by left].
Qed.

(** X15: The dictionary of the languages to build has every selected
    language once, however often the argument names it, each with the word
    types its directory gives. *)
Theorem language_word_type_dict_once ls d :
  language_word_type_dict ls = Ok d →
  NoDup d.*1 ∧
  (∀ l, l ∈ d.*1 ↔ l ∈ ls) ∧
  (∀ l wts, (l, wts) ∈ d → available_word_types l = Ok wts).
Proof.
  intros Hrun.
  destruct (language_word_type_dict_from ls [] d Hrun) as (H1 & H2 & H3);
    [constructor|].
  split; [done|]. split.
  - intros l. rewrite H2. cbn. rewrite elem_of_nil. naive_solver.
  - intros l wts Hin. destruct (H3 l wts Hin) as [H|H]; [by inversion H|done].
Qed.

End Directories.

(** *** The languages of a run *)

Section Run.

Variable current_languages : list text.
Variable literal_eval : text → result pyval.
Variable listdir : text → result (list text).
Variable load_json : text → result (list (text * json)).
Variable get_language_iso : text → result text.
Variable str_upper : text → text.

Abbreviation known_language := (Load.known_language current_languages).
Abbreviation parse_argument := (Load.parse_argument current_languages literal_eval).
Abbreviation language_word_type_dict := (Load.language_word_type_dict listdir).
Abbreviation build_language :=
  (Load.build_language load_json get_language_iso str_upper).
Abbreviation main :=
  (Load.main current_languages literal_eval listdir load_json get_language_iso
     str_upper).

(** X16: The directories of all the selected languages are listed before the
    first database is touched: when one cannot be listed, the run raises in
    the world it started in. *)
Theorem unlistable_directory_fails_before_any_effect argv languages lang e w :
  parse_argument argv = Ok languages →
  lang ∈ default current_languages languages →
  listdir (PATH_TO_ET_FILES ++ lang ++ T "/formatted_data") = Raise e →
  ∃ e', main argv w = Raises e' w.
Proof.
  intros Hparse Hin Hdir. unfold Load.main.
  erewrite bind_returns; [|by apply lift_ok].
  assert (raises (language_word_type_dict (default current_languages languages))
          = true) as Hr.
  { apply (foldM_raises _ _ lang); [done|]. intros s.
    unfold Load.available_word_types. by rewrite Hdir. }
  destruct (language_word_type_dict _) as [d|e']; [done|].
  exists e'. by apply bind_raises.
Qed.

(** X17: Which exception an invalid argument raises: the one of
    [ast.literal_eval] when the text does not evaluate, [ValueError] when it
    evaluates to something that is not a list, [TypeError] when the list has
    an element that [set] cannot hold, and [ValueError] when an element is
    not a known language. The world is the one the run started in. *)
Theorem invalid_argument_exception prog arg w :
  (∀ e, literal_eval arg = Raise e → main [prog; arg] w = Raises e w) ∧
  (∀ v, literal_eval arg = Ok v → (∀ l, v ≠ PList l) →
     main [prog; arg] w = Raises ValueError w) ∧
  (∀ l, literal_eval arg = Ok (PList l) → forallb hashable l = false →
     main [prog; arg] w = Raises TypeError w) ∧
  (∀ l, literal_eval arg = Ok (PList l) → forallb hashable l = true →
     forallb known_language l = false →
     main [prog; arg] w = Raises ValueError w).
Proof.
  unfold Load.main, Load.parse_argument. split_and!.
  - intros e ->. apply bind_raises, lift_raise. by destruct e.
  - intros v -> Hv. apply bind_raises, lift_raise.
    destruct v as [s|l|h]; [done| |done]. by destruct (Hv l).
  - intros l -> Hh. apply bind_raises, lift_raise.
    cbn [mbind result_bind]. by rewrite Hh.
  - intros l -> Hh Hk. apply bind_raises, lift_raise.
    cbn [mbind result_bind]. by rewrite Hh, Hk.
Qed.

(** X18: An argument that evaluates to the empty list selects no language:
    the run prints its first notice, with no name in it, and builds nothing. *)
Theorem empty_list_builds_nothing prog arg w :
  literal_eval arg = Ok (PList []) →
  main [prog; arg] w = Returns () (printed (MsgCreatingDatabases []) w).
Proof.
  intros Harg. unfold Load.main, Load.parse_argument. rewrite Harg. reflexivity.
Qed.

Lemma parse_argument_all prog arg :
  literal_eval arg = Ok (PList (PStr <$> current_languages)) →
  parse_argument [prog; arg] = Ok (Some current_languages).
Proof.
  intros Harg. unfold Load.parse_argument. rewrite Harg. cbn [mbind result_bind].
  assert (∀ l, forallb hashable (PStr <$> l) = true) as -> by (by induction l).
  assert (forallb known_language (PStr <$> current_languages) = true) as ->.
  { apply forallb_forall. intros x (s & -> & Hs)%list_elem_of_In%list_elem_of_fmap.
    apply existsb_exists. exists s. split; [by apply list_elem_of_In|].
    by apply bool_decide_eq_true. }
  do 2 f_equal. generalize current_languages as l.
  induction l as [|s l IH]; [done|]. cbn. by rewrite IH.
Qed.

(** X19: Without an argument, or with more than one, the run is the run
    whose argument lists every known language: further arguments are
    ignored, not refused. *)
Theorem no_argument_is_every_language argv prog arg w :
  length argv ≠ 2 →
  literal_eval arg = Ok (PList (PStr <$> current_languages)) →
  main argv w = main [prog; arg] w.
Proof.
  intros Hlen Harg. unfold Load.main. fold parse_argument.
  rewrite (parse_argument_all prog arg Harg).
  assert (parse_argument argv = Ok None) as ->; [|done].
  by destruct argv as [|a [|b [|c r]]].
Qed.

(** X20: A run touches no file but the databases of the languages it is
    asked to build: whether it completes or raises, every other file, so the
    database of every other language, is as it was. *)
Theorem run_touches_only_selected_databases argv languages q w :
  parse_argument argv = Ok languages →
  (∀ lang iso, lang ∈ default current_languages languages →
     get_language_iso lang = Ok iso → q ≠ database_path str_upper iso) →
  files (final (main argv w)) !! q = files w !! q.
Proof.
  intros Hparse Hq. unfold Load.main.
  erewrite bind_returns; [|by apply lift_ok].
  set (ls := default current_languages languages) in *.
  destruct (language_word_type_dict ls) as [d|e] eqn:Hd; last first.
  { erewrite bind_raises; [done|by apply lift_raise]. }
  erewrite bind_returns; [|by apply lift_ok].
  erewrite bind_returns; [|reflexivity].
  destruct (language_word_type_dict_from listdir ls [] d Hd) as (_ & Hkeys & _);
    [constructor|].
  assert (∀ entry, entry ∈ d → entry.1 ∈ ls) as Hin.
  { intros entry He.
    assert (entry.1 ∈ d.*1) as H1 by (apply list_elem_of_fmap; by exists entry).
    apply Hkeys in H1 as [H1|H1]; [by inversion H1|done]. }
  change (files w !! q) with (files (printed (MsgCreatingDatabases ls) w) !! q).
  generalize (printed (MsgCreatingDatabases ls) w) as w0.
  clear Hd Hkeys. induction d as [|entry d IH]; intros w0; [done|].
  cbn [for_each]. unfold mbind, M_bind.
  pose proof (build_language_other_file load_json get_language_iso str_upper
                entry.1 entry.2 q w0) as Hb.
  destruct (build_language entry.1 entry.2 w0) as [[] w1|e w1].
  - rewrite IH by (intros; apply Hin; by right). apply Hb.
    intros iso. apply Hq, Hin. left.
  - apply Hb. intros iso. apply Hq, Hin. left.
Qed.

End Run.

(** *** A build and the state before it *)

Lemma same_outcome_bind {A B} (m : M A) (f : A → M B) w w' :
  same_outcome (m w) (m w') →
  (∀ a w1 w1', same_database w1 w1' → same_outcome (f a w1) (f a w1')) →
  same_outcome ((m ≫= f) w) ((m ≫= f) w').
Proof.
  intros Hm Hf. unfold mbind, M_bind.
  destruct (m w) as [a w1|e w1], (m w') as [a' w1'|e' w1']; try done.
  destruct Hm as [-> Hm]. by apply Hf.
Qed.

Lemma same_outcome_for_each {A} (body : A → M unit) l : ∀ w w',
  (∀ x w1 w1', same_database w1 w1' → same_outcome (body x w1) (body x w1')) →
  same_database w w' →
  same_outcome (for_each l body w) (for_each l body w').
Proof.
  induction l as [|x l IH]; intros w w' Hbody Hw; [done|].
  cbn [for_each]. apply same_outcome_bind; [by apply Hbody|].
  intros _ w1 w1' H1. by apply IH.
Qed.

Lemma same_outcome_lift {A} (r : result A) w w' :
  same_database w w' → same_outcome (lift r w) (lift r w').
Proof. intros Hw. by destruct r. Qed.

Lemma same_outcome_print m w w' :
  same_database w w' → same_outcome (print m w) (print m w').
Proof. intros Hw. by split. Qed.

Lemma same_outcome_execute_create st w w' :
  same_database w w' → same_outcome (execute_create st w) (execute_create st w').
Proof.
  intros [Hc Hf]. unfold execute_create. rewrite <- Hc.
  destruct (exec_create st (view (conn w))) as [v|e]; [|by split].
  destruct (in_txn (conn w)).
  - split; [done|]. split; [done|]. cbn [conn path files]. by rewrite Hf, Hc.
  - split; [done|]. split; [done|]. cbn [conn path files].
    by rewrite !lookup_insert_eq.
Qed.

Lemma same_outcome_create_table wt cols w w' :
  same_database w w' →
  same_outcome (create_table wt cols w) (create_table wt cols w').
Proof.
  intros Hw. unfold create_table.
  apply same_outcome_bind; [by apply same_outcome_lift|].
  intros st w1 w1' H1. by apply same_outcome_execute_create.
Qed.

Lemma same_outcome_query {A} (f : database → result A) w w' :
  same_database w w' → same_outcome (query f w) (query f w').
Proof.
  intros Hw. unfold query. destruct Hw as [Hc Hf]. rewrite <- Hc.
  apply same_outcome_lift. by split.
Qed.

Lemma same_outcome_begin w w' :
  same_database w w' → same_outcome (begin w) (begin w').
Proof.
  intros [Hc Hf]. split; [done|]. split; cbn [conn path files];
    [by rewrite Hc|done].
Qed.

Lemma same_outcome_update f w w' :
  same_database w w' → same_outcome (update f w) (update f w').
Proof.
  intros [Hc Hf]. unfold update. rewrite <- Hc.
  destruct (f (view (conn w))) as [v|e]; [|by split].
  split; [done|]. split; cbn [conn path files]; [done|by rewrite Hf, Hc].
Qed.

Lemma same_outcome_commit w w' :
  same_database w w' → same_outcome (commit w) (commit w').
Proof.
  intros [Hc Hf]. split; [done|]. rewrite <- Hc.
  split; cbn [conn path files]; [done|]. by rewrite !lookup_insert_eq.
Qed.

Lemma same_outcome_table_insert tname params w w' :
  same_database w w' →
  same_outcome (table_insert tname params w) (table_insert tname params w').
Proof.
  intros Hw. unfold table_insert, execute_insert.
  apply same_outcome_bind; [by apply same_outcome_query|]. intros _ w1 w1' H1.
  apply same_outcome_bind; [by apply same_outcome_begin|]. intros _ w2 w2' H2.
  apply same_outcome_bind; [by apply same_outcome_lift|]. intros vals w3 w3' H3.
  by apply same_outcome_update.
Qed.

Lemma same_outcome_insert_loop wt (row_keys : text → result (list json)) ks w w' :
  same_database w w' →
  same_outcome
    (for_each ks (λ row, keys ← lift (row_keys row); table_insert wt keys) w)
    (for_each ks (λ row, keys ← lift (row_keys row); table_insert wt keys) w').
Proof.
  intros Hw. apply same_outcome_for_each; [|done]. intros row w1 w1' H1.
  apply same_outcome_bind; [by apply same_outcome_lift|]. intros keys w2 w2' H2.
  by apply same_outcome_table_insert.
Qed.

Ltac same_outcome_steps :=
  repeat first
    [ apply same_outcome_commit
    | apply same_outcome_insert_loop
    | apply same_outcome_create_table
    | apply same_outcome_table_insert
    | apply same_outcome_lift
    | apply same_outcome_print
    | apply same_outcome_query
    | apply same_outcome_begin
    | apply same_outcome_update
    | apply same_outcome_bind; [|intros ? ? ? ?] ]; try done.

Lemma same_outcome_load_nouns lang d w w' :
  same_database w w' → same_outcome (load_nouns lang d w) (load_nouns lang d w').
Proof.
  intros Hw. unfold load_nouns. same_outcome_steps.
  destruct (seeds_scribe lang d); [by apply same_outcome_table_insert|done].
Qed.

Lemma same_outcome_load_verbs d w w' :
  same_database w w' → same_outcome (load_verbs d w) (load_verbs d w').
Proof. intros Hw. unfold load_verbs. same_outcome_steps. Qed.

Lemma same_outcome_load_pairs wt cols d w w' :
  same_database w w' →
  same_outcome (load_pairs wt cols d w) (load_pairs wt cols d w').
Proof. intros Hw. unfold load_pairs. same_outcome_steps. Qed.

Lemma same_outcome_load_padded wt cols f d w w' :
  same_database w w' →
  same_outcome (load_padded wt cols f d w) (load_padded wt cols f d w').
Proof.
  intros Hw. unfold load_padded.
  apply same_outcome_bind; [by apply same_outcome_create_table|].
  intros _ w1 w1' H1.
  apply same_outcome_bind;
    [by apply (same_outcome_insert_loop wt (f cols d))|].
  intros _ w2 w2' H2. by apply same_outcome_commit.
Qed.

Lemma same_outcome_load_lexicon lang w w' :
  same_database w w' → same_outcome (load_lexicon lang w) (load_lexicon lang w').
Proof. intros Hw. unfold load_lexicon, execute_lexicon. same_outcome_steps. Qed.

Section Rebuild.

Variable load_json : text → result (list (text * json)).
Variable get_language_iso : text → result text.
Variable str_upper : text → text.

Abbreviation load_word_type := (Load.load_word_type load_json).
Abbreviation build_language :=
  (Load.build_language load_json get_language_iso str_upper).

Lemma same_outcome_load_word_type lang wt w w' :
  same_database w w' →
  same_outcome (load_word_type lang wt w) (load_word_type lang wt w').
Proof.
  intros Hw. unfold Load.load_word_type.
  apply same_outcome_bind; [by apply same_outcome_print|]. intros _ w1 w1' H1.
  apply same_outcome_bind; [by apply same_outcome_lift|]. intros members w2 w2' H2.
  repeat match goal with
  | |- context [if text_eqb ?a ?b then _ else _] => destruct (text_eqb a b)
  end;
  auto using same_outcome_load_nouns, same_outcome_load_verbs,
             same_outcome_load_pairs, same_outcome_load_padded.
  by split.
Qed.

(** X24: What a build leaves does not depend on the state it starts
    from: started in any two processes, the build of a language returns in
    both or raises the same exception in both, and leaves the same
    connection and the same content in the database file.  So a database
    that is overwritten is the database a first build would have made. *)
Theorem build_language_ignores_old_state lang wts iso w w' :
  wts ≠ [] → get_language_iso lang = Ok iso →
  same_outcome (build_language lang wts w) (build_language lang wts w').
Proof.
  intros Hwts Hiso. destruct wts as [|wt wts]; [done|]. clear Hwts.
  rewrite !(build_language_opens load_json get_language_iso str_upper
              lang wt wts iso _ Hiso).
  set (w1 := World _ _ _). set (w1' := World _ _ _).
  assert (same_database w1 w1') as H1.
  { split; [done|]. unfold w1, w1'. cbn [files conn path].
    by rewrite !lookup_insert_eq. }
  apply same_outcome_bind.
  { apply same_outcome_for_each; [|done].
    intros. by apply same_outcome_load_word_type. }
  intros _ w2 w2' H2.
  apply same_outcome_bind; [by apply same_outcome_load_lexicon|].
  intros _ w3 w3' H3. by apply same_outcome_print.
Qed.

End Rebuild.

(** *** A language that fails *)

Section Stop.

Variable current_languages : list text.
Variable literal_eval : text → result pyval.
Variable listdir : text → result (list text).
Variable load_json : text → result (list (text * json)).
Variable get_language_iso : text → result text.
Variable str_upper : text → text.

Abbreviation parse_argument := (Load.parse_argument current_languages literal_eval).
Abbreviation language_word_type_dict := (Load.language_word_type_dict listdir).
Abbreviation build_language :=
  (Load.build_language load_json get_language_iso str_upper).
Abbreviation main :=
  (Load.main current_languages literal_eval listdir load_json get_language_iso
     str_upper).

(** X23: The languages are built one after the other, and the first
    build that raises ends the run with its exception: the databases of
    the languages before it stay as they were built, the languages after
    it are not looked at. *)
Theorem failed_language_stops_the_run argv languages d1 lang wts d2 w w1 e w2 :
  let ls := default current_languages languages in
  parse_argument argv = Ok languages →
  language_word_type_dict ls = Ok (d1 ++ (lang, wts) :: d2) →
  for_each d1 (λ entry, build_language entry.1 entry.2)
    (printed (MsgCreatingDatabases ls) w) = Returns () w1 →
  build_language lang wts w1 = Raises e w2 →
  main argv w = Raises e w2.
Proof.
  intros ls Hparse Hd Hrun Hfail. unfold Load.main.
  erewrite bind_returns; [|by apply lift_ok]. fold ls.
  erewrite bind_returns; [|by apply lift_ok].
  erewrite bind_returns; [|reflexivity].
  rewrite for_each_app, Hrun. cbn [for_each fst snd].
  by erewrite bind_raises.
Qed.

End Stop.

(** *** Instances of the further properties *)

(** The statement for the columns of autosuggestions. *)
Lemma create_table_one_name_per_element_witness :
  Forall (λ c, plain_name c = true) autosuggestions_cols ∧
  ∃ st, create_table_statement (T "autosuggestions") autosuggestions_cols = Ok st ∧
        parse_create st = Ok (Table autosuggestions_cols [T "word"] []).
Proof.
  assert (Forall (λ c, plain_name c = true) autosuggestions_cols) as H.
  { repeat constructor. }
  split; [exact H|].
  destruct (create_table_one_name_per_element (T "autosuggestions") (T "word")
              [T "suggestion_0"; T "suggestion_1"; T "suggestion_2"] H)
    as (st & Hst & Hparse & _).
  by exists st.
Defined.

(** Creating the nouns again, with another column. *)
Lemma create_table_again_witness :
  create_table (T "nouns") nouns_cols opened = Returns () ex_with_nouns ∧
  final (create_table (T "nouns") [T "x"] ex_with_nouns) = ex_with_nouns.
Proof.
  assert (create_table (T "nouns") nouns_cols opened = Returns () ex_with_nouns) as H
    by (vm_compute; reflexivity).
  split; [exact H|].
  by destruct (create_table_again (T "nouns") nouns_cols [T "x"] opened ex_with_nouns H).
Defined.

(** Inserting the suggestions of "scribe" twice. *)
Lemma table_insert_again_witness :
  let keys := [JStr (T "scribe"); JStr (T "scribes"); JStr []; JStr []] in
  let w1 := final (table_insert (T "autosuggestions") keys ex_with_autosuggestions) in
  view (conn ex_with_autosuggestions) !! T "autosuggestions"
    = Some (Table autosuggestions_cols [T "word"] []) ∧
  table_insert (T "autosuggestions") keys ex_with_autosuggestions = Returns () w1 ∧
  table_insert (T "autosuggestions") keys w1 = Returns () w1.
Proof.
  intros keys w1.
  assert (view (conn ex_with_autosuggestions) !! T "autosuggestions"
          = Some (Table autosuggestions_cols [T "word"] [])) as Ht
    by (vm_compute; reflexivity).
  assert (table_insert (T "autosuggestions") keys ex_with_autosuggestions
          = Returns () w1) as Hrun by (vm_compute; reflexivity).
  split; [exact Ht|]. split; [exact Hrun|].
  apply (table_insert_again (T "autosuggestions") keys
           (Table autosuggestions_cols [T "word"] []) ex_with_autosuggestions w1);
    [exact Ht|done|done| |exact Hrun].
  repeat constructor; by eexists.
Defined.

(** A noun without plural, inserted into a table that has it already. *)
Lemma table_insert_none_in_key_witness :
  let keys := [JStr (T "x"); JNull; JStr []] in
  let w := final (table_insert (T "nouns") keys ex_with_nouns) in
  (∃ t, view (conn w) !! T "nouns" = Some t ∧
        rows t = [[VText (T "x"); VNull; VText []]] ∧
        col_index (T "plural") (columns t) = Some 1 ∧
        T "plural" ∈ unique_on t) ∧
  table_rows (view (conn (final (table_insert (T "nouns") keys w)))) (T "nouns")
    = Some [[VText (T "x"); VNull; VText []]; [VText (T "x"); VNull; VText []]].
Proof.
  intros keys w.
  set (t := Table [T "noun"; T "plural"; T "form"] [T "noun"; T "plural"; T "form"]
              [[VText (T "x"); VNull; VText []]]).
  assert (view (conn w) !! T "nouns" = Some t) as Ht by (vm_compute; reflexivity).
  assert (T "plural" ∈ unique_on t) as Hu by (right; left).
  split; [by exists t|].
  rewrite (table_insert_none_in_key (T "nouns") keys
             [VText (T "x"); VNull; VText []] t (T "plural") 1 w Ht eq_refl eq_refl
             Hu eq_refl eq_refl).
  cbn [final conn view]. unfold table_rows. by rewrite lookup_insert_eq.
Defined.

(** The prepositions of the examples. *)
Lemma pairs_stored_one_row_per_key_witness :
  view (conn opened) !! T "prepositions" = None ∧
  Forall (λ kv, kv.2 = JNull ∨ ∃ s, kv.2 = JStr s) (json_load ex_prepositions) ∧
  ∃ w' t,
    load_pairs (T "prepositions") prepositions_cols (json_load ex_prepositions) opened
      = Returns () w' ∧
    disk w' !! T "prepositions" = Some t ∧
    NoDup ((λ r, cell r 0) <$> rows t).
Proof.
  assert (Forall (λ kv : text * json, kv.2 = JNull ∨ ∃ s, kv.2 = JStr s)
            (json_load ex_prepositions)) as Hall.
  { assert (json_load ex_prepositions = ex_prepositions) as ->
      by (vm_compute; reflexivity).
    repeat (apply Forall_cons; split; [right; by eexists|]). constructor. }
  split; [done|]. split; [exact Hall|].
  destruct (pairs_stored_one_row_per_key (T "prepositions") prepositions_cols
              ex_prepositions opened) as (w' & t & Hrun & Hdisk & _ & Hnd);
    [by left|done|exact Hall|].
  by exists w', t.
Defined.

(** The autosuggestions of the examples: one suggestion, two empty strings. *)
Lemma autosuggestions_stored_padded_witness :
  json_load ex_autosuggestions
    = (λ kl : text * list text, (kl.1, JList (JStr <$> kl.2)))
        <$> [(T "scribe", [T "scribes"])] ∧
  view (conn opened) !! T "autosuggestions" = None ∧
  ∃ w' t,
    load_padded (T "autosuggestions") autosuggestions_cols autosuggestions_keys
      (json_load ex_autosuggestions) opened = Returns () w' ∧
    disk w' !! T "autosuggestions" = Some t ∧
    rows t = [[VText (T "scribe"); VText (T "scribes"); VText []; VText []]].
Proof.
  split; [done|]. split; [done|].
  destruct (autosuggestions_stored_padded ex_autosuggestions
              [(T "scribe", [T "scribes"])] opened)
    as (w' & t & Hrun & Hdisk & Hrows); [done| |done|].
  { repeat constructor. }
  by exists w', t.
Defined.

(** An entry with four suggestions. *)
Lemma more_than_three_elements_fail_witness :
  T "a" ∈ keys (json_load ex_four_suggestions) ∧
  view (conn opened) !! T "autosuggestions" = None ∧
  returned (load_padded (T "autosuggestions") autosuggestions_cols
              autosuggestions_keys (json_load ex_four_suggestions) opened) = false.
Proof.
  assert (T "a" ∈ keys (json_load ex_four_suggestions)) as Hin by left.
  split; [exact Hin|]. split; [done|].
  by destruct (more_than_three_elements_fail (T "autosuggestions")
                 autosuggestions_cols autosuggestions_keys
                 (json_load ex_four_suggestions) (T "a")
                 (JList [JStr (T "b"); JStr (T "c"); JStr (T "d"); JStr (T "e")])
                 [JStr (T "b"); JStr (T "c"); JStr (T "d"); JStr (T "e")] opened)
    as [_ H]; [by left|done|exact Hin|done|done|simpl; lia|].
Defined.

(** "österreich" next to the noun "Österreich". *)
Lemma lexicon_capitalizes_ascii_only_witness :
  sources ex_db_umlaut [VText ex_osterreich_upper] [] [VText ex_osterreich_lower] [] ∧
  ∃ ws, lexicon_select ex_db_umlaut = Ok ws ∧ VText ex_osterreich_lower ∈ ws.
Proof.
  assert (sources ex_db_umlaut [VText ex_osterreich_upper] []
            [VText ex_osterreich_lower] []) as Hs.
  { split_and!; vm_compute; reflexivity. }
  split; [exact Hs|].
  destruct (lexicon_capitalizes_ascii_only ex_db_umlaut _ _ _ _ 246%N (T "sterreich") Hs)
    as [_ H]; [done| |by vm_compute| |exact H].
  - apply (bool_decide_unpack _). by vm_compute.
  - apply (bool_decide_unpack _). by vm_compute.
Defined.

(** A noun whose entry has no plural. *)
Lemma noun_without_plural_or_form_fails_witness :
  T "chat" ∈ keys (json_load ex_noun_without_plural) ∧
  nouns_keys (json_load ex_noun_without_plural) (T "chat") = Raise KeyError ∧
  returned (load_nouns (T "French") (json_load ex_noun_without_plural) opened) = false.
Proof.
  assert (T "chat" ∈ keys (json_load ex_noun_without_plural)) as Hin by left.
  split; [exact Hin|].
  apply (noun_without_plural_or_form_fails (T "French")
           (json_load ex_noun_without_plural) (T "chat") [(T "form", JStr [])] opened);
    [exact Hin|done|by left].
Defined.

(** The verbs of the examples, where "etre" lacks a slot, after the nouns. *)
Lemma failed_word_type_commits_no_row_witness :
  let o := Load.load_word_type (ex_load_json ex_nouns) (T "French") (T "verbs")
             ex_after_nouns in
  consistent ex_after_nouns ∧
  o = Raises KeyError (final o) ∧
  disk (final o) !! T "nouns" = disk ex_after_nouns !! T "nouns" ∧
  table_rows (disk (final o)) (T "verbs") = Some [].
Proof.
  intros o.
  assert (consistent ex_after_nouns) as Hc.
  { split; vm_compute; reflexivity. }
  assert (o = Raises KeyError (final o)) as Ho by (vm_compute; reflexivity).
  split; [exact Hc|]. split; [exact Ho|].
  destruct (failed_word_type_commits_no_row (ex_load_json ex_nouns) (T "French")
              (T "verbs") ex_after_nouns KeyError (final o) Hc Ho) as [Hother _].
  split; [by apply Hother|]. vm_compute. reflexivity.
Defined.

(** A French build from scratch with the four sources of the lexicon. *)
Lemma build_language_writes_one_file_witness :
  let o := Load.build_language (ex_load_json ex_nouns) ex_iso upper (T "French")
             source_tables fresh in
  source_tables ≠ [] ∧ ex_iso (T "French") = Ok (T "fr") ∧
  path (conn (final o)) = ex_path ∧
  ∀ q, q ≠ ex_path → files (final o) !! q = None.
Proof.
  intros o. split; [done|]. split; [done|].
  destruct (build_language_writes_one_file (ex_load_json ex_nouns) ex_iso upper
              (T "French") source_tables (T "fr") fresh) as (Hp & Hf & _); [done..|].
  split; [exact Hp|]. intros q Hq. unfold o. by rewrite (Hf q Hq).
Defined.

(** A French build with nouns and emoji_keywords only. *)
Lemma build_language_needs_every_source_witness :
  [T "nouns"; T "emoji_keywords"] ≠ [] ∧
  T "prepositions" ∈ source_tables ∧
  (T "prepositions" ∉ [T "nouns"; T "emoji_keywords"]) ∧
  returned (Load.build_language (ex_load_json ex_nouns) ex_iso upper (T "French")
              [T "nouns"; T "emoji_keywords"] fresh) = false.
Proof.
  assert (T "prepositions" ∈ source_tables) as Hin by (right; left).
  assert (T "prepositions" ∉ [T "nouns"; T "emoji_keywords"]) as Hout.
  { apply (bool_decide_unpack _). by vm_compute. }
  split; [done|]. split; [exact Hin|]. split; [exact Hout|].
  by apply (build_language_needs_every_source _ _ _ _ _ (T "prepositions")).
Defined.

(** A French build that completes. *)
Lemma build_language_complete_witness :
  let o := Load.build_language (ex_load_json ex_nouns) ex_iso upper (T "French")
             source_tables fresh in
  source_tables ≠ [] ∧ ex_iso (T "French") = Ok (T "fr") ∧
  o = Returns () (final o) ∧
  stdout (final o) =
    [MsgDatabaseWritten (T "French") false;
     MsgCreatingTable (T "French") (T "nouns");
     MsgCreatingTable (T "French") (T "prepositions");
     MsgCreatingTable (T "French") (T "autosuggestions");
     MsgCreatingTable (T "French") (T "emoji_keywords");
     MsgCreatingTable (T "French") (T "autocomplete_lexicon");
     MsgDatabaseCreated (T "French")] ∧
  consistent (final o).
Proof.
  intros o.
  assert (o = Returns () (final o)) as Ho by (vm_compute; reflexivity).
  split; [done|]. split; [done|]. split; [exact Ho|].
  destruct (build_language_complete (ex_load_json ex_nouns) ex_iso upper (T "French")
              source_tables (T "fr") fresh (final o)) as (Hout & Hc & _);
    [done|done|exact Ho|].
  split; [exact Hout|exact Hc].
Defined.

(** A directory with "nouns.json" and "nouns.json.bak". *)
Lemma available_word_types_by_name_witness :
  ex_listdir_backup (PATH_TO_ET_FILES ++ T "French" ++ T "/formatted_data")
    = Ok [T "nouns.json"; T "nouns.json.bak"; T "prepositions.json";
          T "autosuggestions.json"; T "emoji_keywords.json"] ∧
  Load.available_word_types ex_listdir_backup (T "French")
    = Ok [T "nouns"; T "nouns"; T "prepositions"; T "autosuggestions";
          T "emoji_keywords"].
Proof.
  split; [done|].
  destruct (available_word_types_by_name ex_listdir_backup (T "French") _ eq_refl)
    as (wts & Hav & -> & _).
  rewrite Hav. vm_compute. reflexivity.
Defined.

(** French named twice. *)
Lemma language_word_type_dict_once_witness :
  Load.language_word_type_dict (ex_listdir source_tables) [T "French"; T "French"]
    = Ok [(T "French", source_tables)] ∧
  NoDup [(T "French", source_tables)].*1.
Proof.
  assert (Load.language_word_type_dict (ex_listdir source_tables)
            [T "French"; T "French"] = Ok [(T "French", source_tables)]) as H
    by (vm_compute; reflexivity).
  split; [exact H|].
  by destruct (language_word_type_dict_once (ex_listdir source_tables)
                 [T "French"; T "French"] [(T "French", source_tables)] H).
Defined.

(** A run without argument when the directory of French is missing. *)
Lemma unlistable_directory_fails_before_any_effect_witness :
  Load.parse_argument ex_languages ex_literal_eval ex_argv = Ok None ∧
  T "French" ∈ ex_languages ∧
  ex_listdir_missing (PATH_TO_ET_FILES ++ T "French" ++ T "/formatted_data")
    = Raise OSError ∧
  ∃ e, Load.main ex_languages ex_literal_eval ex_listdir_missing
         (ex_load_json ex_nouns) ex_iso upper ex_argv fresh = Raises e fresh.
Proof.
  assert (T "French" ∈ ex_languages) as Hin by left.
  split; [done|]. split; [exact Hin|]. split; [done|].
  by apply (unlistable_directory_fails_before_any_effect ex_languages ex_literal_eval
              ex_listdir_missing (ex_load_json ex_nouns) ex_iso upper ex_argv None
              (T "French") OSError fresh).
Defined.

(** The argument [[]]. *)
Lemma empty_list_builds_nothing_witness :
  ex_literal_eval_empty (T "[]") = Ok (PList []) ∧
  Load.main ex_languages ex_literal_eval_empty (ex_listdir source_tables)
    (ex_load_json ex_nouns) ex_iso upper [T "data_to_sqlite.py"; T "[]"] fresh
  = Returns () (printed (MsgCreatingDatabases []) fresh).
Proof.
  split; [done|]. by apply empty_list_builds_nothing.
Defined.

(** No argument, three arguments, and the argument [['French']]. *)
Lemma no_argument_is_every_language_witness :
  let run := Load.main ex_languages ex_literal_eval_french (ex_listdir source_tables)
               (ex_load_json ex_nouns) ex_iso upper in
  length ex_argv ≠ 2 ∧
  ex_literal_eval_french (T "['French']") = Ok (PList (PStr <$> ex_languages)) ∧
  run ex_argv fresh = run [T "data_to_sqlite.py"; T "['French']"] fresh ∧
  run [T "data_to_sqlite.py"; T "a"; T "b"] fresh
    = run [T "data_to_sqlite.py"; T "['French']"] fresh.
Proof.
  intros run. split; [done|]. split; [done|]. split.
  - by apply no_argument_is_every_language.
  - by apply no_argument_is_every_language.
Defined.

(** A French run and the German database. *)
Lemma run_touches_only_selected_databases_witness :
  let q := T "databases/DELanguageData.sqlite" in
  Load.parse_argument ex_languages ex_literal_eval ex_argv = Ok None ∧
  (∀ lang iso, lang ∈ ex_languages → ex_iso lang = Ok iso →
     q ≠ database_path upper iso) ∧
  files (final (ex_run source_tables ex_nouns)) !! q = None.
Proof.
  intros q.
  assert (∀ lang iso, lang ∈ ex_languages → ex_iso lang = Ok iso →
            q ≠ database_path upper iso) as Hq.
  { intros lang iso ->%list_elem_of_singleton [= <-]. by vm_compute. }
  split; [done|]. split; [exact Hq|].
  unfold ex_run.
  by rewrite (run_touches_only_selected_databases ex_languages ex_literal_eval
                (ex_listdir source_tables) (ex_load_json ex_nouns) ex_iso upper
                ex_argv None q fresh eq_refl Hq).
Defined.

(** One keyword with one emoji. *)
Lemma emoji_keywords_stored_padded_witness :
  view (conn opened) !! T "emoji_keywords" = None ∧
  ∃ w' t,
    load_padded (T "emoji_keywords") emoji_keywords_cols emoji_keywords_keys
      (json_load ex_emoji_keywords) opened = Returns () w' ∧
    disk w' !! T "emoji_keywords" = Some t ∧
    length (rows t) = 1.
Proof.
  split; [done|].
  destruct (emoji_keywords_stored_padded ex_emoji_keywords opened)
    as (w' & t & Hrun & Hdisk & Hrows); [|done|].
  { assert (json_load ex_emoji_keywords = ex_emoji_keywords) as ->
      by (vm_compute; reflexivity).
    apply Forall_cons. split; [|constructor].
    exists [[128512%N]]. split; [simpl; lia|]. eexists. split; [reflexivity|].
    vm_compute. reflexivity. }
  exists w', t. split; [exact Hrun|]. split; [exact Hdisk|].
  by rewrite <- (Forall2_length _ _ _ Hrows).
Defined.

(** Two verbs with the same two slots. *)
Lemma verbs_stored_by_slot_witness :
  keys (json_load ex_verbs_regular) = [T "aller"; T "venir"] ∧
  getitem (json_load ex_verbs_regular) (T "aller") = Ok (JObj ex_verb_aller) ∧
  table_definition (T "verbs") [T "verb"; T "pres"; T "past"]
    = Ok (Table [T "verb"; T "pres"; T "past"] [T "verb"] []) ∧
  view (conn opened) !! T "verbs" = None ∧
  ∃ w' t,
    load_verbs (json_load ex_verbs_regular) opened = Returns () w' ∧
    disk w' !! T "verbs" = Some t ∧
    columns t = [T "verb"; T "pres"; T "past"] ∧ unique_on t = [T "verb"] ∧
    length (rows t) = 2.
Proof.
  assert (table_definition (T "verbs") [T "verb"; T "pres"; T "past"]
          = Ok (Table [T "verb"; T "pres"; T "past"] [T "verb"] [])) as Hdef
    by (vm_compute; reflexivity).
  split; [by vm_compute|]. split; [by vm_compute|]. split; [exact Hdef|].
  split; [done|].
  destruct (verbs_stored_by_slot ex_verbs_regular (T "aller") [T "venir"]
              ex_verb_aller (Table [T "verb"; T "pres"; T "past"] [T "verb"] [])
              opened)
    as (w' & t & Hrun & Hdisk & Hcols & Huniq & Hrows);
    [by vm_compute|by vm_compute| |exact Hdef|done| |].
  { change (keys (json_load ex_verb_aller)) with [T "pres"; T "past"].
    repeat constructor. }
  { change (keys (json_load ex_verb_aller)) with [T "pres"; T "past"].
    change (json_load ex_verbs_regular) with ex_verbs_regular.
    repeat (apply Forall_cons; split;
            [intros c [->|[->|[]%elem_of_nil]%elem_of_cons]%elem_of_cons;
             eexists; (split; [vm_compute; reflexivity|right; by eexists])|]).
    constructor. }
  exists w', t. split; [exact Hrun|]. split; [exact Hdisk|].
  split; [exact Hcols|]. split; [exact Huniq|].
  by rewrite <- (Forall2_length _ _ _ Hrows).
Defined.

(** A fresh French build and one over the database of an earlier run. *)
Lemma build_language_ignores_old_state_witness :
  let build := Load.build_language (ex_load_json ex_nouns) ex_iso upper (T "French")
                 source_tables in
  source_tables ≠ [] ∧ ex_iso (T "French") = Ok (T "fr") ∧
  same_outcome (build fresh) (build (final (ex_run source_tables ex_nouns))).
Proof.
  intros build. split; [done|]. split; [done|].
  by apply build_language_ignores_old_state with (iso := T "fr").
Defined.

(** French without prepositions, then German. *)
Lemma failed_language_stops_the_run_witness :
  let wts := [T "nouns"; T "emoji_keywords"] in
  let ls := [T "French"; T "German"] in
  let build := Load.build_language (ex_load_json ex_nouns) ex_iso upper in
  let w1 := printed (MsgCreatingDatabases ls) fresh in
  Load.parse_argument ls ex_literal_eval ex_argv = Ok None ∧
  Load.language_word_type_dict (ex_listdir wts) ls
    = Ok ([] ++ (T "French", wts) :: [(T "German", wts)]) ∧
  build (T "French") wts w1 = Raises OperationalError (final (build (T "French") wts w1)) ∧
  Load.main ls ex_literal_eval (ex_listdir wts) (ex_load_json ex_nouns) ex_iso upper
    ex_argv fresh
  = Raises OperationalError (final (build (T "French") wts w1)).
Proof.
  intros wts ls build w1.
  assert (Load.language_word_type_dict (ex_listdir wts) ls
          = Ok ([] ++ (T "French", wts) :: [(T "German", wts)])) as Hd
    by (vm_compute; reflexivity).
  assert (build (T "French") wts w1
          = Raises OperationalError (final (build (T "French") wts w1))) as Hfail
    by (vm_compute; reflexivity).
  split; [done|]. split; [exact Hd|]. split; [exact Hfail|].
  by apply (failed_language_stops_the_run ls ex_literal_eval (ex_listdir wts)
              (ex_load_json ex_nouns) ex_iso upper ex_argv None []
              (T "French") wts [(T "German", wts)] fresh w1).
Defined.

End Properties.
